(** * Substitution-variant generation (hashcat -a 5 table generator)

    A shallow embedding of [src/main.go] (the kong-based version with
    [processWord], [processWordReverse], [processWordSubstituteAll] and
    [processWordSubstituteAllReverse]) and the properties of its
    specification. The rune-level [processWord] of the first version in the
    same file is embedded in [RuneVersion].

    Conventions of the embedding:
    - a Go [string] is a sequence of bytes: Rocq's [string];
    - a Go [int] is a [Z]: the integers the code computes from a word and a
      table are bounded by the length of a word or of a list, so 64-bit
      wrap-around does not occur in them; where an argument of the caller
      can make a subtraction wrap, in [generateCombinations], the wrap-around
      is written out; a recursion that does not end (in Go it exhausts the
      stack) is the outcome [OutOfFuel];
    - [map[string][]string] is a [gmap string (list string)], and
      [map[string]string] a [gmap string string];
    - [out <- w] appends to the list of emissions; each emission also records
      the substitution count the code holds at that point, which the code
      uses for filtering and never prints;
    - a run-time panic (index or slice out of range) and unbounded recursion
      are outcomes of a computation, see [outcome]. *)

From Stdlib Require Import Ascii.
From stdpp Require Import gmap strings sorting.

Local Open Scope Z_scope.

(** ** Go strings *)

Module GoString.

(** [len(s)] *)
Definition len (s : string) : Z := Z.of_nat (String.length s).

(** [s[lo:hi]] when [0 <= lo <= hi <= len(s)] *)
Definition sub (s : string) (lo hi : Z) : string :=
  String.substring (Z.to_nat lo) (Z.to_nat (hi - lo)) s.

(** the bounds check Go performs on [s[lo:hi]] *)
Definition inRange (s : string) (lo hi : Z) : bool :=
  bool_decide (0 ≤ lo ∧ lo ≤ hi ∧ hi ≤ len s).

(** [strings.HasPrefix(s, p)] *)
Definition HasPrefix (s p : string) : bool := String.prefix p s.

(** [strings.HasSuffix(s, p)] *)
Definition HasSuffix (s p : string) : bool :=
  bool_decide (len p ≤ len s) &&
  bool_decide (sub s (len s - len p) (len s) = p).

End GoString.

Import GoString.

(** ** Computations: emissions, panics, divergence *)

(** One value sent on the output channel, with the substitution count the
    code associates with it. *)
Record emission : Type := Emit { variant : string; subCount : Z }.

Global Instance emission_eq_dec : EqDecision emission.
Proof. solve_decision. Defined.

Inductive outcome (A : Type) : Type :=
  | Done (a : A)      (* the call returned [a] *)
  | Panicked          (* run-time panic: index or slice out of range *)
  | OutOfFuel.        (* the recursion did not end within the fuel given *)
Arguments Done {A} a.
Arguments Panicked {A}.
Arguments OutOfFuel {A}.

(** What was sent before the call ended, and how it ended. *)
Definition M (A : Type) : Type := (list emission * outcome A)%type.

Definition emitted {A} (m : M A) : list emission := m.1.
Definition result {A} (m : M A) : outcome A := m.2.

Global Instance M_ret : MRet M := λ A a, ([], Done a).

Global Instance M_bind : MBind M := λ A B f m,
  match m.2 with
  | Done a => (m.1 ++ (f a).1, (f a).2)
  | Panicked => (m.1, Panicked)
  | OutOfFuel => (m.1, OutOfFuel)
  end.

Definition send (w : string) (n : Z) : M unit := ([Emit w n], Done tt).
Definition panic {A} : M A := ([], Panicked).
Definition outOfFuel {A} : M A := ([], OutOfFuel).

(** [for _, x := range l { body }] *)
Fixpoint forEach {A} (l : list A) (body : A → M unit) : M unit :=
  match l with
  | [] => mret tt
  | x :: l' => body x ;; forEach l' body
  end.

(** a loop that updates local variables [acc] *)
Fixpoint foldM {A S} (body : S → A → M S) (acc : S) (l : list A) : M S :=
  match l with
  | [] => mret acc
  | x :: l' => acc' ← body acc x; foldM body acc' l'
  end.

(** [s[lo:hi]], panicking like Go when the bounds are wrong *)
Definition slice (s : string) (lo hi : Z) : M string :=
  if inRange s lo hi then mret (sub s lo hi) else panic.

(** [l[i]], panicking like Go when [i] is out of range *)
Definition index {A} (l : list A) (i : Z) : M A :=
  if bool_decide (0 ≤ i) then
    match l !! Z.to_nat i with
    | Some x => mret x
    | None => panic
    end
  else panic.

(** the variants written to the output, in order *)
Definition output {A} (m : M A) : list string := variant <$> emitted m.

(** ** The forward occurrence algorithm *)

Section generation.

Variable subMap : gmap string (list string).
Variables minSubstitute maxSubstitute : Z.

(** The closure [generate] of [processWord]. [fuel] bounds the depth of the
    recursion; [minSub] is [minSubstitute] after the adjustment at the head
    of [processWord]. *)
Fixpoint generate (fuel : nat) (minSub : Z)
    (currentWord : string) (currentSubCount start : Z) : M unit :=
  match fuel with
  | O => outOfFuel
  | S fuel' =>
    forEach (seqZ start (len currentWord - start)) (λ i,
      forEach (reverse (seqZ 1 (len currentWord - i))) (λ keyLength,
        if bool_decide (i + keyLength > len currentWord) then mret tt
        else
          key ← slice currentWord i (i + keyLength);
          match subMap !! key with
          | Some subs =>
            forEach subs (λ sub,
              pre ← slice currentWord 0 i;
              post ← slice currentWord (i + keyLength) (len currentWord);
              let newWord := pre +:+ sub +:+ post in
              let newSubCount := currentSubCount + 1 in
              if bool_decide (newSubCount > maxSubstitute) then mret tt
              else
                (if bool_decide (newSubCount >= minSub)
                 then send newWord newSubCount else mret tt);;
                generate fuel' minSub newWord newSubCount (i + len sub))
          | None => mret tt
          end))
  end.

(** A recursive call of [generate] scans what follows the replacement, which
    is shorter than what the caller scans: the fuel given here is enough (see
    [generate_returns] and [generate_fuel]). *)
Definition processWord (word : string) : M unit :=
  let minSub := if bool_decide (minSubstitute = 0)
                then minSubstitute + 1 else minSubstitute in
  generate (S (String.length word)) minSub word 0 0.

End generation.

(** ** The combination enumerator *)

(** The least and the greatest value of a Go [int] (64 bits, two's
    complement). *)
Definition minInt64 : Z := - 2 ^ 63.
Definition maxInt64 : Z := 2 ^ 63 - 1.

(** [generateCombinations(n, k)]; [result] is the local accumulator. The two
    subtractions [k-1] and [n-1] wrap around only at [MinInt64]:
    - for [k = MinInt64 + 1] the bound [k-1] is [MinInt64], the test
      [i >= k-1] holds of every [int] and [i--] wraps: the loop does not
      end;
    - for [k = MinInt64] the bound [k-1] is [MaxInt64]: the body runs only
      for [i = MaxInt64], which [n-1] is only for [n = MinInt64];
    - for every other [k] the test [n < k] has failed, so neither [k-1] nor
      [n-1] wraps and the loop runs over [n-1, n-2, ..., k-1]. *)
Fixpoint generateCombinations (fuel : nat) (n k : Z) : M (list (list Z)) :=
  match fuel with
  | O => outOfFuel
  | S fuel' =>
    if bool_decide (k = 0) then mret [[]]
    else if bool_decide (n < k) then mret []
    else if bool_decide (k = minInt64 + 1) then outOfFuel
    else if bool_decide (k = minInt64) then
      if bool_decide (n = minInt64) then
        subCombos ← generateCombinations fuel' maxInt64 maxInt64;
        mret ((λ sub, maxInt64 :: sub) <$> subCombos)
      else mret []
    else
      foldM (λ result i,
               subCombos ← generateCombinations fuel' i (k - 1);
               mret (result ++ ((λ sub, i :: sub) <$> subCombos)))
            [] (reverse (seqZ (k - 1) (n - 1 - (k - 1) + 1)))
  end.

(** ** The reverse occurrence algorithm *)

(** The anonymous struct of [positions]. *)
Record position : Type :=
  Position { start : Z; keyLength : Z; subs : list string }.

(** The check of the sorted intervals:
    [for i := 1; i < len(intervals); i++ { if intervals[i][0] <= intervals[i-1][1] { return false } }] *)
Fixpoint disjointSorted (intervals : list (Z * Z)) : bool :=
  match intervals with
  | a :: (b :: _) as rest =>
      if bool_decide (b.1 ≤ a.2) then false else disjointSorted rest
  | _ => true
  end.

(** [sort.Slice] with the comparison [intervals[i][0] < intervals[j][0]].
    [sort.Slice] is not stable, but two intervals with the same start overlap
    (every key has length at least 1), so the answer of
    [validSubstitutionPositions] does not depend on how ties are ordered. *)
Definition startLe (a b : Z * Z) : Prop := a.1 ≤ b.1.

Global Instance startLe_dec : RelDecision startLe.
Proof. intros a b. unfold startLe. apply _. Defined.

Definition sortByStart (intervals : list (Z * Z)) : list (Z * Z) :=
  merge_sort startLe intervals.

Definition validSubstitutionPositions
    (combo : list Z) (positions : list position) : M bool :=
  intervals ← foldM (λ intervals idx,
                       pos ← index positions idx;
                       mret (intervals ++ [(start pos, start pos + keyLength pos - 1)]))
                    [] combo;
  mret (disjointSorted (sortByStart intervals)).

Section reverse.

Variable subMap : gmap string (list string).
Variables minSubstitute maxSubstitute : Z.

(** The two nested loops that fill [positions]. *)
Definition findPositions (word : string) : M (list position) :=
  foldM (λ positions i,
    foldM (λ positions keyLength,
      key ← slice word i (i + keyLength);
      match subMap !! key with
      | Some subs => mret (positions ++ [Position i keyLength subs])
      | None => mret positions
      end) positions (seqZ 1 (len word - i)))
    [] (seqZ 0 (len word)).

(** The body of [for _, idx := range combo]: one replacement, at the
    position shifted by the running [offset]. *)
Definition applyAt (positions : list position)
    (st : string * Z) (idx : Z) : M (string * Z) :=
  let '(result, offset) := st in
  pos ← index positions idx;
  sub ← index (subs pos) 0;
  let actualStart := start pos + offset in
  pre ← slice result 0 actualStart;
  post ← slice result (actualStart + keyLength pos) (len result);
  mret (pre +:+ sub +:+ post, offset + (len sub - keyLength pos)).

(** [processWordReverse] once [positions] is filled. [fuel] bounds the
    recursion of [generateCombinations]. The count recorded with an emission
    is the number of replacements applied, [len(combo)]. The loop
    [for subCount := actualMax; subCount >= minSubstitute; subCount--] is
    given by the counts from [actualMax] down to [minSubstitute]; only for
    [minSubstitute = MinInt64], where [subCount--] would wrap around after
    some [2^63] turns, does the loop of the code go on beyond them. *)
Definition processWordReverseFrom (fuel : nat)
    (word : string) (positions : list position) : M unit :=
  let totalPossible := Z.of_nat (length positions) in
  if bool_decide (totalPossible < minSubstitute) then mret tt
  else
    let actualMax := if bool_decide (maxSubstitute > totalPossible)
                     then totalPossible else maxSubstitute in
    forEach (reverse (seqZ minSubstitute (actualMax - minSubstitute + 1)))
      (λ subCount,
         combinations ← generateCombinations fuel (Z.of_nat (length positions)) subCount;
         forEach combinations (λ combo,
           valid ← validSubstitutionPositions combo positions;
           if negb valid then mret tt
           else
             st ← foldM (applyAt positions) (word, 0) combo;
             send st.1 (Z.of_nat (length combo)))).

(** [generateCombinations] is called with [k <= len(positions)]; for
    [k >= 0] its recursion is [k] deep and this fuel is enough, for [k < 0]
    other than [math.MinInt64] no fuel is: the recursion does not end. *)
Definition processWordReverse (word : string) : M unit :=
  positions ← findPositions word;
  processWordReverseFrom (S (length positions)) word positions.

End reverse.

(** ** [strings.ReplaceAll] *)

Module Utf8.

Definition byteVal (c : ascii) : Z := Z.of_N (N_of_ascii c).

(** The table [first] of [unicode/utf8]: for a leading byte, the length of
    the sequence and the range accepted for the second byte. *)
Definition first (b : Z) : option (nat * Z * Z) :=
  if bool_decide (b < 0xC2) then None
  else if bool_decide (b ≤ 0xDF) then Some (2%nat, 0x80, 0xBF)
  else if bool_decide (b = 0xE0) then Some (3%nat, 0xA0, 0xBF)
  else if bool_decide (b ≤ 0xEC) then Some (3%nat, 0x80, 0xBF)
  else if bool_decide (b = 0xED) then Some (3%nat, 0x80, 0x9F)
  else if bool_decide (b ≤ 0xEF) then Some (3%nat, 0x80, 0xBF)
  else if bool_decide (b = 0xF0) then Some (4%nat, 0x90, 0xBF)
  else if bool_decide (b ≤ 0xF3) then Some (4%nat, 0x80, 0xBF)
  else if bool_decide (b = 0xF4) then Some (4%nat, 0x80, 0x8F)
  else None.

Definition byteIn (lo hi : Z) (s : string) (k : nat) : bool :=
  match String.get k s with
  | Some c => bool_decide (lo ≤ byteVal c ≤ hi)
  | None => false
  end.

(** The size returned by [utf8.DecodeRuneInString(s)]: 0 for the empty
    string, 1 for an ASCII byte and for an invalid or truncated sequence. *)
Definition runeWidth (s : string) : nat :=
  match s with
  | EmptyString => 0%nat
  | String c0 _ =>
    match first (byteVal c0) with
    | None => 1%nat
    | Some (sz, lo, hi) =>
      if bool_decide (String.length s < sz)%nat then 1%nat
      else if negb (byteIn lo hi s 1) then 1%nat
      else if bool_decide (sz ≤ 2)%nat then 2%nat
      else if negb (byteIn 0x80 0xBF s 2) then 1%nat
      else if bool_decide (sz ≤ 3)%nat then 3%nat
      else if negb (byteIn 0x80 0xBF s 3) then 1%nat
      else 4%nat
    end
  end.

End Utf8.

(** The non-overlapping instances of a non-empty [old], from the left.
    [skip] counts the bytes of the current instance still to be dropped. *)
Fixpoint replaceFrom (old new s : string) (skip : nat) : string :=
  match s with
  | EmptyString => EmptyString
  | String c s' =>
    match skip with
    | S skip' => replaceFrom old new s' skip'
    | O =>
      if String.prefix old s
      then new +:+ replaceFrom old new s' (String.length old - 1)
      else String c (replaceFrom old new s' 0)
    end
  end.

(** An empty [old] matches at the beginning of the string and after each
    UTF-8 sequence. [skip] counts the bytes of the current sequence still to
    be copied. *)
Fixpoint insertAtRunes (new s : string) (skip : nat) : string :=
  match s with
  | EmptyString => new
  | String c s' =>
    match skip with
    | S skip' => String c (insertAtRunes new s' skip')
    | O => new +:+ String c (insertAtRunes new s' (Utf8.runeWidth s - 1))
    end
  end.

(** [strings.ReplaceAll(s, old, new)] *)
Definition ReplaceAll (s old new : string) : string :=
  if bool_decide (old = new) then s
  else if bool_decide (old = "") then insertAtRunes new s 0
  else replaceFrom old new s 0.

(** [strings.Count(s, old)] for a non-empty [old] *)
Fixpoint countFrom (old s : string) (skip : nat) : nat :=
  match s with
  | EmptyString => 0%nat
  | String c s' =>
    match skip with
    | S skip' => countFrom old s' skip'
    | O =>
      if String.prefix old s
      then S (countFrom old s' (String.length old - 1))
      else countFrom old s' 0
    end
  end.

Definition Count (s old : string) : nat := countFrom old s 0.

(** ** The pattern-level algorithms *)

(** The order in which [for pattern, replacement := range currentSubs] visits
    the entries of a map is not specified by Go: a run is determined only
    once that order is given. A [RangeOrder] gives the orders of one run;
    two runs, of the same algorithm or of two, have a [RangeOrder] each,
    and nothing relates the two. (Within a run Go may also visit two equal
    maps in different orders; no property below relies on the order chosen
    for another map.) *)
Record RangeOrder : Type := {
  rangeOver :> gmap string string → list (string * string);
  rangeOver_perm : ∀ m, rangeOver m ≡ₚ map_to_list m
}.

(** [result := word; for pattern, replacement := range currentSubs { result = strings.ReplaceAll(result, pattern, replacement) }] *)
Definition applyInOrder (word : string) (entries : list (string * string)) : string :=
  foldl (λ result e, ReplaceAll result e.1 e.2) word entries.

Section substituteAll.

Variable order : RangeOrder.
Variable subMap : gmap string (list string).
Variables minSubstitute maxSubstitute : Z.

(** [i+len(pattern) <= len(word) && word[i:i+len(pattern)] == pattern] *)
Definition matchesAt (word pattern : string) (i : Z) : bool :=
  bool_decide (i + len pattern ≤ len word) &&
  bool_decide (sub word i (i + len pattern) = pattern).

(** The loops that fill [uniquePatterns]. The inner loop ranges over the
    keys of [subMap]; it only adds to a set, so its order is immaterial. *)
Definition findUniquePatterns (word : string) : gset string :=
  foldl (λ uniquePatterns i,
           foldl (λ uniquePatterns pattern,
                    if matchesAt word pattern i
                    then {[ pattern ]} ∪ uniquePatterns else uniquePatterns)
                 uniquePatterns (elements (dom subMap)))
        ∅ (seqZ 0 (len word)).

(** [patterns], after [sort.Strings] (bytewise lexicographic order); see
    [sortedPatterns_any_order]. *)
Definition sortedPatterns (word : string) : list string :=
  merge_sort String.le (elements (findUniquePatterns word)).

Definition applySubs (word : string) (currentSubs : gmap string string) : string :=
  applyInOrder word (order currentSubs).

(** What a leaf of the recursion sends, if its count is within the bounds. *)
Definition emitLeaf (word : string) (currentSubs : gmap string string) : M unit :=
  let subCount := Z.of_nat (size currentSubs) in
  if bool_decide (subCount < minSubstitute) || bool_decide (subCount > maxSubstitute)
  then mret tt
  else send (applySubs word currentSubs) subCount.

(** The closure [generate] of [processWordSubstituteAll]. The argument
    [pos] is represented by [rest], the slice [patterns[pos:]]:
    [pos >= len(patterns)] when [rest] is empty, [patterns[pos]] is its
    head and [pos+1] its tail. *)
Fixpoint generatePatterns (word : string) (rest : list string)
    (currentSubs : gmap string string) : M unit :=
  match rest with
  | [] => emitLeaf word currentSubs
  | currentPattern :: rest' =>
    forEach (default [] (subMap !! currentPattern)) (λ sub,
      let newSubs := <[ currentPattern := sub ]> currentSubs in
      generatePatterns word rest' newSubs);;
    generatePatterns word rest' currentSubs
  end.

Definition processWordSubstituteAll (word : string) : M unit :=
  generatePatterns word (sortedPatterns word) ∅.

(** The loop that fills [allSubs]. *)
Definition firstSubs (patterns : list string) : gmap string string :=
  foldl (λ allSubs pattern,
           match subMap !! pattern with
           | Some (sub0 :: _) => <[ pattern := sub0 ]> allSubs
           | _ => allSubs
           end) ∅ patterns.

(** The closure [generateSubsets]; [rest] is [patterns[pos:]] as above, and
    the inner loop is [for i := pos; i < len(patterns); i++]. *)
Fixpoint generateSubsets (word : string) (rest : list string)
    (currentSubs : gmap string string) {struct rest} : M unit :=
  let currentCount := Z.of_nat (size currentSubs) in
  if bool_decide (currentCount < minSubstitute) then mret tt
  else
    (if bool_decide (currentCount ≤ maxSubstitute)
     then send (applySubs word currentSubs) currentCount else mret tt);;
    if bool_decide (currentCount ≤ minSubstitute) then mret tt
    else
      (fix loop (l : list string) : M unit :=
         match l with
         | [] => mret tt
         | pattern :: l' =>
           (if bool_decide (is_Some (currentSubs !! pattern))
            then generateSubsets word l' (delete pattern currentSubs)
            else mret tt);;
           loop l'
         end) rest.

Definition processWordSubstituteAllReverse (word : string) : M unit :=
  let patterns := sortedPatterns word in
  let totalPossible := Z.of_nat (length patterns) in
  if bool_decide (totalPossible < minSubstitute) then mret tt
  else generateSubsets word patterns (firstSubs patterns).

End substituteAll.

(** A run in which every [range] visits the entries in the order of
    [map_to_list]. *)
Definition listOrder : RangeOrder :=
  {| rangeOver := map_to_list; rangeOver_perm := λ m, reflexivity _ |}.

(** A run in which every [range] visits them in the opposite order. *)
Definition reverseOrder : RangeOrder :=
  {| rangeOver := λ m, reverse (map_to_list m);
     rangeOver_perm := λ m, reverse_Permutation _ |}.

(** ** Reading the substitution table *)

(** [hex.DecodeString]: [None] stands for its error (a byte that is not a
    hexadecimal digit, or an odd length). *)
Definition fromHexChar (c : ascii) : option N :=
  let n := N_of_ascii c in
  if bool_decide (48 ≤ n ≤ 57)%N then Some (n - 48)%N
  else if bool_decide (97 ≤ n ≤ 102)%N then Some (n - 97 + 10)%N
  else if bool_decide (65 ≤ n ≤ 70)%N then Some (n - 65 + 10)%N
  else None.

Fixpoint DecodeString (s : string) : option string :=
  match s with
  | EmptyString => Some EmptyString
  | String _ EmptyString => None
  | String p (String q rest) =>
    a ← fromHexChar p;
    b ← fromHexChar q;
    decoded ← DecodeString rest;
    Some (String (ascii_of_N (a * 16 + b)) decoded)
  end.

(** [decodeHexNotation]: [None] stands for the error it returns. *)
Definition decodeHexNotation (value : string) : option string :=
  if bool_decide (len value < 7) || negb (HasPrefix value "$HEX[")
     || negb (HasSuffix value "]")
  then Some value
  else
    let hexStr := sub value 5 (len value - 1) in
    let hexStr := ReplaceAll hexStr " " "" in
    DecodeString hexStr.

(** [strings.SplitN(line, "=", 2)] splits at the first separator only. *)
Fixpoint cutAtSeparator (s : string) : option (string * string) :=
  match s with
  | EmptyString => None
  | String c s' =>
    if bool_decide (c = "="%char) then Some (EmptyString, s')
    else '(before, after) ← cutAtSeparator s'; Some (String c before, after)
  end.

Definition SplitN2 (line : string) : list string :=
  match cutAtSeparator line with
  | Some (before, after) => [before; after]
  | None => [line]
  end.

(** The two calls of [log.Printf]. *)
Inductive warning : Type :=
  | KeyWarning (line : string)      (* "Error decoding hex notation in key" *)
  | ValueWarning (line : string).   (* "Error decoding hex notation in value" *)

(** One iteration of the loop of [readSubstitutionTable]; [line] is the value
    of the variable [line], that is the text of the line after
    [strings.TrimSpace]. The state is the map [substitutions] and the log. *)
Definition readLine (st : gmap string (list string) * list warning) (line : string)
    : gmap string (list string) * list warning :=
  let '(substitutions, log) := st in
  if bool_decide (line = "") || HasPrefix line "#" then st
  else
    match SplitN2 line with
    | [keyPart; valuePart] =>
      match decodeHexNotation keyPart with
      | None => (substitutions, log ++ [KeyWarning line])
      | Some decodedKey =>
        match decodeHexNotation valuePart with
        | None => (substitutions, log ++ [ValueWarning line])
        | Some decodedValue =>
          (<[ decodedKey := default [] (substitutions !! decodedKey) ++ [decodedValue] ]>
             substitutions, log)
        end
      end
    | _ => st
    end.

(** The loop [for scanner.Scan() { ... }], over the values the variable
    [line] takes: the map [substitutions] and the log it leaves. *)
Definition readLines (lines : list string)
    : gmap string (list string) * list warning :=
  foldl readLine (∅, []) lines.

(** *** [strings.TrimSpace] *)

Definition bytes (l : list N) : string :=
  String.string_of_list_ascii (ascii_of_N <$> l).

(** The UTF-8 encodings of the runes of which [unicode.IsSpace] holds: the
    six ASCII ones (tab, line feed, vertical tab, form feed, carriage return,
    space), U+0085, U+00A0, U+1680, U+2000 to U+200A, U+2028, U+2029, U+202F,
    U+205F and U+3000. *)
Definition spaceEncodings : list string :=
  bytes <$> [ [9]; [10]; [11]; [12]; [13]; [32];
              [0xC2; 0x85]; [0xC2; 0xA0]; [0xE1; 0x9A; 0x80];
              [0xE2; 0x80; 0x80]; [0xE2; 0x80; 0x81]; [0xE2; 0x80; 0x82];
              [0xE2; 0x80; 0x83]; [0xE2; 0x80; 0x84]; [0xE2; 0x80; 0x85];
              [0xE2; 0x80; 0x86]; [0xE2; 0x80; 0x87]; [0xE2; 0x80; 0x88];
              [0xE2; 0x80; 0x89]; [0xE2; 0x80; 0x8A];
              [0xE2; 0x80; 0xA8]; [0xE2; 0x80; 0xA9]; [0xE2; 0x80; 0xAF];
              [0xE2; 0x81; 0x9F]; [0xE3; 0x80; 0x80] ]%N.

(** [s[n:]] *)
Definition dropBytes (n : nat) (s : string) : string :=
  String.substring n (String.length s - n) s.

(** Drops from the front of [s], as long as there is one, a member of
    [encodings]; [fuel] bounds the number of members dropped. With the
    encodings of the spaces this is what [strings.TrimSpace] drops at the
    front: it decodes rune after rune and stops at the first that is not a
    space (a byte sequence that is not valid UTF-8 decodes to U+FFFD, which
    is not one). *)
Fixpoint dropLeading (encodings : list string) (fuel : nat) (s : string) : string :=
  match fuel with
  | O => s
  | S fuel' =>
    match List.find (λ encoding, String.prefix encoding s) encodings with
    | Some encoding => dropLeading encodings fuel' (dropBytes (String.length encoding) s)
    | None => s
    end
  end.

(** [strings.TrimSpace(s)]. At the end of the string it decodes the last
    rune, backwards: a space is dropped there exactly when the string ends
    with its encoding, which is how the reversed string is scanned here. *)
Definition TrimSpace (s : string) : string :=
  let s := dropLeading spaceEncodings (String.length s) s in
  String.rev (dropLeading (String.rev <$> spaceEncodings) (String.length s) (String.rev s)).

(** *** The scanner *)

(** [bufio.ScanLines] drops one carriage return from the end of a line. *)
Fixpoint dropCR (line : string) : string :=
  match line with
  | EmptyString => EmptyString
  | String c rest =>
    match rest with
    | EmptyString => if bool_decide (c = "013"%char) then EmptyString else line
    | String _ _ => String c (dropCR rest)
    end
  end.

(** [bufio.MaxScanTokenSize]: the size to which the buffer of a
    [bufio.Scanner] grows. *)
Definition MaxScanTokenSize : Z := 64 * 1024.

(** The errors [readSubstitutionTable] returns: that of [os.Open], and
    [bufio.ErrTooLong] of [scanner.Err()]. (Errors of the operating system
    while the file is read are left out: the file is read to its end.) *)
Inductive loadError : Type := ErrOpen | ErrTooLong.

(** The texts [scanner.Text()] delivers for a file given by its lines (the
    byte strings that the newline bytes separate), and [scanner.Err()]. A
    line, with its carriage return if it has one, that does not fit into the
    buffer together with its newline byte stops the scanner: no further line
    is delivered. (An empty last line is not delivered by the scanner; the
    loop of [readSubstitutionTable] passes over empty lines, so this makes no
    difference.) *)
Fixpoint scanLines (fileLines : list string) : list string * option loadError :=
  match fileLines with
  | [] => ([], None)
  | line :: rest =>
    if bool_decide (len line >= MaxScanTokenSize) then ([], Some ErrTooLong)
    else
      let '(texts, err) := scanLines rest in
      (dropCR line :: texts, err)
  end.

(** [readSubstitutionTable(path)], for the file that [path] names: [None] if
    it cannot be opened, its lines otherwise. The result is the map (the
    [nil] map is the empty one), the log, and the error returned. *)
Definition readSubstitutionTable (file : option (list string))
    : (gmap string (list string) * list warning) * option loadError :=
  match file with
  | None => ((∅, []), Some ErrOpen)
  | Some fileLines =>
    let '(texts, err) := scanLines fileLines in
    (readLines (TrimSpace <$> texts), err)
  end.

(** * Notions used by the properties *)

(** ** Emissions and outcomes *)

(** [emits P m]: every emission of [m] satisfies [P], however [m] ends. *)
Definition emits {A} (P : emission → Prop) (m : M A) : Prop :=
  Forall P (emitted m).

(** [returns m]: the call ends normally. *)
Definition returns {A} (m : M A) : Prop := ∃ a, result m = Done a.

Definition withinBounds (minSubstitute maxSubstitute : Z) (e : emission) : Prop :=
  minSubstitute ≤ subCount e ≤ maxSubstitute.

(** What a leaf of [processWordSubstituteAll] sends for a selection. *)
Definition sentFor (order : RangeOrder) (word : string)
    (currentSubs : gmap string string) (e : emission) : Prop :=
  subCount e = Z.of_nat (size currentSubs) ∧
  variant e = applyInOrder word (order currentSubs).

(** ** Combinations *)

(** The combinations are listed from the largest index down. *)
Definition descending (l : list Z) : Prop := StronglySorted Z.gt l.

(** ** The loops of the algorithms *)

(** The inner loop of [generateSubsets], from [patterns[i:]] on. *)
Definition removeEach (order : RangeOrder) (minSubstitute maxSubstitute : Z)
    (word : string) (currentSubs : gmap string string) : list string → M unit :=
  fix loop (l : list string) : M unit :=
    match l with
    | [] => mret tt
    | pattern :: l' =>
      (if bool_decide (is_Some (currentSubs !! pattern))
       then generateSubsets order minSubstitute maxSubstitute word l'
                            (delete pattern currentSubs)
       else mret tt);;
      loop l'
    end.

(** The composition the specification describes, following its words: every
    selected occurrence, taken from left to right, is replaced by the first
    replacement option at its position in the original word. [selected] is
    in ascending order of [start]; [cursor] is the end of the previous
    occurrence. *)
Fixpoint replaceSpans_spec (word : string) (cursor : Z) (selected : list position) : string :=
  match selected with
  | [] => sub word cursor (len word)
  | pos :: rest =>
    sub word cursor (start pos) +:+ hd "" (subs pos)
      +:+ replaceSpans_spec word (start pos + keyLength pos) rest
  end.

(** ** Lines of a table file *)

(** The number of [=] bytes of a line. *)
Fixpoint countSeparators (s : string) : nat :=
  match s with
  | EmptyString => 0%nat
  | String c s' => ((if bool_decide (c = "="%char) then 1 else 0) + countSeparators s')%nat
  end.

Definition isHexDigit (c : ascii) : Prop :=
  c ∈ String.list_ascii_of_string "0123456789abcdefABCDEF".

(** Pairs of hexadecimal digits. *)
Definition wellFormedHex (h : string) : Prop :=
  Nat.Even (String.length h) ∧ Forall isHexDigit (String.list_ascii_of_string h).

(** [$HEX[...]] notation: what [decodeHexNotation] does not return as it is. *)
Definition hexWrapped (value : string) : Prop :=
  7 ≤ len value ∧ HasPrefix value "$HEX[" = true ∧ HasSuffix value "]" = true.

(** The text between the brackets, without its spaces. *)
Definition hexDigitsOf (value : string) : string :=
  ReplaceAll (sub value 5 (len value - 1)) " " "".

Definition malformedHex (value : string) : Prop :=
  hexWrapped value ∧ ¬ wellFormedHex (hexDigitsOf value).

(** The lines of a file that the scanner delivers: those before the first
    line that is too long for its buffer. *)
Fixpoint linesRead (fileLines : list string) : list string :=
  match fileLines with
  | [] => []
  | line :: rest =>
    if bool_decide (len line >= MaxScanTokenSize) then [] else line :: linesRead rest
  end.

(** A comment line of 65536 bytes. *)
Definition longComment : string :=
  String.string_of_list_ascii (replicate (Z.to_nat MaxScanTokenSize) "#"%char).

(** ** Tables used as examples *)

(** The table [o=0]. *)
Definition leetO : gmap string (list string) := {[ "o" := ["0"] ]}.


(** The table [a=b], [b=c]: the replacement of [a] holds the pattern [b]. *)
Definition chained : gmap string (list string) := {[ "a" := ["b"]; "b" := ["c"] ]}.

(** The table [a=12], [b=34]: replacements longer than their keys. *)
Definition widening : gmap string (list string) := {[ "a" := ["12"]; "b" := ["34"] ]}.

(** A table that binds [a] to an empty list of replacements. *)
Definition noOptions : gmap string (list string) := {[ "a" := [] ]}.

(** The table [a=], [b=]: both keys are deleted. *)
Definition deleting : gmap string (list string) := {[ "a" := [""]; "b" := [""] ]}.

(** ** Occurrences and their intervals *)

(** The closed interval of bytes an occurrence covers, as
    [validSubstitutionPositions] computes it. *)
Definition intervalOf (pos : position) : Z * Z :=
  (start pos, start pos + keyLength pos - 1).

(** Two closed intervals share no byte. *)
Definition apart (a b : Z * Z) : Prop := a.2 < b.1 ∨ b.2 < a.1.

(** No two members of the list share a byte. *)
Fixpoint pairwiseApart (intervals : list (Z * Z)) : Prop :=
  match intervals with
  | [] => True
  | a :: rest => Forall (apart a) rest ∧ pairwiseApart rest
  end.

(** [pos] is an occurrence of a key of [subMap] in [word], with the
    replacement options of that key. *)
Definition occursIn (subMap : gmap string (list string)) (word : string)
    (pos : position) : Prop :=
  0 ≤ start pos ∧ 1 ≤ keyLength pos ∧ start pos + keyLength pos ≤ len word ∧
  subMap !! sub word (start pos) (start pos + keyLength pos) = Some (subs pos).

(** The order of [positions]: by start, then by length of the key. *)
Definition positionLt (p q : position) : Prop :=
  start p < start q ∨ (start p = start q ∧ keyLength p < keyLength q).

(** What one start offset contributes to [positions]. *)
Definition occurrencesAt (subMap : gmap string (list string)) (word : string)
    (i : Z) : list position :=
  seqZ 1 (len word - i) ≫= λ keyLength,
    match subMap !! sub word i (i + keyLength) with
    | Some subs => [Position i keyLength subs]
    | None => []
    end.

(** ** The tables of [main] *)

(** The order in which [for key, values := range tableMap] visits the entries
    of a table; Go does not specify it. *)
Record TableOrder : Type := {
  tableEntries :> gmap string (list string) → list (string * list string);
  tableEntries_perm : ∀ m, tableEntries m ≡ₚ map_to_list m
}.

(** [for key, values := range tableMap { substitutionMap[key] = append(substitutionMap[key], values...) }] *)
Definition mergeTable (substitutionMap : gmap string (list string))
    (entries : list (string * list string)) : gmap string (list string) :=
  foldl (λ substitutionMap e,
           <[ e.1 := default [] (substitutionMap !! e.1) ++ e.2 ]> substitutionMap)
        substitutionMap entries.

(** One turn of the loop of [main] over [cli.TableFiles]: the file is given
    by the lines it holds, or [None] when it cannot be opened, together with
    the order in which [range] visits the table read from it. The result
    [None] stands for the end of the program in [log.Fatal(err)]. *)
Definition loadTable (loaded : option (gmap string (list string)))
    (tableFile : TableOrder * option (list string))
    : option (gmap string (list string)) :=
  substitutionMap ← loaded;
  let '(tableMap, _, err) := readSubstitutionTable tableFile.2 in
  match err with
  | Some _ => None
  | None => Some (mergeTable substitutionMap (tableFile.1 tableMap))
  end.

(** [for _, tableFile := range cli.TableFiles { ... }] *)
Definition loadTables (tableFiles : list (TableOrder * option (list string)))
    : option (gmap string (list string)) :=
  foldl loadTable (Some ∅) tableFiles.

(** A run in which every table is visited in the order of [map_to_list]. *)
Definition listTableOrder : TableOrder :=
  {| tableEntries := map_to_list; tableEntries_perm := λ m, reflexivity _ |}.

(** ** [$HEX[...]] notation *)

(** The digit [hex.EncodeToString] writes for a value below 16. *)
Definition toHexChar (n : N) : ascii :=
  default "0"%char (String.get (N.to_nat n) "0123456789abcdef").

(** [hex.EncodeToString]: two lower-case digits for every byte. *)
Fixpoint EncodeToString (bytes : string) : string :=
  match bytes with
  | EmptyString => EmptyString
  | String c rest =>
    let n := N_of_ascii c in
    String (toHexChar (n / 16)) (String (toHexChar (n mod 16)) (EncodeToString rest))
  end.

(** The notation of a byte sequence: its digits between [$HEX[] and []]. *)
Definition hexNotation (bytes : string) : string :=
  "$HEX[" +:+ EncodeToString bytes +:+ "]".


(** The number of [k]-member subsets of an [n]-member set (Pascal's rule). *)
Fixpoint binomial (n k : nat) : nat :=
  match n, k with
  | _, O => 1
  | O, S _ => 0
  | S n', S k' => binomial n' k' + binomial n' (S k')
  end.

(** The lexicographic order, largest first, on index lists. *)
Fixpoint lexGt (l1 l2 : list Z) : Prop :=
  match l1, l2 with
  | x :: l1', y :: l2' => x > y ∨ (x = y ∧ lexGt l1' l2')
  | _, _ => False
  end.

(** Every key of the table has a first replacement option, and that option
    is as long as the key. *)
Definition firstOptionKeepsLength (subMap : gmap string (list string)) : Prop :=
  ∀ key subs, subMap !! key = Some subs →
    ∃ sub0 others, subs = sub0 :: others ∧ len sub0 = len key.

(** ** Edits of a word *)

(** The replacement of the [editLength] bytes at [editStart] by [editText]. *)
Record edit : Type := Edit { editStart : Z; editLength : Z; editText : string }.

(** The edits lie in [word] from [cursor] on, from left to right and without
    overlap, and each replaces an occurrence of a key of [subMap] by one of
    the options of that key. *)
Fixpoint validEdits (subMap : gmap string (list string)) (word : string)
    (cursor : Z) (edits : list edit) : Prop :=
  match edits with
  | [] => True
  | ed :: rest =>
    cursor ≤ editStart ed ∧ 1 ≤ editLength ed ∧
    editStart ed + editLength ed ≤ len word ∧
    (∃ subs, subMap !! sub word (editStart ed) (editStart ed + editLength ed) = Some subs ∧
             editText ed ∈ subs) ∧
    validEdits subMap word (editStart ed + editLength ed) rest
  end.

(** [word] from [cursor] on, with the edits carried out. *)
Fixpoint applyEdits (word : string) (cursor : Z) (edits : list edit) : string :=
  match edits with
  | [] => sub word cursor (len word)
  | ed :: rest =>
    sub word cursor (editStart ed) +:+ editText ed
      +:+ applyEdits word (editStart ed + editLength ed) rest
  end.

(** ** The rune-level version of the forward algorithm *)

(** The first version of the program in [main.go] substitutes single runes.
    Its two conversions, [[]rune(word)] and [string(newWord)], are those of
    the Go language; the algorithm does not depend on what they compute. *)
Module RuneVersion.

(** [newWord[i] = x] on a copy of [l], panicking like Go when [i] is out of
    range. *)
Definition assign {A} (l : list A) (i : Z) (x : A) : M (list A) :=
  if bool_decide (0 ≤ i < Z.of_nat (length l)) then mret (<[Z.to_nat i := x]> l)
  else panic.

Section generation.

Variable runesOf : string → list Z.
Variable stringOf : list Z → string.
Variable subMap : gmap Z (list Z).
Variables minSubstitute maxSubstitute : Z.

(** The closure [generate]; [fuel] bounds the depth of the recursion. *)
Fixpoint generate (fuel : nat)
    (currentWord : list Z) (currentSubCount start : Z) : M unit :=
  match fuel with
  | O => outOfFuel
  | S fuel' =>
    forEach (seqZ start (Z.of_nat (length currentWord) - start)) (λ i,
      r ← index currentWord i;
      match subMap !! r with
      | Some subs =>
        forEach subs (λ sub,
          newWord ← assign currentWord i sub;
          let newSubCount := currentSubCount + 1 in
          if bool_decide (newSubCount > maxSubstitute) then mret tt
          else
            (if bool_decide (newSubCount > minSubstitute)
             then send (stringOf newWord) newSubCount else mret tt);;
            generate fuel' newWord newSubCount (i + 1))
      | None => mret tt
      end)
  end.

(** A recursive call scans from [i+1] a word of the same length: the depth
    is at most the number of runes (see [rune_generate_returns]). *)
Definition processWord (word : string) : M unit :=
  let runes := runesOf word in
  generate (S (length runes)) runes 0 0.

End generation.

End RuneVersion.

(** ** Choices of runes *)

(** The choices, pairs of an index and a rune, go from left to right from
    [cursor] on, and each puts in the place of a rune of [runes] one of the
    options the table has for it. *)
Fixpoint validChoices (subMap : gmap Z (list Z)) (runes : list Z)
    (cursor : Z) (choices : list (Z * Z)) : Prop :=
  match choices with
  | [] => True
  | choice :: rest =>
    cursor ≤ choice.1 ∧
    (∃ r subs, runes !! Z.to_nat choice.1 = Some r ∧ subMap !! r = Some subs ∧
               choice.2 ∈ subs) ∧
    validChoices subMap runes (choice.1 + 1) rest
  end.

(** [runes] with the choices carried out. *)
Definition applyChoices (runes : list Z) (choices : list (Z * Z)) : list Z :=
  foldl (λ word choice, <[Z.to_nat choice.1 := choice.2]> word) runes choices.

(** Every key of the table has a first replacement option, and that option
    is not shorter than the key. *)
Definition firstOptionNotShorter (subMap : gmap string (list string)) : Prop :=
  ∀ key subs, subMap !! key = Some subs →
    ∃ sub0 others, subs = sub0 :: others ∧ len key ≤ len sub0.

(** ** The instances of a pattern *)






(** * Properties *)

(** ** Reasoning about computations *)

Section computations.

Context {A B : Type}.

Lemma emitted_bind (m : M A) (f : A → M B) :
  emitted (m ≫= f) =
  emitted m ++ match result m with Done a => emitted (f a) | _ => [] end.
Proof.
  unfold mbind, M_bind, emitted, result.
  destruct m as [es [a| |]]; simpl; by rewrite ?app_nil_r.
Qed.

Lemma result_bind (m : M A) (f : A → M B) :
  result (m ≫= f) =
  match result m with
  | Done a => result (f a)
  | Panicked => Panicked
  | OutOfFuel => OutOfFuel
  end.
Proof. unfold mbind, M_bind, result. by destruct m as [es [a| |]]. Qed.

Lemma bind_done (m : M A) (f : A → M B) (a : A) :
  m = ([], Done a) → m ≫= f = f a.
Proof. intros ->. unfold mbind, M_bind. simpl. by destruct (f a). Qed.

End computations.

Section emits.

Context (P : emission → Prop).

Lemma emits_ret {A} (a : A) : emits P (mret a).
Proof. constructor. Qed.

Lemma emits_panic {A} : emits P (@panic A).
Proof. constructor. Qed.

Lemma emits_outOfFuel {A} : emits P (@outOfFuel A).
Proof. constructor. Qed.

Lemma emits_send w n : P (Emit w n) → emits P (send w n).
Proof. intros. by repeat constructor. Qed.

Lemma emits_slice s lo hi : emits P (slice s lo hi).
Proof. unfold slice. destruct (inRange s lo hi); constructor. Qed.

Lemma emits_index {A} (l : list A) i : emits P (index l i).
Proof.
  unfold index. case_bool_decide; [|constructor].
  destruct (l !! Z.to_nat i); constructor.
Qed.

Lemma emits_bind {A B} (m : M A) (f : A → M B) :
  emits P m → (∀ a, result m = Done a → emits P (f a)) → emits P (m ≫= f).
Proof.
  unfold emits. intros Hm Hf. rewrite emitted_bind. apply Forall_app.
  split; [done|]. destruct (result m) eqn:E; auto.
Qed.

Lemma emits_forEach {A} (l : list A) (body : A → M unit) :
  (∀ x, x ∈ l → emits P (body x)) → emits P (forEach l body).
Proof.
  induction l as [|x l IH]; intros H; simpl; [apply emits_ret|].
  apply emits_bind; [apply H; left|]. intros _ _. apply IH.
  intros y Hy. apply H. by right.
Qed.

Lemma emits_foldM {A S} (body : S → A → M S) (acc : S) (l : list A) :
  (∀ acc' x, x ∈ l → emits P (body acc' x)) → emits P (foldM body acc l).
Proof.
  revert acc. induction l as [|x l IH]; intros acc H; simpl; [apply emits_ret|].
  apply emits_bind; [apply H; left|]. intros acc' _. apply IH.
  intros acc'' y Hy. apply H. by right.
Qed.

End emits.

Lemma emits_nothing {A} (m : M A) : emits (λ _, False) m → emitted m = [].
Proof.
  unfold emits. destruct (emitted m) as [|e es]; [done|].
  intros H. inversion H as [|? ? []].
Qed.

(** An invariant of the local variables of a loop holds of what it returns. *)
Lemma foldM_result {A S} (I : S → Prop) (body : S → A → M S) (l : list A) :
  ∀ acc r,
    I acc →
    (∀ acc x acc', x ∈ l → I acc → result (body acc x) = Done acc' → I acc') →
    result (foldM body acc l) = Done r → I r.
Proof.
  induction l as [|x l IH]; intros acc r Hacc Hstep; simpl.
  - unfold result. simpl. by intros [= <-].
  - rewrite result_bind. destruct (result (body acc x)) as [acc'| |] eqn:E; [|done..].
    apply IH.
    + apply (Hstep acc x acc'); [left|done..].
    + intros acc0 y acc1 Hy. apply Hstep. by right.
Qed.

(** Applies the rule of [emits] that fits the head of the computation. *)
Ltac emits_step :=
  lazymatch goal with
  | |- emits _ (mret _) => apply emits_ret
  | |- emits _ panic => apply emits_panic
  | |- emits _ outOfFuel => apply emits_outOfFuel
  | |- emits _ (slice _ _ _) => apply emits_slice
  | |- emits _ (index _ _) => apply emits_index
  | |- emits _ (forEach _ _) => apply emits_forEach; intros ? ?
  | |- emits _ (foldM _ _ _) => apply emits_foldM; intros ? ? ?
  | |- emits _ (_ ≫= _) => apply emits_bind; [|intros ? ?]
  | |- emits _ (if bool_decide _ then _ else _) => case_bool_decide
  | |- emits _ (match ?x with _ => _ end) => destruct x eqn:?
  end.

(** ** The substitution count of every emission is within the bounds *)

Lemma generate_bounds subMap maxSubstitute fuel minSub currentWord currentSubCount start :
  emits (withinBounds minSub maxSubstitute)
        (generate subMap maxSubstitute fuel minSub currentWord currentSubCount start).
Proof.
  revert currentWord currentSubCount start.
  induction fuel as [|fuel IH]; intros; simpl; [apply emits_outOfFuel|].
  repeat emits_step; try apply IH.
  apply emits_send. unfold withinBounds; simpl. lia.
Qed.

Lemma processWord_bounds subMap minSubstitute maxSubstitute word :
  emits (withinBounds minSubstitute maxSubstitute)
        (processWord subMap minSubstitute maxSubstitute word).
Proof.
  unfold processWord.
  eapply Forall_impl; [apply generate_bounds|].
  intros e. unfold withinBounds. case_bool_decide; lia.
Qed.

(** ** The combination enumerator *)

(** [generateCombinations] sends nothing. *)
Lemma generateCombinations_silent fuel n k :
  emitted (generateCombinations fuel n k) = [].
Proof.
  apply emits_nothing. revert n k.
  induction fuel as [|fuel IH]; intros; cbn [generateCombinations];
    [apply emits_outOfFuel|].
  repeat emits_step; apply IH.
Qed.

(** Every combination it returns has [k] members, whatever the fuel. *)
Lemma generateCombinations_length_from fuel :
  ∀ n k combos,
    minInt64 < n ∨ k < minInt64 →
    result (generateCombinations fuel n k) = Done combos →
    ∀ combo, combo ∈ combos → Z.of_nat (length combo) = k.
Proof.
  induction fuel as [|fuel IH]; intros n k combos Hn; cbn [generateCombinations];
    [done|].
  case_bool_decide as Hk.
  { intros [= <-] combo ->%list_elem_of_singleton. by subst. }
  case_bool_decide as Hlt.
  { intros [= <-] combo ?%elem_of_nil. done. }
  case_bool_decide as Hk1; [done|].
  case_bool_decide as Hk2.
  { rewrite bool_decide_false by lia. intros [= <-] combo ?%elem_of_nil. done. }
  apply (foldM_result (λ acc, ∀ combo, combo ∈ acc → Z.of_nat (length combo) = k)).
  - intros combo ?%elem_of_nil. done.
  - intros acc i acc' [? ?]%elem_of_reverse%elem_of_seqZ Hacc. rewrite result_bind.
    destruct (result (generateCombinations fuel i (k - 1))) as [subCombos| |] eqn:E;
      [|done..].
    intros [= <-] combo [?|Hin]%elem_of_app; [by apply Hacc|].
    apply list_elem_of_fmap in Hin as (sub & -> & Hsub).
    assert (Hi : minInt64 < i ∨ k - 1 < minInt64) by lia.
    apply (IH _ _ _ Hi E) in Hsub. simpl. lia.
Qed.

Lemma generateCombinations_length fuel n k combos :
  result (generateCombinations fuel n k) = Done combos →
  0 ≤ n →
  ∀ combo, combo ∈ combos → Z.of_nat (length combo) = k.
Proof.
  intros Hcombos Hn. revert Hcombos. apply generateCombinations_length_from.
  left. unfold minInt64. lia.
Qed.

(** A loop that appends to [result] what each iteration computes. *)
Lemma foldM_collect {A B C} (g : A → M B) (h : A → B → list C) (c : A → B) (l : list A) :
  ∀ acc,
    (∀ i, i ∈ l → g i = ([], Done (c i))) →
    foldM (λ result i, sub ← g i; mret (result ++ h i sub)) acc l
    = ([], Done (acc ++ (l ≫= λ i, h i (c i)))).
Proof.
  induction l as [|i l IH]; intros acc Hg; simpl.
  - by rewrite app_nil_r.
  - rewrite (bind_done (g i ≫= _) _ (acc ++ h i (c i))).
    + rewrite IH; [|intros; apply Hg; by right].
      by rewrite <-(assoc_L (++)).
    + rewrite (bind_done (g i) _ (c i)); [done|]. apply Hg. left.
Qed.

Lemma descending_head_bound (l : list Z) :
  descending l → Forall (λ x, 0 ≤ x) l →
  ∀ x l', l = x :: l' → Z.of_nat (length l') ≤ x.
Proof.
  induction 1 as [|y l Hl IH Hy]; intros Hpos x l' [= <- <-].
  apply Forall_cons in Hpos as [Hx Hpos].
  destruct l as [|z l'']; [simpl; lia|].
  specialize (IH Hpos z l'' eq_refl).
  apply Forall_cons in Hy as [Hy _]. simpl length in *. lia.
Qed.

Lemma descending_NoDup (l : list Z) : descending l → NoDup l.
Proof.
  induction 1 as [|x l Hl IH Hx]; constructor; [|done].
  intros Hin. rewrite Forall_forall in Hx. specialize (Hx x Hin). lia.
Qed.

Lemma generateCombinations_unfold fuel n k :
  k ≠ minInt64 + 1 → k ≠ minInt64 →
  generateCombinations (S fuel) n k =
  if bool_decide (k = 0) then mret [[]]
  else if bool_decide (n < k) then mret []
  else
    foldM (λ result i,
             subCombos ← generateCombinations fuel i (k - 1);
             mret (result ++ ((λ sub, i :: sub) <$> subCombos)))
          [] (reverse (seqZ (k - 1) (n - 1 - (k - 1) + 1))).
Proof.
  intros Hk1 Hk2. cbn [generateCombinations].
  by rewrite (bool_decide_false (k = minInt64 + 1)), (bool_decide_false (k = minInt64))
    by done.
Qed.

(** The combinations returned by [generateCombinations(n, k)], as lists. *)
Lemma generateCombinations_lists (k : nat) :
  ∀ fuel n, (k < fuel)%nat →
    ∃ combos,
      generateCombinations fuel n (Z.of_nat k) = ([], Done combos) ∧
      NoDup combos ∧
      ∀ l, l ∈ combos ↔
           descending l ∧ length l = k ∧ Forall (λ x, 0 ≤ x < n) l.
Proof.
  induction k as [|k IH]; intros [|fuel] n Hfuel; try lia;
    rewrite generateCombinations_unfold by (unfold minInt64; lia).
  - exists [[]]. split; [done|]. split; [apply NoDup_singleton|].
    intros l. rewrite list_elem_of_singleton. split.
    + intros ->. repeat constructor.
    + intros (_ & Hlen & _). by destruct l.
  - case_bool_decide; [lia|]. case_bool_decide as Hn.
    + exists []. split; [done|]. split; [constructor|].
      intros l. split; [by intros ?%elem_of_nil|].
      intros (Hdesc & Hlen & Hrange). destruct l as [|x l']; [done|].
      assert (Z.of_nat (length l') ≤ x).
      { eapply descending_head_bound; [done| |done].
        eapply Forall_impl; [done|]. simpl. lia. }
      apply Forall_cons in Hrange as [? _]. simpl in Hlen. lia.
    + replace (Z.of_nat (S k) - 1) with (Z.of_nat k) by lia.
      set (c := λ i, match result (generateCombinations fuel i (Z.of_nat k)) with
                     | Done combos => combos | _ => [] end).
      assert (Hc : ∀ i, generateCombinations fuel i (Z.of_nat k) = ([], Done (c i)) ∧
                        NoDup (c i) ∧
                        ∀ l, l ∈ c i ↔ descending l ∧ length l = k ∧ Forall (λ x, 0 ≤ x < i) l).
      { intros i. destruct (IH fuel i) as (combos & E & ?); [lia|].
        unfold c. rewrite E. done. }
      rewrite (foldM_collect _ (λ i subCombos, (λ sub, i :: sub) <$> subCombos) c);
        [|intros; apply Hc].
      eexists. split; [done|]. simpl. split.
      * apply NoDup_bind.
        -- intros x1 x2 y _ _ (?&->&_)%list_elem_of_fmap (?&[= -> _]&_)%list_elem_of_fmap.
           done.
        -- intros i _. apply NoDup_fmap_2; [|apply Hc]. by intros ?? [=].
        -- rewrite reverse_Permutation. apply NoDup_seqZ.
      * intros l. rewrite list_elem_of_bind. split.
        -- intros (i & (sub & -> & Hsub)%list_elem_of_fmap & Hi).
           apply elem_of_reverse, elem_of_seqZ in Hi.
           apply Hc in Hsub as (Hdesc & Hlen & Hrange).
           split; [|split].
           ++ constructor; [done|]. eapply Forall_impl; [done|]. simpl. lia.
           ++ simpl. by rewrite Hlen.
           ++ constructor; [lia|]. eapply Forall_impl; [done|]. simpl. lia.
        -- intros (Hdesc & Hlen & Hrange). destruct l as [|i sub]; [done|].
           assert (Z.of_nat (length sub) ≤ i).
           { eapply descending_head_bound; [done| |done].
             eapply Forall_impl; [done|]. simpl. lia. }
           apply Forall_cons in Hrange as [Hi Hrange].
           inversion Hdesc as [|?? Hsub Hlt]; subst. simpl in Hlen.
           exists i. split.
           ++ apply list_elem_of_fmap. exists sub. split; [done|]. apply Hc.
              split; [done|]. split; [lia|].
              rewrite Forall_forall in Hrange, Hlt. apply Forall_forall.
              intros x Hx. specialize (Hrange x Hx). specialize (Hlt x Hx). lia.
           ++ apply elem_of_reverse, elem_of_seqZ. lia.
Qed.

(** A descending list is determined by the set of its members. *)
Lemma descending_set_inj (l1 l2 : list Z) :
  descending l1 → descending l2 →
  list_to_set (C:=gset Z) l1 = list_to_set l2 → l1 = l2.
Proof.
  intros H1 H2 Hset.
  apply (StronglySorted_unique_strong Z.gt); [intros; lia|done..|].
  apply NoDup_Permutation; [by apply descending_NoDup..|].
  intros x. by rewrite <-!(elem_of_list_to_set (C:=gset Z)), Hset.
Qed.

(** Every set of indices below [m] has a descending listing. *)
Lemma descending_listing (m : nat) :
  ∀ X : gset Z, (∀ x, x ∈ X → 0 ≤ x < Z.of_nat m) →
    ∃ l, descending l ∧ list_to_set l = X ∧ Forall (λ x, 0 ≤ x < Z.of_nat m) l.
Proof.
  induction m as [|m IH]; intros X HX.
  - exists []. split; [constructor|]. split; [|constructor].
    apply set_eq. intros x. split; [set_solver|]. intros ?%HX. lia.
  - destruct (IH (X ∖ {[ Z.of_nat m ]})) as (l & Hdesc & Hset & Hrange).
    { intros x [Hx Hne]%elem_of_difference. apply HX in Hx.
      rewrite elem_of_singleton in Hne. lia. }
    destruct (decide (Z.of_nat m ∈ X)) as [Hin|Hout].
    + exists (Z.of_nat m :: l). split; [|split].
      * constructor; [done|]. eapply Forall_impl; [done|]. simpl. lia.
      * simpl. rewrite Hset. apply set_eq. intros x.
        rewrite elem_of_union, elem_of_difference, elem_of_singleton.
        destruct (decide (x = Z.of_nat m)); naive_solver.
      * constructor; [lia|]. eapply Forall_impl; [done|]. simpl. lia.
    + exists l. split; [done|]. split.
      * rewrite Hset. apply set_eq. intros x.
        rewrite elem_of_difference, elem_of_singleton. naive_solver.
      * eapply Forall_impl; [done|]. simpl. lia.
Qed.

(** C5. For [n >= 0] and [k >= 0], [generateCombinations(n, k)] returns (its
    recursion is [k] deep): the list holding only the empty subset when
    [k = 0]; nothing when [k > n]; in every case lists of [k] distinct indices
    that denote exactly the subsets of [{0..n-1}] with [k] members, no subset
    twice. [generateCombinations(4, 2)] returns six 2-element subsets. *)
Theorem generateCombinations_correct (n k : Z) (fuel : nat) :
  0 ≤ n → 0 ≤ k → (Z.to_nat k < fuel)%nat →
  ∃ combos : list (list Z),
    generateCombinations fuel n k = ([], Done combos) ∧
    (k = 0 → combos = [[]]) ∧
    (n < k → combos = []) ∧
    (∀ combo, combo ∈ combos → NoDup combo ∧ Z.of_nat (length combo) = k) ∧
    NoDup (list_to_set (C:=gset Z) <$> combos) ∧
    (∀ X : gset Z,
        (∃ combo, combo ∈ combos ∧ list_to_set combo = X) ↔
        (Z.of_nat (size X) = k ∧ ∀ x, x ∈ X → 0 ≤ x < n)) ∧
    generateCombinations 3 4 2
    = ([], Done [[3; 2]; [3; 1]; [3; 0]; [2; 1]; [2; 0]; [1; 0]]).
Proof.
  intros Hn Hk Hfuel.
  destruct (generateCombinations_lists (Z.to_nat k) fuel n Hfuel)
    as (combos & E & Hnodup & Hmem).
  rewrite Z2Nat.id in E by done.
  exists combos. split; [done|].
  assert (Hlists : ∀ l, l ∈ combos ↔
            descending l ∧ Z.of_nat (length l) = k ∧ Forall (λ x, 0 ≤ x < n) l).
  { intros l. rewrite Hmem. intuition lia. }
  clear Hmem. split_and!.
  - intros ->. destruct fuel; [lia|]. by injection E as <-.
  - intros Hlt. destruct fuel; [lia|].
    rewrite generateCombinations_unfold in E by (unfold minInt64; lia).
    case_bool_decide; [lia|]. rewrite bool_decide_true in E by done.
    by injection E as <-.
  - intros combo (Hdesc & Hlen & _)%Hlists. split; [by apply descending_NoDup|done].
  - apply NoDup_fmap_2_strong; [|done].
    intros l1 l2 (? & _)%Hlists (? & _)%Hlists. by apply descending_set_inj.
  - intros X. split.
    + intros (combo & (Hdesc & Hlen & Hrange)%Hlists & <-). split.
      * rewrite size_list_to_set; [done|by apply descending_NoDup].
      * intros x ?%elem_of_list_to_set. rewrite Forall_forall in Hrange. auto.
    + intros [Hsize HX].
      destruct (descending_listing (Z.to_nat n) X) as (l & Hdesc & Hset & Hrange).
      { intros x ?%HX. lia. }
      exists l. split; [|done]. apply Hlists. split; [done|]. split.
      * rewrite <-Hsize, <-Hset, size_list_to_set; [done|by apply descending_NoDup].
      * eapply Forall_impl; [done|]. simpl. lia.
  - done.
Qed.

Lemma generateCombinations_correct_witness :
  0 ≤ 4 ∧ 0 ≤ 2 ∧ (Z.to_nat 2 < 3)%nat ∧
  ∃ combos : list (list Z),
    generateCombinations 3 4 2 = ([], Done combos) ∧
    (2 = 0 → combos = [[]]) ∧
    (4 < 2 → combos = []) ∧
    (∀ combo, combo ∈ combos → NoDup combo ∧ Z.of_nat (length combo) = 2) ∧
    NoDup (list_to_set (C:=gset Z) <$> combos) ∧
    (∀ X : gset Z,
        (∃ combo, combo ∈ combos ∧ list_to_set combo = X) ↔
        (Z.of_nat (size X) = 2 ∧ ∀ x, x ∈ X → 0 ≤ x < 4)) ∧
    generateCombinations 3 4 2
    = ([], Done [[3; 2]; [3; 1]; [3; 0]; [2; 1]; [2; 0]; [1; 0]]).
Proof.
  split; [lia|]. split; [lia|]. split; [simpl; lia|].
  apply (generateCombinations_correct 4 2 3); [lia|lia|simpl; lia].
Defined.

(** ** Bounds: the reverse occurrence algorithm *)

Lemma findPositions_silent subMap word P : emits P (findPositions subMap word).
Proof. unfold findPositions. repeat emits_step. Qed.

Lemma validSubstitutionPositions_silent combo positions P :
  emits P (validSubstitutionPositions combo positions).
Proof. unfold validSubstitutionPositions. repeat emits_step. Qed.

Lemma applyAt_silent positions st idx P : emits P (applyAt positions st idx).
Proof. unfold applyAt. destruct st. repeat emits_step. Qed.

Lemma generateCombinations_emits fuel n k P :
  emits P (generateCombinations fuel n k).
Proof. unfold emits. rewrite generateCombinations_silent. constructor. Qed.

Lemma processWordReverseFrom_bounds minSubstitute maxSubstitute fuel word positions :
  emits (withinBounds minSubstitute maxSubstitute)
        (processWordReverseFrom minSubstitute maxSubstitute fuel word positions).
Proof.
  unfold processWordReverseFrom. case_bool_decide as Htotal; [apply emits_ret|].
  apply emits_forEach. intros subCount [Hlo Hhi]%elem_of_reverse%elem_of_seqZ.
  apply emits_bind; [apply generateCombinations_emits|]. intros combinations Hcombos.
  apply emits_forEach. intros combo Hcombo.
  apply (generateCombinations_length _ _ _ _ Hcombos) in Hcombo; [|lia].
  apply emits_bind; [apply validSubstitutionPositions_silent|]. intros valid _.
  destruct valid; simpl; [|apply emits_ret].
  apply emits_bind; [apply emits_foldM; intros; apply applyAt_silent|]. intros st _.
  apply emits_send. unfold withinBounds; simpl. case_bool_decide; lia.
Qed.

Lemma processWordReverse_bounds subMap minSubstitute maxSubstitute word :
  emits (withinBounds minSubstitute maxSubstitute)
        (processWordReverse subMap minSubstitute maxSubstitute word).
Proof.
  unfold processWordReverse.
  apply emits_bind; [apply findPositions_silent|]. intros positions _.
  by apply processWordReverseFrom_bounds.
Qed.

(** ** Bounds: the pattern-level algorithms *)

Lemma generateSubsets_unfold order minSubstitute maxSubstitute word rest currentSubs :
  generateSubsets order minSubstitute maxSubstitute word rest currentSubs =
  let currentCount := Z.of_nat (size currentSubs) in
  if bool_decide (currentCount < minSubstitute) then mret tt
  else
    (if bool_decide (currentCount ≤ maxSubstitute)
     then send (applySubs order word currentSubs) currentCount else mret tt);;
    if bool_decide (currentCount ≤ minSubstitute) then mret tt
    else removeEach order minSubstitute maxSubstitute word currentSubs rest.
Proof. by destruct rest. Qed.

Section substituteAll_bounds.

Variable order : RangeOrder.
Variable subMap : gmap string (list string).
Variables minSubstitute maxSubstitute : Z.
Variable word : string.

Lemma emitLeaf_bounds currentSubs :
  emits (withinBounds minSubstitute maxSubstitute)
      (emitLeaf order minSubstitute maxSubstitute word currentSubs).
Proof.
  unfold emitLeaf. repeat case_bool_decide; simpl; try apply emits_ret.
  apply emits_send. unfold withinBounds. simpl. lia.
Qed.

Lemma generatePatterns_bounds rest :
  ∀ currentSubs,
    emits (withinBounds minSubstitute maxSubstitute)
        (generatePatterns order subMap minSubstitute maxSubstitute word rest currentSubs).
Proof.
  induction rest as [|currentPattern rest IH]; intros; simpl.
  - apply emitLeaf_bounds.
  - repeat emits_step; apply IH.
Qed.

Lemma generateSubsets_bounds rest :
  (∀ currentSubs,
      emits (withinBounds minSubstitute maxSubstitute)
          (generateSubsets order minSubstitute maxSubstitute word rest currentSubs)) ∧
  (∀ currentSubs,
      emits (withinBounds minSubstitute maxSubstitute)
          (removeEach order minSubstitute maxSubstitute word currentSubs rest)).
Proof.
  assert (Hbody : ∀ rest,
    (∀ currentSubs, emits (withinBounds minSubstitute maxSubstitute)
        (removeEach order minSubstitute maxSubstitute word currentSubs rest)) →
    ∀ currentSubs, emits (withinBounds minSubstitute maxSubstitute)
        (generateSubsets order minSubstitute maxSubstitute word rest currentSubs)).
  { intros l Hloop currentSubs. rewrite generateSubsets_unfold. simpl.
    repeat emits_step; try apply Hloop.
    apply emits_send. unfold withinBounds. simpl. lia. }
  induction rest as [|pattern rest [IHgen IHloop]].
  - assert (∀ currentSubs, emits (withinBounds minSubstitute maxSubstitute)
      (removeEach order minSubstitute maxSubstitute word currentSubs []))
      by (intros; apply emits_ret).
    auto.
  - assert (∀ currentSubs,
             emits (withinBounds minSubstitute maxSubstitute)
                 (removeEach order minSubstitute maxSubstitute word currentSubs (pattern :: rest))).
    { intros. simpl. repeat emits_step; auto. }
    auto.
Qed.

End substituteAll_bounds.

(** ** The forward occurrence algorithm on [foo] *)

(** C2. With the table [o=0], the word [foo], [min = 1] and [max = 2],
    [processWord] returns after emitting [f0o], [f00] and [fo0], in this
    order: the three variants [f0o], [fo0], [f00], each once and nothing
    else. *)
Theorem processWord_foo :
  processWord leetO 1 2 "foo"
  = ([Emit "f0o" 1; Emit "f00" 2; Emit "fo0" 1], Done tt) ∧
  output (processWord leetO 1 2 "foo") ≡ₚ ["f0o"; "fo0"; "f00"] ∧
  NoDup (output (processWord leetO 1 2 "foo")).
Proof.
  assert (E : processWord leetO 1 2 "foo"
              = ([Emit "f0o" 1; Emit "f00" 2; Emit "fo0" 1], Done tt))
    by (vm_compute; reflexivity).
  split; [done|]. rewrite E. unfold output, emitted. simpl. split.
  - apply Permutation_skip, Permutation_swap.
  - apply (bool_decide_unpack _). by vm_compute.
Qed.

(** ** The pattern-level forward algorithm *)

Lemma len_app (s1 s2 : string) : len (s1 +:+ s2) = len s1 + len s2.
Proof.
  unfold len. rewrite <-Nat2Z.inj_add. f_equal.
  induction s1 as [|c s1 IH]; simpl; [done|]. by rewrite IH.
Qed.

Lemma prefix_length (p s : string) :
  String.prefix p s = true → (String.length p ≤ String.length s)%nat.
Proof.
  revert s. induction p as [|c p IH]; intros [|d s]; simpl; try done; try lia.
  destruct (ascii_dec c d); [|done]. intros ?%IH. lia.
Qed.

(** [strings.ReplaceAll] replaces each of the [strings.Count] instances. *)
Lemma replaceFrom_length (old new : string) :
  old ≠ "" →
  ∀ s skip, (skip ≤ String.length s)%nat →
    len (replaceFrom old new s skip)
    = len s - Z.of_nat skip + Z.of_nat (countFrom old s skip) * (len new - len old).
Proof.
  intros Hold. assert (0 < len old).
  { unfold len. destruct old; [done|]. simpl. lia. }
  induction s as [|c s IH]; intros skip Hskip.
  - simpl in *. unfold len. simpl. lia.
  - destruct skip as [|skip].
    + cbn [replaceFrom countFrom].
      destruct (String.prefix old (String c s)) eqn:Hpre.
      * apply prefix_length in Hpre. simpl in Hpre.
        rewrite len_app, IH by lia. unfold len in *. simpl String.length. lia.
      * change (len (String c (replaceFrom old new s 0))) with
          (Z.of_nat (S (String.length (replaceFrom old new s 0)))).
        rewrite Nat2Z.inj_succ. fold (len (replaceFrom old new s 0)).
        rewrite IH by lia. unfold len. simpl String.length. lia.
    + cbn [replaceFrom countFrom]. simpl in Hskip.
      rewrite IH by lia. unfold len. simpl String.length. lia.
Qed.

Lemma ReplaceAll_length (s old new : string) :
  old ≠ "" →
  len (ReplaceAll s old new) = len s + Z.of_nat (Count s old) * (len new - len old).
Proof.
  intros Hold. unfold ReplaceAll, Count. case_bool_decide as Heq; [subst; lia|].
  rewrite bool_decide_false by done. rewrite replaceFrom_length by (done || lia). lia.
Qed.



(** [patterns] holds the keys of the table that occur in the word. *)
Lemma elem_of_findUniquePatterns subMap word pattern :
  pattern ∈ findUniquePatterns subMap word ↔
  is_Some (subMap !! pattern) ∧
  ∃ i, 0 ≤ i < len word ∧ matchesAt word pattern i = true.
Proof.
  unfold findUniquePatterns.
  set (keys := elements (dom subMap)).
  set (inner := λ (uniquePatterns : gset string) (i : Z),
         foldl (λ uniquePatterns pattern,
                  if matchesAt word pattern i
                  then {[ pattern ]} ∪ uniquePatterns else uniquePatterns)
               uniquePatterns keys).
  assert (Hinner : ∀ i acc, pattern ∈ inner acc i ↔
            pattern ∈ acc ∨ (pattern ∈ keys ∧ matchesAt word pattern i = true)).
  { intros i. unfold inner. induction keys as [|k keys IH]; intros acc; simpl.
    - set_solver.
    - rewrite IH, elem_of_cons. destruct (matchesAt word k i) eqn:E.
      + rewrite elem_of_union, elem_of_singleton. naive_solver.
      + naive_solver congruence. }
  assert (Houter : ∀ l acc, pattern ∈ foldl inner acc l ↔
            pattern ∈ acc ∨ (pattern ∈ keys ∧ ∃ i, i ∈ l ∧ matchesAt word pattern i = true)).
  { induction l as [|i l IH]; intros acc; simpl.
    - set_solver.
    - rewrite IH, Hinner. setoid_rewrite elem_of_cons. naive_solver. }
  rewrite Houter. unfold keys. rewrite elem_of_elements, elem_of_dom.
  setoid_rewrite elem_of_seqZ. set_solver by lia.
Qed.

Lemma elem_of_sortedPatterns subMap word pattern :
  pattern ∈ sortedPatterns subMap word ↔
  is_Some (subMap !! pattern) ∧
  ∃ i, 0 ≤ i < len word ∧ matchesAt word pattern i = true.
Proof.
  unfold sortedPatterns.
  by rewrite merge_sort_Permutation, elem_of_elements, elem_of_findUniquePatterns.
Qed.

(** [sort.Strings] erases the order in which the keys of [uniquePatterns]
    were visited: whatever listing of the set is sorted, [patterns] is the
    same. *)
Lemma sortedPatterns_any_order subMap word (visited : list string) :
  visited ≡ₚ elements (findUniquePatterns subMap word) →
  merge_sort String.le visited = sortedPatterns subMap word.
Proof.
  intros Hperm. unfold sortedPatterns.
  apply (Sorted_unique String.le); [apply Sorted_merge_sort; apply _..|].
  by rewrite !merge_sort_Permutation.
Qed.

Lemma generatePatterns_selection order subMap minSubstitute maxSubstitute word rest :
  ∀ currentSubs,
    emits (λ e, ∃ selected : gmap string string,
             sentFor order word selected e ∧
             ∀ pattern replacement, selected !! pattern = Some replacement →
               currentSubs !! pattern = Some replacement ∨
               (pattern ∈ rest ∧ ∃ subs, subMap !! pattern = Some subs ∧ replacement ∈ subs))
          (generatePatterns order subMap minSubstitute maxSubstitute word rest currentSubs).
Proof.
  induction rest as [|currentPattern rest IH]; intros currentSubs; simpl.
  - unfold emitLeaf. destruct (_ || _); [apply emits_ret|].
    apply emits_send. exists currentSubs. split; [done|]. auto.
  - apply emits_bind; [apply emits_forEach; intros sub Hsub|intros _ _].
    + eapply Forall_impl; [apply IH|]. simpl.
      intros e (selected & Hsent & Hsel). exists selected. split; [done|].
      intros pattern replacement [Hcur|[? ?]]%Hsel; [|right; split; [by right|done]].
      destruct (decide (currentPattern = pattern)) as [->|].
      * rewrite lookup_insert_eq in Hcur. injection Hcur as <-.
        right. split; [left|]. destruct (subMap !! pattern) as [subs|]; [|by inversion Hsub].
        eauto.
      * rewrite lookup_insert_ne in Hcur by done. by left.
    + eapply Forall_impl; [apply IH|]. simpl.
      intros e (selected & Hsent & Hsel). exists selected. split; [done|].
      intros pattern replacement [Hcur|[? ?]]%Hsel; [by left|].
      right. split; [by right|done].
Qed.

(** ** The forward occurrence algorithm with [min = 0] *)




(** ** The order of a [range] over [currentSubs] *)

(** C10. On the word [ab] with the table [a=b], [b=c] and [min = max = 2],
    two runs that differ only in the order in which [range] visits
    [currentSubs] emit different variants: [cc] when [a] is replaced first,
    [bc] when [b] is. *)
Theorem substituteAll_depends_on_range_order :
  applyInOrder "ab" [("a", "b"); ("b", "c")] = "cc" ∧
  applyInOrder "ab" [("b", "c"); ("a", "b")] = "bc" ∧
  output (processWordSubstituteAll listOrder chained 2 2 "ab") = ["cc"] ∧
  output (processWordSubstituteAll reverseOrder chained 2 2 "ab") = ["bc"] ∧
  output (processWordSubstituteAllReverse listOrder chained 2 2 "ab") = ["cc"] ∧
  output (processWordSubstituteAllReverse reverseOrder chained 2 2 "ab") = ["bc"].
Proof. by vm_compute. Qed.

(** ** The composition of the reverse occurrence algorithm *)

(** C4. On the word [ab] with the table [a=12], [b=34] and [min = max = 2]
    the only surviving combination selects both occurrences;
    [generateCombinations] lists its indices from the largest down, so the
    occurrence of [b] is replaced first and the offset it leaves is then added
    to the position of [a], which lies before it: [processWordReverse] emits
    [a124], where replacing both spans at their positions gives [1234]. *)
Theorem processWordReverse_misplaces_spans :
  findPositions widening "ab"
  = ([], Done [Position 0 1 ["12"]; Position 1 1 ["34"]]) ∧
  generateCombinations 3 2 2 = ([], Done [[1; 0]]) ∧
  processWordReverse widening 2 2 "ab" = ([Emit "a124" 2], Done tt) ∧
  replaceSpans_spec "ab" 0 [Position 0 1 ["12"]; Position 1 1 ["34"]] = "1234".
Proof. by vm_compute. Qed.

(** ** Termination without failure *)

Lemma returns_ret {A} (a : A) : returns (mret a).
Proof. by exists a. Qed.

Lemma returns_send w n : returns (send w n).
Proof. by exists tt. Qed.

Lemma returns_bind {A B} (m : M A) (f : A → M B) :
  returns m → (∀ a, result m = Done a → returns (f a)) → returns (m ≫= f).
Proof.
  intros [a Ha] Hf. unfold returns. rewrite result_bind, Ha. by apply Hf.
Qed.

Lemma returns_forEach {A} (l : list A) (body : A → M unit) :
  (∀ x, x ∈ l → returns (body x)) → returns (forEach l body).
Proof.
  induction l as [|x l IH]; intros H; simpl; [apply returns_ret|].
  apply returns_bind; [apply H; left|]. intros _ _. apply IH.
  intros y Hy. apply H. by right.
Qed.

Lemma slice_inRange s lo hi :
  0 ≤ lo → lo ≤ hi → hi ≤ len s → slice s lo hi = mret (sub s lo hi).
Proof.
  intros. unfold slice, inRange. by rewrite bool_decide_true.
Qed.

Lemma substring_length (s : string) :
  ∀ n m, (n + m ≤ String.length s)%nat → String.length (String.substring n m s) = m.
Proof.
  induction s as [|c s IH]; intros [|n] [|m] H; simpl in *; try done; try lia.
  - by rewrite IH by lia.
  - by rewrite IH by lia.
  - by rewrite IH by lia.
Qed.

Lemma len_sub s lo hi : 0 ≤ lo → lo ≤ hi → hi ≤ len s → len (sub s lo hi) = hi - lo.
Proof.
  unfold len, sub. intros. rewrite substring_length; lia.
Qed.

(** [generate] returns: a recursive call scans a strictly shorter rest of the
    word, so the depth never exceeds the length of the word. *)
Lemma generate_returns subMap maxSubstitute fuel :
  ∀ minSub currentWord currentSubCount start,
    0 ≤ start ≤ len currentWord → len currentWord - start < Z.of_nat fuel →
    returns (generate subMap maxSubstitute fuel minSub currentWord currentSubCount start).
Proof.
  induction fuel as [|fuel IH]; intros minSub currentWord currentSubCount start Hstart Hfuel;
    [lia|].
  simpl. apply returns_forEach. intros i [Hi1 Hi2]%elem_of_seqZ.
  apply returns_forEach. intros keyLength [Hk1 Hk2]%elem_of_reverse%elem_of_seqZ.
  case_bool_decide; [apply returns_ret|].
  rewrite (slice_inRange currentWord i (i + keyLength)) by lia.
  apply returns_bind; [apply returns_ret|]. intros key _.
  destruct (subMap !! key) as [subs|]; [|apply returns_ret].
  apply returns_forEach. intros sub _.
  rewrite (slice_inRange currentWord 0 i),
    (slice_inRange currentWord (i + keyLength) (len currentWord)) by lia.
  apply returns_bind; [apply returns_ret|]. intros pre [= <-].
  apply returns_bind; [apply returns_ret|]. intros post [= <-].
  case_bool_decide; [apply returns_ret|].
  apply returns_bind; [case_bool_decide; [apply returns_send|apply returns_ret]|].
  intros _ _. apply IH.
  - rewrite !len_app, !len_sub by lia. unfold len in *. lia.
  - rewrite !len_app, !len_sub by lia. lia.
Qed.

Lemma processWord_returns subMap minSubstitute maxSubstitute word :
  result (processWord subMap minSubstitute maxSubstitute word) = Done tt.
Proof.
  destruct (generate_returns subMap maxSubstitute (S (String.length word))
              (if bool_decide (minSubstitute = 0) then minSubstitute + 1 else minSubstitute)
              word 0 0) as [[] H]; [unfold len; lia..|done].
Qed.

Lemma generatePatterns_returns order subMap minSubstitute maxSubstitute word rest :
  ∀ currentSubs,
    returns (generatePatterns order subMap minSubstitute maxSubstitute word rest currentSubs).
Proof.
  induction rest as [|currentPattern rest IH]; intros; simpl.
  - unfold emitLeaf. destruct (_ || _); [apply returns_ret|apply returns_send].
  - apply returns_bind; [apply returns_forEach|]; intros; apply IH.
Qed.

Lemma generateSubsets_returns order minSubstitute maxSubstitute word rest :
  (∀ currentSubs,
      returns (generateSubsets order minSubstitute maxSubstitute word rest currentSubs)) ∧
  (∀ currentSubs,
      returns (removeEach order minSubstitute maxSubstitute word currentSubs rest)).
Proof.
  assert (Hbody : ∀ rest,
    (∀ currentSubs, returns (removeEach order minSubstitute maxSubstitute word currentSubs rest)) →
    ∀ currentSubs, returns (generateSubsets order minSubstitute maxSubstitute word rest currentSubs)).
  { intros l Hloop currentSubs. rewrite generateSubsets_unfold. simpl.
    case_bool_decide; [apply returns_ret|].
    apply returns_bind; [case_bool_decide; [apply returns_send|apply returns_ret]|].
    intros _ _. case_bool_decide; [apply returns_ret|apply Hloop]. }
  induction rest as [|pattern rest [IHgen IHloop]].
  - assert (∀ currentSubs, returns (removeEach order minSubstitute maxSubstitute word currentSubs []))
      by (intros; apply returns_ret).
    auto.
  - assert (∀ currentSubs,
             returns (removeEach order minSubstitute maxSubstitute word currentSubs (pattern :: rest))).
    { intros. simpl. apply returns_bind; [|auto].
      case_bool_decide; [apply IHgen|apply returns_ret]. }
    auto.
Qed.

(** The three algorithms other than [processWordReverse] return for every
    word, table and bounds, whatever lists the table holds. *)
Lemma others_return (order : RangeOrder) (subMap : gmap string (list string))
    (minSubstitute maxSubstitute : Z) (word : string) :
  result (processWord subMap minSubstitute maxSubstitute word) = Done tt ∧
  result (processWordSubstituteAll order subMap minSubstitute maxSubstitute word) = Done tt ∧
  result (processWordSubstituteAllReverse order subMap minSubstitute maxSubstitute word) = Done tt.
Proof.
  split; [apply processWord_returns|]. split.
  - destruct (generatePatterns_returns order subMap minSubstitute maxSubstitute word
                (sortedPatterns subMap word) ∅) as [[] H]. done.
  - unfold processWordSubstituteAllReverse. simpl. case_bool_decide; [done|].
    destruct (generateSubsets_returns order minSubstitute maxSubstitute word
                (sortedPatterns subMap word)) as [Hgen _].
    destruct (Hgen (firstSubs subMap (sortedPatterns subMap word))) as [[] Hdone]. done.
Qed.

(** ** The fuel of the definitions is enough *)

Lemma forEach_ext {A} (l : list A) (body1 body2 : A → M unit) :
  (∀ x, x ∈ l → body1 x = body2 x) → forEach l body1 = forEach l body2.
Proof.
  induction l as [|x l IH]; intros H; simpl; [done|].
  rewrite (H x) by left. rewrite IH; [done|]. intros y Hy. apply H. by right.
Qed.

Lemma foldM_ext {A S} (l : list A) (body1 body2 : S → A → M S) :
  (∀ acc x, x ∈ l → body1 acc x = body2 acc x) →
  ∀ acc, foldM body1 acc l = foldM body2 acc l.
Proof.
  induction l as [|x l IH]; intros H acc; simpl; [done|].
  rewrite (H acc x) by left. unfold mbind, M_bind.
  destruct (body2 acc x) as [es [acc'| |]]; simpl; [|done..].
  rewrite IH; [done|]. intros acc'' y Hy. apply H. by right.
Qed.

(** Once the fuel exceeds [k], [generateCombinations(n, k)] does not depend
    on it. *)
Lemma generateCombinations_fuel (k : nat) :
  ∀ fuel1 fuel2 n, (k < fuel1)%nat → (k < fuel2)%nat →
    generateCombinations fuel1 n (Z.of_nat k) = generateCombinations fuel2 n (Z.of_nat k).
Proof.
  induction k as [|k IH]; intros [|fuel1] [|fuel2] n H1 H2; try lia;
    rewrite !generateCombinations_unfold by (unfold minInt64; lia); [done|].
  case_bool_decide; [done|]. case_bool_decide; [done|].
  replace (Z.of_nat (S k) - 1) with (Z.of_nat k) by lia.
  apply foldM_ext. intros acc i _. by rewrite (IH fuel1 fuel2) by lia.
Qed.

(** Once the fuel exceeds the length of the rest of the word, [generate] does
    not depend on it. *)
Lemma generate_fuel subMap maxSubstitute fuel1 :
  ∀ fuel2 minSub currentWord currentSubCount start,
    0 ≤ start ≤ len currentWord →
    len currentWord - start < Z.of_nat fuel1 →
    len currentWord - start < Z.of_nat fuel2 →
    generate subMap maxSubstitute fuel1 minSub currentWord currentSubCount start
    = generate subMap maxSubstitute fuel2 minSub currentWord currentSubCount start.
Proof.
  induction fuel1 as [|fuel1 IH];
    intros [|fuel2] minSub currentWord currentSubCount start Hstart H1 H2; try lia.
  simpl. apply forEach_ext. intros i [Hi1 Hi2]%elem_of_seqZ.
  apply forEach_ext. intros keyLength [Hk1 Hk2]%elem_of_reverse%elem_of_seqZ.
  case_bool_decide; [done|].
  rewrite (slice_inRange currentWord i (i + keyLength)) by lia.
  rewrite !(bind_done (mret (sub currentWord i (i + keyLength))) _ _ eq_refl).
  destruct (subMap !! _) as [subs|]; [|done].
  apply forEach_ext. intros replacement _.
  rewrite (slice_inRange currentWord 0 i),
    (slice_inRange currentWord (i + keyLength) (len currentWord)) by lia.
  rewrite !(bind_done (mret (sub currentWord 0 i)) _ _ eq_refl).
  rewrite !(bind_done (mret (sub currentWord (i + keyLength) (len currentWord))) _ _ eq_refl).
  case_bool_decide; [done|].
  rewrite (IH fuel2); [done|..]; rewrite !len_app, !len_sub by lia; unfold len in *; lia.
Qed.

(** ** Panics of the reverse occurrence algorithm *)

(** For a negative [k] other than [MinInt64] that is at most [n], the call
    [generateCombinations(n, k)] does not return: it recurses on [k-1],
    [k-2], ... down to [MinInt64 + 1], where the loop does not end (in Go
    the stack is exhausted before). No fuel is enough. *)
Lemma generateCombinations_negative fuel :
  ∀ n k, k < 0 → k ≠ minInt64 → k ≤ n →
    result (generateCombinations fuel n k) = OutOfFuel.
Proof.
  induction fuel as [|fuel IH]; intros n k Hk Hmin Hn; [done|].
  destruct (decide (k = minInt64 + 1)) as [->|Hk1].
  { cbn [generateCombinations].
    rewrite (bool_decide_false (minInt64 + 1 = 0)) by (unfold minInt64; lia).
    rewrite (bool_decide_false (n < minInt64 + 1)) by lia.
    by rewrite bool_decide_true. }
  rewrite generateCombinations_unfold by done.
  rewrite !bool_decide_false by lia.
  replace (n - 1 - (k - 1) + 1) with ((n - k) + 1) by lia.
  rewrite seqZ_app, reverse_app by lia.
  replace (seqZ (k - 1 + (n - k)) 1) with [n - 1]
    by (replace (k - 1 + (n - k)) with (n - 1) by lia; done).
  change (reverse [n - 1]) with [n - 1].
  cbn [app foldM]. rewrite !result_bind, IH by lia. done.
Qed.

(** At [k = MinInt64] the bound [k-1] wraps around to [MaxInt64]: for every
    [n] but [MinInt64] the loop does not run and the call returns [nil] at
    once. *)
Lemma generateCombinations_minInt64 fuel n :
  n ≠ minInt64 → generateCombinations (S fuel) n minInt64 = mret [].
Proof.
  intros Hn. cbn [generateCombinations].
  rewrite (bool_decide_false (minInt64 = 0)) by done.
  destruct (decide (n < minInt64)); [by rewrite bool_decide_true|].
  rewrite (bool_decide_false (n < minInt64)) by done.
  rewrite (bool_decide_false (minInt64 = minInt64 + 1)) by (unfold minInt64; lia).
  rewrite bool_decide_true by done. by rewrite bool_decide_false.
Qed.

(** C8. [processWord], [processWordSubstituteAll] and
    [processWordSubstituteAllReverse] return for every word, table and
    bounds. [processWordReverse] does not: it panics on the word [a] when the
    table binds [a] to an empty list ([pos.subs[0]] is out of range), where
    [processWordSubstituteAllReverse] skips such a key and returns; and it
    panics on the word [ab] with the table [a=], [b=], where the offset left
    by the first replacement makes [actualStart] negative. *)
Theorem processWordReverse_panics
    (order : RangeOrder) (subMap : gmap string (list string))
    (minSubstitute maxSubstitute : Z) (word : string) :
  result (processWord subMap minSubstitute maxSubstitute word) = Done tt ∧
  result (processWordSubstituteAll order subMap minSubstitute maxSubstitute word) = Done tt ∧
  result (processWordSubstituteAllReverse order subMap minSubstitute maxSubstitute word)
  = Done tt ∧
  processWordReverse noOptions 1 1 "a" = ([], Panicked) ∧
  processWordSubstituteAllReverse order noOptions 1 1 "a" = ([], Done tt) ∧
  processWordReverse deleting 2 2 "ab" = ([], Panicked).
Proof.
  destruct (others_return order subMap minSubstitute maxSubstitute word) as (? & ? & ?).
  split_and!; try done; by vm_compute.
Qed.

(** ** The empty table *)











(** ** Reading the table *)

Lemma fromHexChar_is_Some (c : ascii) : is_Some (fromHexChar c) ↔ isHexDigit c.
Proof.
  assert (H : bool_decide (is_Some (fromHexChar c)) = bool_decide (isHexDigit c)).
  { unfold isHexDigit. destruct c as [[] [] [] [] [] [] [] []]; by vm_compute. }
  split; intros Hc.
  - apply (bool_decide_unpack _). rewrite <-H. by apply bool_decide_pack.
  - apply (bool_decide_unpack _). rewrite H. by apply bool_decide_pack.
Qed.

Lemma DecodeString_is_Some (h : string) :
  (is_Some (DecodeString h) ↔ wellFormedHex h) ∧
  ∀ c, is_Some (DecodeString (String c h)) ↔ wellFormedHex (String c h).
Proof.
  unfold wellFormedHex. induction h as [|q h [IH1 IH2]].
  - split.
    + simpl. split; [intros _; split; [by exists 0%nat|constructor]|by eauto].
    + intros c. simpl. split; [by intros [? [=]]|].
      intros [[n Hn] _]. lia.
  - split; [apply IH2|]. intros p.
    change (DecodeString (String p (String q h))) with
      (a ← fromHexChar p; b ← fromHexChar q; decoded ← DecodeString h;
       Some (String (ascii_of_N (a * 16 + b)) decoded)).
    simpl String.length. simpl String.list_ascii_of_string.
    rewrite !Forall_cons, <-!fromHexChar_is_Some.
    destruct IH1 as [IH1a IH1b]. split.
    + intros [decoded Hd].
      destruct (fromHexChar p) as [a|]; [|done].
      destruct (fromHexChar q) as [b|]; [|done].
      destruct (DecodeString h) as [d|] eqn:Eh; [|done].
      destruct IH1a as [[n Hn] ?]; [by eauto|].
      split; [exists (S n); lia|]. eauto.
    + intros [[n Hn] ([a ->] & [b ->] & Hall)].
      destruct IH1b as [d ->]; [|by eauto].
      split; [|done]. destruct n as [|n]; [lia|]. exists n. lia.
Qed.

Lemma decodeHexNotation_None (value : string) :
  decodeHexNotation value = None ↔ malformedHex value.
Proof.
  unfold decodeHexNotation, malformedHex, hexWrapped.
  fold (hexDigitsOf value).
  pose proof (proj1 (DecodeString_is_Some (hexDigitsOf value))) as Hdec.
  case_bool_decide as Hlen; simpl; [split; [done|lia]|].
  destruct (HasPrefix value "$HEX[") ; simpl;
    [|split; [done|by intros [(_ & [=] & _) _]]].
  destruct (HasSuffix value "]"); simpl;
    [|split; [done|by intros [(_ & _ & [=]) _]]].
  rewrite <-Hdec. destruct (DecodeString (hexDigitsOf value)) as [decoded|].
  - split; [done|]. intros [_ []]. by eexists.
  - split; [|done]. intros _. split; [lia|]. by intros [? [=]].
Qed.

Lemma decodeHexNotation_literal (value : string) :
  ¬ hexWrapped value → decodeHexNotation value = Some value.
Proof.
  unfold decodeHexNotation, hexWrapped. intros H.
  case_bool_decide; simpl; [done|].
  destruct (HasPrefix value "$HEX["); simpl; [|done].
  destruct (HasSuffix value "]"); simpl; [|done].
  destruct H. split; [lia|done].
Qed.

Lemma cutAtSeparator_None (line : string) :
  countSeparators line = 0%nat → cutAtSeparator line = None.
Proof.
  induction line as [|c line IH]; simpl; [done|].
  case_bool_decide; [done|]. intros Hrest. by rewrite IH.
Qed.

Lemma cutAtSeparator_first (keyPart valuePart : string) :
  countSeparators keyPart = 0%nat →
  cutAtSeparator (keyPart +:+ "=" +:+ valuePart) = Some (keyPart, valuePart).
Proof.
  induction keyPart as [|c keyPart IH]; [done|].
  change (String c keyPart +:+ "=" +:+ valuePart)
    with (String c (keyPart +:+ "=" +:+ valuePart)).
  simpl. case_bool_decide; [done|]. intros Hrest. by rewrite IH.
Qed.

Lemma readLines_snoc (lines : list string) (line : string) :
  readLines (lines ++ [line]) = readLine (readLines lines) line.
Proof. unfold readLines. by rewrite foldl_snoc. Qed.

(** What one more value of [line] does to the map and to the log. *)
Lemma readLines_line (lines : list string) (line : string) :
  let substitutions := (readLines lines).1 in
  let log := (readLines lines).2 in
  (line = "" ∨ HasPrefix line "#" = true →
     readLines (lines ++ [line]) = (substitutions, log)) ∧
  (line ≠ "" → HasPrefix line "#" = false → countSeparators line = 0%nat →
     readLines (lines ++ [line]) = (substitutions, log)) ∧
  (line ≠ "" → HasPrefix line "#" = false →
   ∀ keyPart valuePart,
     line = keyPart +:+ "=" +:+ valuePart → countSeparators keyPart = 0%nat →
     (malformedHex keyPart →
        readLines (lines ++ [line])
        = (substitutions, log ++ [KeyWarning line])) ∧
     (¬ malformedHex keyPart → malformedHex valuePart →
        readLines (lines ++ [line])
        = (substitutions, log ++ [ValueWarning line])) ∧
     (¬ malformedHex keyPart → ¬ malformedHex valuePart →
        ∃ key value,
          decodeHexNotation keyPart = Some key ∧
          decodeHexNotation valuePart = Some value ∧
          (¬ hexWrapped keyPart → key = keyPart) ∧
          (¬ hexWrapped valuePart → value = valuePart) ∧
          readLines (lines ++ [line])
          = (<[ key := default [] (substitutions !! key) ++ [value] ]> substitutions, log))).
Proof.
  rewrite readLines_snoc.
  destruct (readLines lines) as [substitutions log]. simpl.
  unfold readLine. split_and!.
  - intros [->| ->]; [done|]. by rewrite orb_true_r.
  - intros Hne Hcomment Hsep. rewrite bool_decide_false, Hcomment by done. simpl.
    unfold SplitN2. by rewrite cutAtSeparator_None.
  - intros Hne Hcomment keyPart valuePart Hline Hsep.
    rewrite bool_decide_false, Hcomment by done. simpl.
    assert (Hcut : cutAtSeparator line = Some (keyPart, valuePart))
      by (rewrite Hline; by apply cutAtSeparator_first).
    unfold SplitN2. rewrite Hcut.
    rewrite <-!decodeHexNotation_None. split_and!.
    + by intros ->.
    + intros Hkey ->. by destruct (decodeHexNotation keyPart).
    + intros Hkey Hvalue.
      destruct (decodeHexNotation keyPart) as [key|] eqn:Ek; [|done].
      destruct (decodeHexNotation valuePart) as [value|] eqn:Ev; [|done].
      exists key, value. split_and!; try done.
      * intros Hw. apply decodeHexNotation_literal in Hw. congruence.
      * intros Hw. apply decodeHexNotation_literal in Hw. congruence.
Qed.

(** The scanner reads the lines before the first one that is too long. *)
Lemma scanLines_read (fileLines : list string) :
  scanLines fileLines
  = (dropCR <$> linesRead fileLines,
     if bool_decide (Forall (λ line, len line < MaxScanTokenSize) fileLines)
     then None else Some ErrTooLong).
Proof.
  induction fileLines as [|line rest IH]; [done|].
  cbn [scanLines linesRead].
  destruct (decide (len line >= MaxScanTokenSize)) as [Hlong|Hlong].
  - rewrite (bool_decide_true (len line >= MaxScanTokenSize)) by done.
    rewrite bool_decide_false; [done|]. intros [? _]%Forall_cons. lia.
  - rewrite (bool_decide_false (len line >= MaxScanTokenSize)) by done.
    rewrite IH. csimpl. f_equal.
    destruct (decide (Forall (λ line, len line < MaxScanTokenSize) rest)) as [Hrest|Hrest].
    + rewrite !bool_decide_true; [done|constructor; [lia|done]|done].
    + rewrite !bool_decide_false; [done|by intros [_ ?]%Forall_cons|done].
Qed.

Lemma linesRead_short (fileLines : list string) :
  Forall (λ line, len line < MaxScanTokenSize) fileLines → linesRead fileLines = fileLines.
Proof.
  induction 1 as [|line rest Hline _ IH]; [done|].
  cbn [linesRead]. rewrite bool_decide_false by lia. by rewrite IH.
Qed.

Lemma linesRead_long (before rest : list string) (line : string) :
  Forall (λ line, len line < MaxScanTokenSize) before →
  len line >= MaxScanTokenSize →
  linesRead (before ++ line :: rest) = before.
Proof.
  intros Hbefore Hline. induction Hbefore as [|first before Hfirst _ IH]; simpl.
  - by rewrite bool_decide_true.
  - rewrite bool_decide_false by lia. by rewrite IH.
Qed.

Lemma linesRead_are_short (fileLines : list string) :
  Forall (λ line, len line < MaxScanTokenSize) (linesRead fileLines).
Proof.
  induction fileLines as [|line rest IH]; [constructor|].
  cbn [linesRead]. case_bool_decide; constructor; [lia|done].
Qed.

(** The load of a file that opens, by the lines that are read. *)
Lemma readSubstitutionTable_read (fileLines : list string) :
  readSubstitutionTable (Some fileLines)
  = (readLines (TrimSpace <$> (dropCR <$> linesRead fileLines)),
     if bool_decide (Forall (λ line, len line < MaxScanTokenSize) fileLines)
     then None else Some ErrTooLong).
Proof. unfold readSubstitutionTable. by rewrite scanLines_read. Qed.

(** C9, as the code has it. The load fails when the file cannot be opened
    and when a line is too long for the scanner (65536 bytes or more): then
    the lines before it have been read, no line after it is, and the error is
    returned with the map read so far. No line makes the load fail by what
    it contains. Of a line that is read, the text without its surrounding
    white space counts: empty lines and comments are passed over; a line
    without [=] is skipped, and nothing is logged for it; any other line is
    split at its first [=], whatever follows: when the key, or else the
    value, is malformed [$HEX[...]] notation the line is skipped and a
    warning is logged; otherwise the decoded value is appended to the list of
    the decoded key, and nothing else changes. *)
Theorem readSubstitutionTable_line (fileLines : list string) (raw : string) :
  let loaded := readSubstitutionTable (Some fileLines) in
  let substitutions := loaded.1.1 in
  let log := loaded.1.2 in
  let line := TrimSpace (dropCR raw) in
  readSubstitutionTable None = ((∅, []), Some ErrOpen) ∧
  (loaded.2 = None ↔ Forall (λ l, len l < MaxScanTokenSize) fileLines) ∧
  (loaded.2 ≠ None →
     loaded.2 = Some ErrTooLong ∧
     ∀ rest, readSubstitutionTable (Some (fileLines ++ rest)) = loaded) ∧
  (loaded.2 = None → len raw >= MaxScanTokenSize →
     ∀ rest,
       readSubstitutionTable (Some (fileLines ++ raw :: rest))
       = ((substitutions, log), Some ErrTooLong)) ∧
  (loaded.2 = None → len raw < MaxScanTokenSize →
     (line = "" ∨ HasPrefix line "#" = true →
        readSubstitutionTable (Some (fileLines ++ [raw])) = ((substitutions, log), None)) ∧
     (line ≠ "" → HasPrefix line "#" = false → countSeparators line = 0%nat →
        readSubstitutionTable (Some (fileLines ++ [raw])) = ((substitutions, log), None)) ∧
     (line ≠ "" → HasPrefix line "#" = false →
      ∀ keyPart valuePart,
        line = keyPart +:+ "=" +:+ valuePart → countSeparators keyPart = 0%nat →
        (malformedHex keyPart →
           readSubstitutionTable (Some (fileLines ++ [raw]))
           = ((substitutions, log ++ [KeyWarning line]), None)) ∧
        (¬ malformedHex keyPart → malformedHex valuePart →
           readSubstitutionTable (Some (fileLines ++ [raw]))
           = ((substitutions, log ++ [ValueWarning line]), None)) ∧
        (¬ malformedHex keyPart → ¬ malformedHex valuePart →
           ∃ key value,
             decodeHexNotation keyPart = Some key ∧
             decodeHexNotation valuePart = Some value ∧
             (¬ hexWrapped keyPart → key = keyPart) ∧
             (¬ hexWrapped valuePart → value = valuePart) ∧
             readSubstitutionTable (Some (fileLines ++ [raw]))
             = ((<[ key := default [] (substitutions !! key) ++ [value] ]> substitutions,
                 log), None)))).
Proof.
  cbv zeta.
  assert (Herr : (readSubstitutionTable (Some fileLines)).2 = None ↔
                 Forall (λ l, len l < MaxScanTokenSize) fileLines).
  { rewrite readSubstitutionTable_read. simpl. by case_bool_decide. }
  split; [done|]. split; [exact Herr|]. split_and!.
  - intros Hfailed. rewrite readSubstitutionTable_read in Hfailed |- *. simpl in Hfailed.
    case_bool_decide as Hshort; [done|]. split; [done|]. intros rest.
    rewrite readSubstitutionTable_read.
    rewrite bool_decide_false by (by intros [? _]%Forall_app).
    do 4 f_equal. clear Hfailed Herr.
    induction fileLines as [|first fileLines IH]; [by destruct Hshort|].
    cbn [linesRead app]. case_bool_decide as Hfirst; [done|]. f_equal. apply IH.
    intros Hrest. apply Hshort. constructor; [lia|done].
  - intros Hloaded%Herr Hlong rest.
    rewrite !readSubstitutionTable_read, linesRead_long, linesRead_short by done.
    cbn [fst snd]. rewrite <-surjective_pairing.
    rewrite (bool_decide_false (Forall _ (fileLines ++ raw :: rest))); [done|].
    intros [_ [? _]%Forall_cons]%Forall_app. lia.
  - intros Hloaded%Herr Hshort.
    assert (Hread : readSubstitutionTable (Some (fileLines ++ [raw]))
                    = (readLines ((TrimSpace <$> (dropCR <$> fileLines))
                                    ++ [TrimSpace (dropCR raw)]), None)).
    { rewrite readSubstitutionTable_read, linesRead_short, bool_decide_true;
        try (apply Forall_app; split; [done|by constructor]).
      by rewrite !fmap_app. }
    rewrite Hread, readSubstitutionTable_read, linesRead_short, bool_decide_true by done.
    cbn [fst snd].
    pose proof (readLines_line (TrimSpace <$> (dropCR <$> fileLines))
                  (TrimSpace (dropCR raw))) as Hline. cbv zeta in Hline.
    destruct Hline as (Hempty & Hnone & Hsplit). split_and!.
    + intros H. by rewrite (Hempty H), <-surjective_pairing.
    + intros ???. by rewrite Hnone, <-surjective_pairing.
    + intros Hne Hcomment keyPart valuePart Hparts Hsep.
      destruct (Hsplit Hne Hcomment keyPart valuePart Hparts Hsep)
        as (Hkey & Hvalue & Hboth).
      split_and!.
      * intros H. by rewrite (Hkey H).
      * intros H1 H2. by rewrite (Hvalue H1 H2).
      * intros H1 H2. destruct (Hboth H1 H2) as (key & value & ? & ? & ? & ? & Hnew).
        exists key, value. split_and!; try done. by rewrite Hnew.
Qed.

Lemma readSubstitutionTable_line_witness :
  readSubstitutionTable (Some ([] ++ [" abc "]))
  = (((readSubstitutionTable (Some [])).1.1, (readSubstitutionTable (Some [])).1.2), None).
Proof.
  refine (proj1 (proj2 (proj2 (proj2 (proj2 (proj2
            (readSubstitutionTable_line [] " abc ")))) eq_refl _)) _ _ _).
  - by vm_compute.
  - by vm_compute.
  - by vm_compute.
  - by vm_compute.
Defined.

(** C9 as stated fails: a line with two [=] is not skipped, it binds the text
    before the first [=] to the rest of the line; a line without [=] is
    skipped without a warning; and a line of 65536 bytes makes the load fail,
    though it is a comment: the line after it is not read. *)
Lemma readSubstitutionTable_two_separators :
  countSeparators "a=b=c" = 2%nat ∧
  readSubstitutionTable (Some ["a=b=c"]) = (({[ "a" := ["b=c"] ]}, []), None) ∧
  readSubstitutionTable (Some ["abc"]) = ((∅, []), None) ∧
  HasPrefix longComment "#" = true ∧
  readSubstitutionTable (Some [longComment; "a=b"]) = ((∅, []), Some ErrTooLong) ∧
  readSubstitutionTable (Some ["a=b"]) = (({[ "a" := ["b"] ]}, []), None).
Proof. by vm_compute. Qed.

(** * Further properties of the code *)

(** ** [validSubstitutionPositions] *)

Global Instance startLe_trans : Transitive startLe.
Proof. unfold startLe. intros a b c. lia. Qed.

Global Instance startLe_total : Total startLe.
Proof. unfold startLe. intros a b. lia. Qed.

Lemma apart_sym a b : apart a b → apart b a.
Proof. unfold apart. lia. Qed.

Lemma pairwiseApart_Permutation (l1 l2 : list (Z * Z)) :
  l1 ≡ₚ l2 → pairwiseApart l1 → pairwiseApart l2.
Proof.
  induction 1 as [|x l1 l2 Hperm IH|x y l|l1 l2 l3 _ IH1 _ IH2]; simpl; [done|..].
  - intros [Hx Hl]. split; [by rewrite <-Hperm|auto].
  - intros [[Hyx Hy]%Forall_cons [Hx Hl]]. split_and!; [|done..].
    constructor; [by apply apart_sym|done].
  - auto.
Qed.

(** On intervals sorted by start the loop over neighbours decides whether
    any two intervals overlap. *)
Lemma disjointSorted_pairwiseApart (intervals : list (Z * Z)) :
  StronglySorted startLe intervals →
  Forall (λ a, a.1 ≤ a.2) intervals →
  disjointSorted intervals = true ↔ pairwiseApart intervals.
Proof.
  induction 1 as [|a l Hsorted IH Hle]; intros Hne; [done|].
  apply Forall_cons in Hne as [Ha Hne]. specialize (IH Hne).
  destruct l as [|b l]; [simpl; split; [by split|done]|].
  change (disjointSorted (a :: b :: l))
    with (if bool_decide (b.1 ≤ a.2) then false else disjointSorted (b :: l)).
  change (pairwiseApart (a :: b :: l))
    with (Forall (apart a) (b :: l) ∧ pairwiseApart (b :: l)).
  apply Forall_cons in Hle as [Hab Hle].
  apply Forall_cons in Hne as [Hb Hne].
  inversion Hsorted as [|?? _ Hbl]; subst.
  unfold startLe in *. case_bool_decide as Hoverlap.
  - split; [done|]. intros [[Hapart _]%Forall_cons _]. unfold apart in Hapart. lia.
  - rewrite IH. split; [|by intros [_ ?]]. intros Hrest. split; [|done].
    constructor; [unfold apart; lia|].
    eapply Forall_impl; [exact Hbl|]. unfold apart. simpl. lia.
Qed.

Lemma index_lookup {A} (l : list A) (i : Z) (x : A) :
  0 ≤ i → l !! Z.to_nat i = Some x → index l i = mret x.
Proof. intros Hi Hx. unfold index. by rewrite bool_decide_true, Hx. Qed.

(** The intervals [validSubstitutionPositions] collects. *)
Lemma intervals_collect (positions : list position) (combo : list Z) :
  Forall (λ idx, 0 ≤ idx < Z.of_nat (length positions)) combo →
  ∃ selected,
    Forall2 (λ idx pos, positions !! Z.to_nat idx = Some pos) combo selected ∧
    ∀ acc,
      foldM (λ intervals idx,
               pos ← index positions idx;
               mret (intervals ++ [(start pos, start pos + keyLength pos - 1)]))
            acc combo
      = mret (acc ++ (intervalOf <$> selected)).
Proof.
  induction 1 as [|idx combo Hidx _ (selected & Hsel & Hfold)].
  - exists []. split; [constructor|]. intros acc. simpl. by rewrite app_nil_r.
  - destruct (lookup_lt_is_Some_2 positions (Z.to_nat idx)) as [pos Hpos]; [lia|].
    exists (pos :: selected). split; [by constructor|]. intros acc. cbn [foldM].
    rewrite (index_lookup positions idx pos) by (lia || done).
    rewrite (bind_done (mret pos ≫= _) _ (acc ++ [intervalOf pos])).
    + rewrite Hfold. by rewrite <-(assoc_L (++)).
    + by rewrite (bind_done (mret pos) _ pos).
Qed.

(** X1. For a combination of indices into [positions], where every
    occurrence has a key of at least one byte, [validSubstitutionPositions]
    returns, and returns [true] exactly when no two of the selected
    occurrences share a byte of the word. *)
Theorem validSubstitutionPositions_pairwise
    (combo : list Z) (positions : list position) :
  Forall (λ idx, 0 ≤ idx < Z.of_nat (length positions)) combo →
  Forall (λ pos, 1 ≤ keyLength pos) positions →
  ∃ (selected : list position) (valid : bool),
    Forall2 (λ idx pos, positions !! Z.to_nat idx = Some pos) combo selected ∧
    validSubstitutionPositions combo positions = mret valid ∧
    (valid = true ↔ pairwiseApart (intervalOf <$> selected)).
Proof.
  intros Hcombo Hkeys.
  destruct (intervals_collect positions combo Hcombo) as (selected & Hsel & Hfold).
  exists selected, (disjointSorted (sortByStart (intervalOf <$> selected))).
  split; [done|]. split.
  - unfold validSubstitutionPositions. rewrite Hfold.
    by rewrite (bind_done (mret _) _ (intervalOf <$> selected)).
  - assert (Hne : Forall (λ a : Z * Z, a.1 ≤ a.2) (intervalOf <$> selected)).
    { apply Forall_fmap. apply Forall_forall. intros pos Hpos. simpl.
      apply list_elem_of_lookup in Hpos as [i Hi].
      destruct (Forall2_lookup_r _ _ _ _ _ Hsel Hi) as (idx & _ & Hlook).
      rewrite Forall_forall in Hkeys.
      specialize (Hkeys pos (list_elem_of_lookup_2 _ _ _ Hlook)). lia. }
    unfold sortByStart. rewrite disjointSorted_pairwiseApart.
    + split; apply pairwiseApart_Permutation; [|symmetry]; apply merge_sort_Permutation.
    + apply StronglySorted_merge_sort; apply _.
    + by rewrite merge_sort_Permutation.
Qed.

Lemma validSubstitutionPositions_pairwise_witness :
  ∃ (selected : list position) (valid : bool),
    Forall2 (λ idx pos,
               [Position 0 2 ["x"]; Position 1 1 ["y"]; Position 2 1 ["z"]] !! Z.to_nat idx
               = Some pos) [2; 0] selected ∧
    validSubstitutionPositions [2; 0]
      [Position 0 2 ["x"]; Position 1 1 ["y"]; Position 2 1 ["z"]] = mret valid ∧
    (valid = true ↔ pairwiseApart (intervalOf <$> selected)).
Proof.
  apply (validSubstitutionPositions_pairwise [2; 0]
           [Position 0 2 ["x"]; Position 1 1 ["y"]; Position 2 1 ["z"]]).
  - repeat constructor; simpl; lia.
  - repeat constructor; simpl; lia.
Defined.

(** ** The occurrences [processWordReverse] collects *)

(** A loop that appends to its local list what each iteration finds. *)
Lemma foldM_append {A B} (body : list B → A → M (list B)) (f : A → list B) (l : list A) :
  ∀ acc,
    (∀ acc x, x ∈ l → body acc x = mret (acc ++ f x)) →
    foldM body acc l = mret (acc ++ (l ≫= f)).
Proof.
  induction l as [|x l IH]; intros acc Hbody; simpl.
  - by rewrite app_nil_r.
  - rewrite (bind_done _ _ (acc ++ f x)) by (apply Hbody; left).
    rewrite IH by (intros; apply Hbody; by right).
    by rewrite <-(assoc_L (++)).
Qed.

Lemma StronglySorted_bind {A B} (R0 : relation A) (R : relation B)
    (f : A → list B) (l : list A) :
  StronglySorted R0 l →
  (∀ x, x ∈ l → StronglySorted R (f x)) →
  (∀ x y a b, R0 x y → a ∈ f x → b ∈ f y → R a b) →
  StronglySorted R (l ≫= f).
Proof.
  intros Hl Hf Hcross. revert Hf.
  induction Hl as [|x l _ IH Hx]; intros Hf; csimpl; [constructor|].
  apply StronglySorted_app. split_and!.
  - intros a b Ha (y & Hb & Hy)%list_elem_of_bind.
    rewrite Forall_forall in Hx. eapply Hcross; [by apply Hx|done..].
  - apply Hf. left.
  - apply IH. intros y Hy. apply Hf. by right.
Qed.

Lemma StronglySorted_seqZ (m n : Z) : StronglySorted Z.lt (seqZ m n).
Proof.
  destruct (decide (0 ≤ n)) as [Hn|]; [|rewrite seqZ_nil by lia; constructor].
  rewrite <-(Z2Nat.id n) by done. clear Hn. generalize (Z.to_nat n) as k. clear n.
  intros k. revert m. induction k as [|k IH]; intros m; [constructor|].
  rewrite seqZ_cons by lia. constructor.
  - replace (Z.pred (Z.of_nat (S k))) with (Z.of_nat k) by lia. apply IH.
  - apply Forall_forall. intros x [? ?]%elem_of_seqZ. lia.
Qed.

Lemma findPositions_occurrences subMap word :
  findPositions subMap word
  = mret (seqZ 0 (len word) ≫= occurrencesAt subMap word).
Proof.
  unfold findPositions.
  rewrite (foldM_append _ (occurrencesAt subMap word)); [done|].
  intros acc i [Hi1 Hi2]%elem_of_seqZ. unfold occurrencesAt.
  apply foldM_append. intros acc' keyLength [Hk1 Hk2]%elem_of_seqZ.
  rewrite slice_inRange by lia.
  rewrite (bind_done (mret _) _ (sub word i (i + keyLength))) by done.
  destruct (subMap !! _); [done|]. by rewrite app_nil_r.
Qed.

Lemma elem_of_occurrencesAt subMap word i pos :
  pos ∈ occurrencesAt subMap word i ↔
  start pos = i ∧ 1 ≤ keyLength pos ∧ i + keyLength pos ≤ len word ∧
  subMap !! sub word i (i + keyLength pos) = Some (subs pos).
Proof.
  unfold occurrencesAt. rewrite list_elem_of_bind. split.
  - intros (keyLength & Hpos & [? ?]%elem_of_seqZ).
    destruct (subMap !! _) as [options|] eqn:E; [|by apply elem_of_nil in Hpos].
    apply list_elem_of_singleton in Hpos as ->. simpl. split_and!; (done || lia).
  - intros (<- & ? & ? & Hkey). exists (keyLength pos). split.
    + rewrite Hkey. destruct pos. apply list_elem_of_singleton. done.
    + apply elem_of_seqZ. lia.
Qed.

Lemma elem_of_occurrences subMap word pos :
  pos ∈ seqZ 0 (len word) ≫= occurrencesAt subMap word ↔ occursIn subMap word pos.
Proof.
  rewrite list_elem_of_bind. unfold occursIn. split.
  - intros (i & (<- & ? & ? & ?)%elem_of_occurrencesAt & [? ?]%elem_of_seqZ). done.
  - intros (? & ? & ? & ?). exists (start pos). split; [by apply elem_of_occurrencesAt|].
    apply elem_of_seqZ. lia.
Qed.

Lemma occurrences_sorted subMap word :
  StronglySorted positionLt (seqZ 0 (len word) ≫= occurrencesAt subMap word).
Proof.
  apply (StronglySorted_bind Z.lt); [apply StronglySorted_seqZ| |].
  - intros i _. unfold occurrencesAt.
    apply (StronglySorted_bind Z.lt); [apply StronglySorted_seqZ| |].
    + intros keyLength _. destruct (subMap !! _); repeat constructor.
    + intros k1 k2 a b Hlt Ha Hb. unfold positionLt.
      destruct (subMap !! sub word i (i + k1)); [|by apply elem_of_nil in Ha].
      destruct (subMap !! sub word i (i + k2)); [|by apply elem_of_nil in Hb].
      apply list_elem_of_singleton in Ha as ->.
      apply list_elem_of_singleton in Hb as ->. simpl. lia.
  - intros i j a b Hlt (Ha & _)%elem_of_occurrencesAt (Hb & _)%elem_of_occurrencesAt.
    left. lia.
Qed.

Lemma positionLt_NoDup (l : list position) : StronglySorted positionLt l → NoDup l.
Proof.
  induction 1 as [|p l _ IH Hp]; constructor; [|done].
  intros Hin. rewrite Forall_forall in Hp. specialize (Hp p Hin).
  unfold positionLt in Hp. lia.
Qed.

(** X2. The two loops that open [processWordReverse] never slice out of
    range, and leave in [positions] exactly the occurrences of the keys of
    the table in the word (every start offset, every length of at least one
    byte, with the options of the key), ordered by start offset and then by
    length, none of them twice. *)
Theorem findPositions_exact (subMap : gmap string (list string)) (word : string) :
  ∃ positions : list position,
    findPositions subMap word = mret positions ∧
    (∀ pos, pos ∈ positions ↔ occursIn subMap word pos) ∧
    StronglySorted positionLt positions ∧
    NoDup positions.
Proof.
  exists (seqZ 0 (len word) ≫= occurrencesAt subMap word).
  split; [apply findPositions_occurrences|]. split_and!.
  - apply elem_of_occurrences.
  - apply occurrences_sorted.
  - apply positionLt_NoDup, occurrences_sorted.
Qed.

(** ** The order and the end of a run of [processWordReverse] *)

Lemma StronglySorted_flip_reverse {A} (R : relation A) (l : list A) :
  StronglySorted R l → StronglySorted (flip R) (reverse l).
Proof.
  induction 1 as [|x l _ IH Hx]; [constructor|].
  rewrite reverse_cons. apply StronglySorted_app. split_and!; [|done|repeat constructor].
  intros y z Hy ->%list_elem_of_singleton. unfold flip.
  rewrite Forall_forall in Hx. apply Hx. by apply elem_of_reverse.
Qed.

(** The emissions of a loop whose iterations each send with their own count,
    over decreasing counts. *)
Lemma forEach_counts_descend (l : list Z) (body : Z → M unit) :
  StronglySorted (flip Z.lt) l →
  (∀ x, x ∈ l → emits (λ e, subCount e = x) (body x)) →
  StronglySorted (λ e1 e2, subCount e2 ≤ subCount e1) (emitted (forEach l body)).
Proof.
  intros Hl. induction Hl as [|x l _ IH Hx]; intros Hbody; [constructor|].
  cbn [forEach]. rewrite emitted_bind.
  assert (Hfirst : Forall (λ e, subCount e = x) (emitted (body x)))
    by (apply Hbody; left).
  assert (Hrest : emits (λ e, subCount e < x) (forEach l body)).
  { apply emits_forEach. intros y Hy. eapply Forall_impl; [apply Hbody; by right|].
    simpl. intros e ->. rewrite Forall_forall in Hx. apply (Hx y Hy). }
  apply StronglySorted_app. split_and!.
  - intros e1 e2 He1 He2. rewrite Forall_forall in Hfirst.
    rewrite (Hfirst e1 He1). destruct (result (body x)); [|by apply elem_of_nil in He2..].
    unfold emits in Hrest. rewrite Forall_forall in Hrest. specialize (Hrest e2 He2). lia.
  - clear -Hfirst. induction Hfirst as [|e es He Hes IH]; constructor; [done|].
    eapply Forall_impl; [exact Hes|]. simpl. lia.
  - destruct (result (body x)); [|constructor..]. apply IH.
    intros y Hy. apply Hbody. by right.
Qed.

Lemma forEach_done {A} (l : list A) (body : A → M unit) :
  result (forEach l body) = Done tt → ∀ x, x ∈ l → result (body x) = Done tt.
Proof.
  induction l as [|y l IH]; intros Hdone x Hx; [by apply elem_of_nil in Hx|].
  cbn [forEach] in Hdone. rewrite result_bind in Hdone.
  destruct (result (body y)) as [[]| |] eqn:E; [|done..].
  apply elem_of_cons in Hx as [->|Hx]; [done|]. by apply IH.
Qed.

(** X3. [processWordReverse] emits its variants in order of decreasing
    substitution count: no variant is followed by one with more
    replacements. *)
Theorem processWordReverse_counts_descend
    (subMap : gmap string (list string)) (minSubstitute maxSubstitute : Z)
    (word : string) :
  StronglySorted (λ e1 e2, subCount e2 ≤ subCount e1)
    (emitted (processWordReverse subMap minSubstitute maxSubstitute word)).
Proof.
  unfold processWordReverse. rewrite findPositions_occurrences.
  rewrite (bind_done (mret _) _ _ eq_refl).
  unfold processWordReverseFrom. case_bool_decide; [constructor|].
  apply forEach_counts_descend.
  - apply StronglySorted_flip_reverse, StronglySorted_seqZ.
  - intros subCount _.
    apply emits_bind; [apply generateCombinations_emits|]. intros combinations Hcombos.
    apply emits_forEach. intros combo Hcombo.
    apply (generateCombinations_length _ _ _ _ Hcombos) in Hcombo; [|lia].
    apply emits_bind; [apply validSubstitutionPositions_silent|]. intros valid _.
    destruct valid; simpl; [|apply emits_ret].
    apply emits_bind; [apply emits_foldM; intros; apply applyAt_silent|]. intros st _.
    by apply emits_send.
Qed.

(** X4. With a negative minimum and a maximum that is neither below the
    minimum nor [MinInt64], [processWordReverse] never returns: the loop over
    the counts reaches a negative count [k] other than [MinInt64], and
    [generateCombinations(n, k)] does not return for such a [k] (it recurses
    on [k-1], [k-2], ... until, in Go, the stack is exhausted), whatever was
    emitted before; no amount of fuel changes this. At [k = MinInt64] itself
    the subtraction [k-1] wraps around and the call returns [nil] at once. *)
Theorem processWordReverse_negative_min
    (subMap : gmap string (list string)) (minSubstitute maxSubstitute : Z)
    (word : string) :
  minSubstitute < 0 → minSubstitute ≤ maxSubstitute → minInt64 < maxSubstitute →
  result (processWordReverse subMap minSubstitute maxSubstitute word) ≠ Done tt ∧
  (∀ fuel positions,
     result (processWordReverseFrom minSubstitute maxSubstitute fuel word positions)
     ≠ Done tt) ∧
  (∀ fuel n k, k < 0 → minInt64 < k → k ≤ n →
     result (generateCombinations fuel n k) = OutOfFuel) ∧
  (∀ fuel n, minInt64 < n → generateCombinations (S fuel) n minInt64 = mret []).
Proof.
  intros Hneg Hle Hmax.
  assert (Hfrom : ∀ fuel positions,
    result (processWordReverseFrom minSubstitute maxSubstitute fuel word positions)
    ≠ Done tt).
  { intros fuel positions Hdone. unfold processWordReverseFrom in Hdone.
    rewrite bool_decide_false in Hdone by lia.
    set (actualMax := if bool_decide (maxSubstitute > Z.of_nat (length positions))
                      then Z.of_nat (length positions) else maxSubstitute) in Hdone.
    set (subCount := Z.max minSubstitute (minInt64 + 1)).
    assert (Hmin64 : minInt64 + 1 < 0) by done.
    assert (minSubstitute ≤ subCount ≤ actualMax ∧ subCount < 0 ∧ minInt64 < subCount)
      as (Hcount & Hnegative & Hwrap)
      by (unfold actualMax, subCount;
          destruct (bool_decide (maxSubstitute > Z.of_nat (length positions))) eqn:E;
          [apply bool_decide_eq_true in E|apply bool_decide_eq_false in E]; lia).
    pose proof (forEach_done _ _ Hdone subCount) as Hbody. cbv beta in Hbody.
    rewrite result_bind, generateCombinations_negative in Hbody by lia.
    assert (OutOfFuel = Done tt) as [=]. apply Hbody.
    apply elem_of_reverse, elem_of_seqZ. lia. }
  split_and!; [|done| |].
  - unfold processWordReverse. rewrite findPositions_occurrences.
    rewrite (bind_done (mret _) _ _ eq_refl). apply Hfrom.
  - intros fuel n k ???. apply generateCombinations_negative; lia.
  - intros fuel n ?. apply generateCombinations_minInt64. lia.
Qed.

Lemma processWordReverse_negative_min_witness :
  result (processWordReverse leetO (-1) 2 "foo") ≠ Done tt ∧
  (∀ fuel positions,
     result (processWordReverseFrom (-1) 2 fuel "foo" positions) ≠ Done tt) ∧
  (∀ fuel n k, k < 0 → minInt64 < k → k ≤ n →
     result (generateCombinations fuel n k) = OutOfFuel) ∧
  (∀ fuel n, minInt64 < n → generateCombinations (S fuel) n minInt64 = mret []).
Proof. apply (processWordReverse_negative_min leetO (-1) 2 "foo"); done. Defined.

(** ** The table built from the files *)

(** What one line does to the map and to the log, against what it does to
    an empty map and an empty log. *)
Lemma readLine_cases (substitutions : gmap string (list string)) (log : list warning)
    (line : string) :
  (readLine (substitutions, log) line = (substitutions, log) ∧
   readLine (∅, []) line = (∅, [])) ∨
  (∃ w, readLine (substitutions, log) line = (substitutions, log ++ [w]) ∧
        readLine (∅, []) line = (∅, [w])) ∨
  (∃ key value,
     readLine (substitutions, log) line
     = (<[ key := default [] (substitutions !! key) ++ [value] ]> substitutions, log) ∧
     readLine (∅, []) line = ({[ key := [value] ]}, [])).
Proof.
  unfold readLine. destruct (_ || _); [by left|].
  destruct (SplitN2 line) as [|keyPart [|valuePart [|]]]; try by left.
  destruct (decodeHexNotation keyPart) as [key|]; [|right; left; by eexists].
  destruct (decodeHexNotation valuePart) as [value|]; [|right; left; by eexists].
  right. right. exists key, value. split; [done|].
  by rewrite lookup_empty, insert_empty.
Qed.

(** The list of a key after some lines, from any starting map. *)
Lemma readLines_lookup (lines : list string) :
  ∀ (substitutions : gmap string (list string)) (log : list warning) (key : string),
    default [] ((foldl readLine (substitutions, log) lines).1 !! key)
    = default [] (substitutions !! key)
      ++ (lines ≫= λ line, default [] ((readLine (∅, []) line).1 !! key)) ∧
    (is_Some ((foldl readLine (substitutions, log) lines).1 !! key) ↔
     is_Some (substitutions !! key) ∨
     ∃ line, line ∈ lines ∧ is_Some ((readLine (∅, []) line).1 !! key)) ∧
    (foldl readLine (substitutions, log) lines).2
    = log ++ (lines ≫= λ line, (readLine (∅, []) line).2).
Proof.
  induction lines as [|line lines IH]; intros substitutions log key.
  { csimpl. rewrite !app_nil_r. split_and!; [done| |done].
    split; [by left|]. intros [?|(? & []%elem_of_nil & _)]. done. }
  change (foldl readLine (substitutions, log) (line :: lines))
    with (foldl readLine (readLine (substitutions, log) line) lines).
  rewrite !bind_cons. setoid_rewrite elem_of_cons.
  destruct (readLine_cases substitutions log line)
    as [[E1 E2]|[(w & E1 & E2)|(k & v & E1 & E2)]]; rewrite E1, E2.
  - destruct (IH substitutions log key) as (-> & -> & ->).
    simpl. rewrite lookup_empty. split_and!; [done| |done].
    split; [naive_solver|].
    intros [?|(l & [->|?] & Hl)]; [by left| |by eauto].
    change (is_Some ((readLine (∅, []) line).1 !! key)) in Hl.
    rewrite E2 in Hl. simpl in Hl. rewrite lookup_empty in Hl. by destruct Hl.
  - destruct (IH substitutions (log ++ [w]) key) as (-> & -> & ->).
    simpl. rewrite lookup_empty, <-(assoc_L (++)).
    split_and!; [done| |done].
    split; [naive_solver|].
    intros [?|(l & [->|?] & Hl)]; [by left| |by eauto].
    change (is_Some ((readLine (∅, []) line).1 !! key)) in Hl.
    rewrite E2 in Hl. simpl in Hl. rewrite lookup_empty in Hl. by destruct Hl.
  - destruct (IH (<[k:=default [] (substitutions !! k) ++ [v]]> substitutions) log key)
      as (-> & -> & ->).
    simpl.
    destruct (decide (k = key)) as [->|Hne].
    + rewrite !lookup_insert_eq, lookup_singleton_eq. simpl. rewrite <-!(assoc_L (++)).
      split_and!; [done| |done]. split; [|by eauto].
      intros _. right. exists line. split; [by left|].
      change (is_Some ((readLine (∅, []) line).1 !! key)).
      rewrite E2. simpl. rewrite lookup_singleton_eq. by eexists.
    + rewrite !lookup_insert_ne, lookup_singleton_ne by done. simpl.
      split_and!; [done| |done]. split; [naive_solver|].
      intros [?|(l & [->|?] & Hl)]; [by left| |by eauto].
      change (is_Some ((readLine (∅, []) line).1 !! key)) in Hl.
    rewrite E2 in Hl. simpl in Hl. rewrite lookup_singleton_ne in Hl by done.
      by destruct Hl.
Qed.

Lemma option_list_eq {A} (o1 o2 : option (list A)) :
  (is_Some o1 ↔ is_Some o2) → default [] o1 = default [] o2 → o1 = o2.
Proof.
  destruct o1, o2; simpl; intros [H1 H2] E; subst; try done.
  - by destruct H1 as [? [=]].
  - by destruct H2 as [? [=]].
Qed.

(** What the lines contribute to a key and to the log, in their order. *)
Lemma readLines_file_order (lines : list string) (key : string) :
  default [] ((readLines lines).1 !! key)
  = (lines ≫= λ line, default [] ((readLines [line]).1 !! key)) ∧
  (readLines lines).2
  = (lines ≫= λ line, (readLines [line]).2).
Proof.
  destruct (readLines_lookup lines ∅ [] key) as (E1 & _ & E3).
  rewrite lookup_empty in E1. split; [exact E1|exact E3].
Qed.

Lemma readLines_lists_nonempty
    (lines : list string) (key : string) (subs : list string) :
  (readLines lines).1 !! key = Some subs → subs ≠ [].
Proof.
  intros Hkey. destruct (readLines_lookup lines ∅ [] key) as (E1 & E2 & _).
  fold (readLines lines) in E1, E2. rewrite Hkey in E1, E2.
  rewrite lookup_empty in E1, E2. cbn [from_option id app] in E1.
  destruct E2 as [[[? [=]]|(line & Hline & Hsome)] _]; [by eexists|].
  apply list_elem_of_split in Hline as (l1 & l2 & ->).
  rewrite E1, bind_app, bind_cons. cbv beta.
  destruct (readLine_cases ∅ [] line) as [[_ E]|[(w & _ & E)|(k & v & _ & E)]];
    rewrite E in Hsome |- *; simpl in *.
  - rewrite lookup_empty in Hsome. by destruct Hsome.
  - rewrite lookup_empty in Hsome. by destruct Hsome.
  - destruct (decide (k = key)) as [->|Hne].
    + rewrite lookup_singleton_eq. simpl. by intros [_ [=]]%app_eq_nil.
    + rewrite lookup_singleton_ne in Hsome by done. by destruct Hsome.
Qed.

(** The load of a file of one line that the scanner accepts. *)
Lemma readSubstitutionTable_one (line : string) :
  len line < MaxScanTokenSize →
  readSubstitutionTable (Some [line]) = (readLines [TrimSpace (dropCR line)], None).
Proof.
  intros Hshort. rewrite readSubstitutionTable_read.
  rewrite linesRead_short, bool_decide_true; try done; by repeat constructor.
Qed.

(** X5. The list [readSubstitutionTable] binds to a key is the concatenation,
    in the order of the file, of what each line that is read contributes to
    that key when it is a file on its own; and the warnings are logged in the
    order of the file. The lines read are those before the first line of
    65536 bytes or more, all of them when there is none. *)
Theorem readSubstitutionTable_file_order (fileLines : list string) (key : string) :
  default [] ((readSubstitutionTable (Some fileLines)).1.1 !! key)
  = (linesRead fileLines
       ≫= λ line, default [] ((readSubstitutionTable (Some [line])).1.1 !! key)) ∧
  (readSubstitutionTable (Some fileLines)).1.2
  = (linesRead fileLines ≫= λ line, (readSubstitutionTable (Some [line])).1.2) ∧
  (Forall (λ line, len line < MaxScanTokenSize) fileLines → linesRead fileLines = fileLines).
Proof.
  split_and!; [| |apply linesRead_short];
    rewrite readSubstitutionTable_read; cbn [fst snd];
    pose proof (readLines_file_order
                  (TrimSpace <$> (dropCR <$> linesRead fileLines)) key) as [Hkey Hlog];
    [rewrite Hkey|rewrite Hlog]; clear Hkey Hlog;
    pose proof (linesRead_are_short fileLines) as Hshort;
    induction Hshort as [|line rest Hline _ IH]; try done;
    rewrite !fmap_cons, !bind_cons, IH, (readSubstitutionTable_one line) by done;
    done.
Qed.

(** X6. [readSubstitutionTable] never binds a key to an empty list of
    replacements: every key of the map it returns has at least one, also
    when it returns an error with the map. *)
Theorem readSubstitutionTable_lists_nonempty
    (file : option (list string)) (key : string) (subs : list string) :
  (readSubstitutionTable file).1.1 !! key = Some subs → subs ≠ [].
Proof.
  destruct file as [fileLines|]; [|by cbn; rewrite lookup_empty].
  rewrite readSubstitutionTable_read. apply readLines_lists_nonempty.
Qed.

Lemma readSubstitutionTable_lists_nonempty_witness : ["0"; "O"] ≠ [].
Proof.
  apply (readSubstitutionTable_lists_nonempty (Some [" o=0"; "#"; "o=O "]) "o").
  by vm_compute.
Defined.

(** What merging a table into [substitutionMap] leaves at a key, whatever the
    order in which the table is visited. *)
Lemma mergeTable_lookup (entries : list (string * list string)) :
  NoDup entries.*1 →
  ∀ (substitutionMap : gmap string (list string)) (key : string),
    mergeTable substitutionMap entries !! key
    = match (list_to_map entries : gmap string (list string)) !! key with
      | Some values => Some (default [] (substitutionMap !! key) ++ values)
      | None => substitutionMap !! key
      end.
Proof.
  induction entries as [|[k values] entries IH]; intros Hnodup substitutionMap key;
    [done|].
  apply NoDup_cons in Hnodup as [Hk Hnodup].
  change (mergeTable substitutionMap ((k, values) :: entries))
    with (mergeTable (<[ k := default [] (substitutionMap !! k) ++ values ]> substitutionMap)
            entries).
  rewrite IH by done. simpl list_to_map.
  destruct (decide (k = key)) as [->|Hne].
  - rewrite lookup_insert_eq.
    rewrite (not_elem_of_list_to_map_1 entries key) by done.
    by rewrite lookup_insert_eq.
  - by rewrite !lookup_insert_ne by done.
Qed.

Lemma readLines_app (before lines : list string) :
  readLines (before ++ lines)
  = foldl readLine (readLines before) lines.
Proof. unfold readLines. by rewrite foldl_app. Qed.

(** Merging the table of [lines] into the table of [before] gives the table
    of the two in sequence, whatever the order in which [range] visits it. *)
Lemma mergeTable_readLines (order : TableOrder) (before lines : list string) :
  mergeTable (readLines before).1 (order (readLines lines).1)
  = (readLines (before ++ lines)).1.
Proof.
  apply map_eq. intros key.
  rewrite mergeTable_lookup.
  2:{ rewrite tableEntries_perm. apply NoDup_fst_map_to_list. }
  rewrite (list_to_map_proper _ (map_to_list (readLines lines).1));
    [|rewrite tableEntries_perm; apply NoDup_fst_map_to_list|apply tableEntries_perm].
  rewrite list_to_map_to_list.
  rewrite readLines_app.
  destruct (readLines before) as [substitutions log]. simpl.
  destruct (readLines_lookup lines substitutions log key) as (E1 & E2 & _).
  destruct (readLines_lookup lines ∅ [] key) as (F1 & F2 & _).
  fold (readLines lines) in F1, F2.
  rewrite lookup_empty in F1, F2. cbn [from_option id app] in F1.
  symmetry. apply option_list_eq.
  - rewrite E2. destruct ((readLines lines).1 !! key) as [values|].
    + split; [by eexists|]. intros _. right.
      destruct F2 as [[[? [=]]|Hline] _]; [by eexists|done].
    + split; [|by left]. intros [?|Hline]; [done|].
      destruct F2 as [_ F2]. destruct F2 as [? [=]]. by right.
  - rewrite E1, <-F1. destruct ((readLines lines).1 !! key); simpl; [done|].
    by rewrite app_nil_r.
Qed.

(** Once a table file has failed to load, the program has ended. *)
Lemma loadTables_failed (tableFiles : list (TableOrder * option (list string))) :
  foldl loadTable None tableFiles = None.
Proof. induction tableFiles as [|[order file] tableFiles IH]; [done|exact IH]. Qed.

(** One turn of the loop on a file that opens. *)
Lemma loadTable_lines (substitutionMap : gmap string (list string))
    (order : TableOrder) (lines : list string) :
  loadTable (Some substitutionMap) (order, Some lines)
  = if bool_decide (Forall (λ line, len line < MaxScanTokenSize) lines)
    then Some (mergeTable substitutionMap
                 (order (readLines (TrimSpace <$> (dropCR <$> lines))).1))
    else None.
Proof.
  unfold loadTable. cbn [mbind option_bind fst snd].
  rewrite readSubstitutionTable_read.
  destruct (readLines _) as [tableMap log] eqn:E.
  case_bool_decide as Hshort; [|done].
  rewrite linesRead_short in E by done. by rewrite E.
Qed.

(** X7. When every table file opens and has only lines of less than 65536
    bytes, the table [main] builds from the files is the table
    [readSubstitutionTable] would build from the files written one after the
    other as a single file, whatever the order in which [range] visits each
    table: per key, the lists are concatenated in the order of the files.
    When a file opens but has a longer line, and when some file fails to
    load at all, the program ends and no table is built. *)
Theorem loadTables_concat (tableFiles : list (TableOrder * list string)) :
  loadTables (prod_map id Some <$> tableFiles)
  = (if bool_decide (Forall (λ line, len line < MaxScanTokenSize) (concat tableFiles.*2))
     then Some (readSubstitutionTable (Some (concat tableFiles.*2))).1.1
     else None) ∧
  (∀ files : list (TableOrder * option (list string)),
     is_Some (loadTables files) ↔
     Forall (λ tableFile, (readSubstitutionTable tableFile.2).2 = None) files).
Proof.
  split.
  - unfold loadTables.
    assert (Hfrom : ∀ before,
      Forall (λ line, len line < MaxScanTokenSize) before →
      foldl loadTable
            (Some (readLines (TrimSpace <$> (dropCR <$> before))).1)
            (prod_map id Some <$> tableFiles)
      = if bool_decide (Forall (λ line, len line < MaxScanTokenSize) (concat tableFiles.*2))
        then Some (readSubstitutionTable (Some (before ++ concat tableFiles.*2))).1.1
        else None).
    { induction tableFiles as [|[order lines] tableFiles IH]; intros before Hbefore.
      - cbn [foldl fmap list_fmap concat].
        rewrite bool_decide_true by constructor.
        by rewrite app_nil_r, readSubstitutionTable_read, linesRead_short.
      - rewrite !fmap_cons. cbn [foldl concat prod_map fst snd id].
        rewrite loadTable_lines.
        destruct (decide (Forall (λ line, len line < MaxScanTokenSize) lines))
          as [Hlines|Hlines].
        + rewrite (bool_decide_true (Forall _ lines)) by done.
          rewrite mergeTable_readLines, <-!fmap_app.
          rewrite IH by (by apply Forall_app).
          rewrite (assoc_L (++)).
          destruct (decide (Forall (λ line, len line < MaxScanTokenSize)
                              (concat tableFiles.*2))) as [Hrest|Hrest].
          * rewrite !bool_decide_true; [done|by apply Forall_app|done].
          * rewrite !bool_decide_false; [done|by intros [_ ?]%Forall_app|done].
        + rewrite (bool_decide_false (Forall _ lines)) by done.
          rewrite loadTables_failed.
          rewrite bool_decide_false; [done|by intros [? _]%Forall_app]. }
    apply (Hfrom []). constructor.
  - intros files. unfold loadTables.
    assert (Hfrom : ∀ substitutionMap,
      is_Some (foldl loadTable (Some substitutionMap) files)
      ↔ Forall (λ tableFile, (readSubstitutionTable tableFile.2).2 = None) files).
    { induction files as [|[order file] files IH]; intros substitutionMap.
      - split; [constructor|by eexists].
      - cbn [foldl]. unfold loadTable at 2. cbn [mbind option_bind fst snd].
        rewrite Forall_cons. cbn [snd].
        destruct (readSubstitutionTable file) as [[tableMap log] [err|]]; cbn [snd].
        + rewrite loadTables_failed. split; [by intros [? [=]]|by intros [[=] _]].
        + rewrite IH. naive_solver. }
    apply Hfrom.
Qed.

(** ** [decodeHexNotation] on what [$HEX[...]] notation writes *)

Lemma substring_app_l (s1 s2 : string) :
  String.substring 0 (String.length s1) (s1 +:+ s2) = s1.
Proof.
  induction s1 as [|c s1 IH]; [by destruct s2|].
  change (String c s1 +:+ s2) with (String c (s1 +:+ s2)). simpl. by rewrite IH.
Qed.

Lemma substring_app_r (s1 s2 : string) (m : nat) :
  String.substring (String.length s1) m (s1 +:+ s2) = String.substring 0 m s2.
Proof.
  induction s1 as [|c s1 IH]; [done|].
  change (String c s1 +:+ s2) with (String c (s1 +:+ s2)). simpl. by rewrite IH.
Qed.

Lemma prefix_app (p s : string) : String.prefix p (p +:+ s) = true.
Proof.
  induction p as [|c p IH]; [by destruct s|].
  change (String c p +:+ s) with (String c (p +:+ s)). simpl.
  by destruct (ascii_dec c c).
Qed.

Lemma hex_byte (c : ascii) :
  let n := N_of_ascii c in
  fromHexChar (toHexChar (n / 16)) = Some (n / 16)%N ∧
  fromHexChar (toHexChar (n mod 16)) = Some (n mod 16)%N ∧
  ascii_of_N (n / 16 * 16 + n mod 16) = c ∧
  toHexChar (n / 16) ≠ " "%char ∧ toHexChar (n mod 16) ≠ " "%char.
Proof. destruct c as [[] [] [] [] [] [] [] []]; by vm_compute. Qed.

Lemma DecodeString_EncodeToString (bytes : string) :
  DecodeString (EncodeToString bytes) = Some bytes.
Proof.
  induction bytes as [|c bytes IH]; [done|].
  destruct (hex_byte c) as (Hhi & Hlo & Hc & _).
  cbn [EncodeToString DecodeString]. cbv zeta in Hhi, Hlo, Hc.
  rewrite Hhi, Hlo. simpl. rewrite IH. simpl. by rewrite Hc.
Qed.

Lemma EncodeToString_no_space (bytes : string) :
  replaceFrom " " "" (EncodeToString bytes) 0 = EncodeToString bytes.
Proof.
  induction bytes as [|c bytes IH]; [done|].
  destruct (hex_byte c) as (_ & _ & _ & Hhi & Hlo). cbv zeta in Hhi, Hlo.
  cbn [EncodeToString]. cbv zeta.
  set (hi := toHexChar (N_of_ascii c / 16)) in *.
  set (lo := toHexChar (N_of_ascii c mod 16)) in *.
  cbn [replaceFrom String.prefix].
  destruct (ascii_dec " " hi) as [E|_]; [by destruct Hhi|].
  destruct (ascii_dec " " lo) as [E|_]; [by destruct Hlo|].
  by rewrite IH.
Qed.

(** The notation is recognised whatever stands between the brackets, if it
    is at least one byte. *)
Lemma decodeHexNotation_wrapped (inner : string) :
  inner ≠ "" →
  decodeHexNotation ("$HEX[" +:+ inner +:+ "]")
  = DecodeString (ReplaceAll inner " " "").
Proof.
  intros Hinner. unfold decodeHexNotation.
  assert (Hlen : len ("$HEX[" +:+ inner +:+ "]") = 6 + len inner).
  { rewrite !len_app. unfold len. simpl. lia. }
  assert (0 < len inner).
  { unfold len. destruct inner; [done|]. simpl. lia. }
  rewrite bool_decide_false by lia.
  assert (Hpre : HasPrefix ("$HEX[" +:+ inner +:+ "]") "$HEX[" = true)
    by apply prefix_app.
  rewrite Hpre.
  assert (Hsub : sub ("$HEX[" +:+ inner +:+ "]") 5 (len ("$HEX[" +:+ inner +:+ "]") - 1)
                 = inner).
  { unfold sub. rewrite Hlen.
    replace (Z.to_nat (6 + len inner - 1 - 5)) with (String.length inner)
      by (unfold len; lia).
    change (Z.to_nat 5) with 5%nat.
    change (String.substring 5 (String.length inner) ("$HEX[" +:+ inner +:+ "]"))
      with (String.substring 0 (String.length inner) (inner +:+ "]")).
    apply substring_app_l. }
  assert (Hsuf : HasSuffix ("$HEX[" +:+ inner +:+ "]") "]" = true).
  { unfold HasSuffix. rewrite Hlen. change (len "]") with 1.
    rewrite bool_decide_true by lia. simpl. apply bool_decide_eq_true.
    unfold sub.
    replace (Z.to_nat (6 + len inner - 1)) with (String.length ("$HEX[" +:+ inner))
      by (pose proof (len_app "$HEX[" inner) as E; unfold len in *; simpl in *; lia).
    replace (Z.to_nat (6 + len inner - (6 + len inner - 1))) with 1%nat by lia.
    change ("$HEX[" +:+ inner +:+ "]") with (("$HEX[" +:+ inner) +:+ "]").
    by rewrite substring_app_r. }
  rewrite Hsuf, Hsub. done.
Qed.

(** X8. [decodeHexNotation] inverts [$HEX[...]] notation: the two-digit
    hexadecimal notation of any sequence of at least one byte, between
    [$HEX[] and []], decodes to that sequence. The notation of the empty
    sequence, [$HEX[]], is too short to be recognised and is returned as it
    is. *)
Theorem decodeHexNotation_hexNotation (bytes : string) :
  (bytes ≠ "" → decodeHexNotation (hexNotation bytes) = Some bytes) ∧
  decodeHexNotation (hexNotation "") = Some "$HEX[]".
Proof.
  split; [|done]. intros Hbytes. unfold hexNotation.
  rewrite decodeHexNotation_wrapped by (by destruct bytes).
  unfold ReplaceAll. rewrite !bool_decide_false by (by destruct bytes).
  rewrite EncodeToString_no_space.
  apply DecodeString_EncodeToString.
Qed.

Lemma decodeHexNotation_hexNotation_witness :
  decodeHexNotation (hexNotation "A=") = Some "A=".
Proof. by apply (decodeHexNotation_hexNotation "A="). Defined.

(** ** Words in which no key occurs *)





(** ** The selections the pattern-level algorithms emit *)

Lemma elem_of_emitted_bind_l {A B} (m : M A) (f : A → M B) (e : emission) :
  e ∈ emitted m → e ∈ emitted (m ≫= f).
Proof. intros He. rewrite emitted_bind. apply elem_of_app. by left. Qed.

Lemma elem_of_emitted_bind_r {A B} (m : M A) (f : A → M B) (a : A) (e : emission) :
  result m = Done a → e ∈ emitted (f a) → e ∈ emitted (m ≫= f).
Proof. intros Hm He. rewrite emitted_bind, Hm. apply elem_of_app. by right. Qed.

Lemma elem_of_emitted_forEach {A} (l : list A) (body : A → M unit) (x : A) (e : emission) :
  x ∈ l → (∀ y, y ∈ l → returns (body y)) → e ∈ emitted (body x) →
  e ∈ emitted (forEach l body).
Proof.
  induction l as [|y l IH]; intros Hx Hret He; [by apply elem_of_nil in Hx|].
  cbn [forEach]. apply elem_of_cons in Hx as [->|Hx].
  - by apply elem_of_emitted_bind_l.
  - destruct (Hret y) as [[] Hy]; [left|].
    apply (elem_of_emitted_bind_r _ _ tt); [done|].
    apply IH; [done| |done]. intros z Hz. apply Hret. by right.
Qed.

Lemma NoDup_sortedPatterns subMap word : NoDup (sortedPatterns subMap word).
Proof. unfold sortedPatterns. rewrite merge_sort_Permutation. apply NoDup_elements. Qed.

(** The leaf for a selection is reached from every node that agrees with the
    selection on the patterns already decided. *)
Lemma generatePatterns_complete order subMap minSubstitute maxSubstitute word
    (selected : gmap string string) (rest : list string) :
  NoDup rest →
  minSubstitute ≤ Z.of_nat (size selected) ≤ maxSubstitute →
  ∀ currentSubs,
    (∀ pattern, pattern ∈ rest → currentSubs !! pattern = None) →
    currentSubs ⊆ selected →
    (∀ pattern replacement, selected !! pattern = Some replacement →
       currentSubs !! pattern = Some replacement ∨
       (pattern ∈ rest ∧ ∃ subs, subMap !! pattern = Some subs ∧ replacement ∈ subs)) →
    Emit (applySubs order word selected) (Z.of_nat (size selected))
    ∈ emitted (generatePatterns order subMap minSubstitute maxSubstitute word rest
                                currentSubs).
Proof.
  intros Hnodup Hbounds.
  induction Hnodup as [|currentPattern rest Hfresh _ IH];
    intros currentSubs Hundecided Hsub Hsel.
  - assert (currentSubs = selected) as ->.
    { apply map_eq. intros pattern.
      destruct (selected !! pattern) as [replacement|] eqn:E.
      - destruct (Hsel _ _ E) as [?|[[]%elem_of_nil _]]. done.
      - destruct (currentSubs !! pattern) as [replacement|] eqn:E'; [|done].
        rewrite (lookup_weaken _ _ _ _ E' Hsub) in E. done. }
    simpl. unfold emitLeaf. rewrite !bool_decide_false by lia. simpl.
    apply list_elem_of_singleton. done.
  - cbn [generatePatterns].
    destruct (selected !! currentPattern) as [replacement|] eqn:E.
    + destruct (Hsel _ _ E) as [Hcur|[_ (subs & Hsubs & Hin)]].
      { rewrite Hundecided in Hcur by left. done. }
      apply elem_of_emitted_bind_l.
      apply (elem_of_emitted_forEach _ _ replacement).
      * by rewrite Hsubs.
      * intros. apply generatePatterns_returns.
      * apply IH.
        -- intros pattern Hpattern. rewrite lookup_insert_ne by (by intros ->).
           apply Hundecided. by right.
        -- apply insert_subseteq_l; done.
        -- intros pattern replacement' Hpattern.
           destruct (decide (currentPattern = pattern)) as [->|Hne].
           ++ left. rewrite lookup_insert_eq. congruence.
           ++ rewrite lookup_insert_ne by done.
              destruct (Hsel _ _ Hpattern) as [?|[[?|?]%elem_of_cons ?]]; auto.
              by subst.
    + destruct (returns_forEach (default [] (subMap !! currentPattern))
                  (λ sub, generatePatterns order subMap minSubstitute maxSubstitute word
                            rest (<[currentPattern:=sub]> currentSubs)))
        as [[] Hret]; [intros; apply generatePatterns_returns|].
      apply (elem_of_emitted_bind_r _ _ tt); [done|].
      apply IH; [|done|].
      * intros pattern Hpattern. apply Hundecided. by right.
      * intros pattern replacement Hpattern.
        destruct (Hsel _ _ Hpattern) as [?|[[?|?]%elem_of_cons ?]]; auto.
        subst. rewrite E in Hpattern. done.
Qed.

(** The variants of [processWordSubstituteAll]. *)
Lemma processWordSubstituteAll_variants
    (order : RangeOrder) (subMap : gmap string (list string))
    (minSubstitute maxSubstitute : Z) (word : string) (e : emission) :
  e ∈ emitted (processWordSubstituteAll order subMap minSubstitute maxSubstitute word) ↔
  ∃ selected : gmap string string,
    (∀ pattern replacement, selected !! pattern = Some replacement →
       pattern ∈ sortedPatterns subMap word ∧
       ∃ subs, subMap !! pattern = Some subs ∧ replacement ∈ subs) ∧
    minSubstitute ≤ Z.of_nat (size selected) ≤ maxSubstitute ∧
    e = Emit (applyInOrder word (order selected)) (Z.of_nat (size selected)).
Proof.
  split.
  - intros He.
    pose proof (generatePatterns_selection order subMap minSubstitute maxSubstitute
                  word (sortedPatterns subMap word) ∅) as Hsel.
    pose proof (generatePatterns_bounds order subMap minSubstitute maxSubstitute
                  word (sortedPatterns subMap word) ∅) as Hbounds.
    unfold emits in Hsel, Hbounds. rewrite Forall_forall in Hsel, Hbounds.
    destruct (Hsel e He) as (selected & [Hcount Hvariant] & Hfrom).
    specialize (Hbounds e He). unfold withinBounds in Hbounds.
    exists selected. split_and!.
    + intros pattern replacement [Hempty|H]%Hfrom; [|done].
      by rewrite lookup_empty in Hempty.
    + lia.
    + lia.
    + destruct e. simpl in *. by subst.
  - intros (selected & Hsel & Hbounds & ->).
    apply generatePatterns_complete; [apply NoDup_sortedPatterns|done|done| |].
    + apply map_empty_subseteq.
    + intros pattern replacement H. right. by apply Hsel.
Qed.

(** X10. [processWordSubstituteAll] explores the whole power set: it emits
    exactly the selections that bind patterns occurring in the word, each to
    one of its replacement options, and whose number of patterns lies within
    [[min, max]]; every such selection is emitted, with that number as its
    count and the result of [range]-applying it as its variant. *)
Theorem processWordSubstituteAll_selections
    (order : RangeOrder) (subMap : gmap string (list string))
    (minSubstitute maxSubstitute : Z) (word : string) (e : emission) :
  e ∈ emitted (processWordSubstituteAll order subMap minSubstitute maxSubstitute word) ↔
  ∃ selected : gmap string string,
    (∀ pattern replacement, selected !! pattern = Some replacement →
       pattern ∈ sortedPatterns subMap word ∧
       ∃ subs, subMap !! pattern = Some subs ∧ replacement ∈ subs) ∧
    minSubstitute ≤ Z.of_nat (size selected) ≤ maxSubstitute ∧
    e = Emit (applyInOrder word (order selected)) (Z.of_nat (size selected)).
Proof. exact (processWordSubstituteAll_variants order subMap minSubstitute maxSubstitute word e). Qed.

Lemma firstSubs_snoc subMap patterns pattern :
  firstSubs subMap (patterns ++ [pattern]) =
  match subMap !! pattern with
  | Some (sub0 :: _) => <[ pattern := sub0 ]> (firstSubs subMap patterns)
  | _ => firstSubs subMap patterns
  end.
Proof. unfold firstSubs. by rewrite foldl_app. Qed.

(** [allSubs] binds each pattern that has options to the first of them. *)
Lemma firstSubs_lookup subMap patterns pattern replacement :
  firstSubs subMap patterns !! pattern = Some replacement ↔
  pattern ∈ patterns ∧ ∃ others, subMap !! pattern = Some (replacement :: others).
Proof.
  induction patterns as [|last patterns IH] using rev_ind.
  - unfold firstSubs. simpl. rewrite lookup_empty, elem_of_nil. naive_solver.
  - rewrite firstSubs_snoc, elem_of_app, list_elem_of_singleton.
    destruct (decide (last = pattern)) as [->|Hne].
    + destruct (subMap !! pattern) as [[|sub0 others]|] eqn:E.
      * rewrite IH. naive_solver.
      * rewrite lookup_insert_eq. naive_solver.
      * rewrite IH. naive_solver.
    + destruct (subMap !! last) as [[|sub0 others]|] eqn:E;
        rewrite ?lookup_insert_ne by done; rewrite IH; naive_solver.
Qed.

Lemma generateSubsets_subsets order minSubstitute maxSubstitute word rest :
  (∀ currentSubs,
      emits (λ e, ∃ selected, selected ⊆ currentSubs ∧ sentFor order word selected e)
          (generateSubsets order minSubstitute maxSubstitute word rest currentSubs)) ∧
  (∀ currentSubs,
      emits (λ e, ∃ selected, selected ⊆ currentSubs ∧ sentFor order word selected e)
          (removeEach order minSubstitute maxSubstitute word currentSubs rest)).
Proof.
  assert (Hbody : ∀ rest,
    (∀ currentSubs,
        emits (λ e, ∃ selected, selected ⊆ currentSubs ∧ sentFor order word selected e)
          (removeEach order minSubstitute maxSubstitute word currentSubs rest)) →
    ∀ currentSubs,
        emits (λ e, ∃ selected, selected ⊆ currentSubs ∧ sentFor order word selected e)
          (generateSubsets order minSubstitute maxSubstitute word rest currentSubs)).
  { intros l Hloop currentSubs. rewrite generateSubsets_unfold. cbv zeta.
    case_bool_decide; [apply emits_ret|].
    apply emits_bind; [case_bool_decide; [|apply emits_ret]|intros _ _].
    - apply emits_send. by exists currentSubs.
    - case_bool_decide; [apply emits_ret|apply Hloop]. }
  induction rest as [|pattern rest [IHgen IHloop]].
  - assert (∀ currentSubs,
        emits (λ e, ∃ selected, selected ⊆ currentSubs ∧ sentFor order word selected e)
          (removeEach order minSubstitute maxSubstitute word currentSubs []))
      by (intros; apply emits_ret).
    auto.
  - assert (∀ currentSubs,
        emits (λ e, ∃ selected, selected ⊆ currentSubs ∧ sentFor order word selected e)
          (removeEach order minSubstitute maxSubstitute word currentSubs (pattern :: rest))).
    { intros currentSubs. cbn [removeEach].
      apply emits_bind; [|intros _ _; apply IHloop].
      case_bool_decide; [|apply emits_ret].
      eapply Forall_impl; [apply IHgen|]. simpl.
      intros e (selected & Hsub & Hsent). exists selected. split; [|done].
      etrans; [done|]. apply delete_subseteq. }
    auto.
Qed.

(** Every subset of the current selection that keeps the patterns no longer
    open to removal is reached. *)
Lemma generateSubsets_complete order minSubstitute maxSubstitute word
    (selected : gmap string string) (rest : list string) :
  minSubstitute ≤ Z.of_nat (size selected) ≤ maxSubstitute →
  (∀ currentSubs,
      selected ⊆ currentSubs →
      (∀ pattern, is_Some (currentSubs !! pattern) → selected !! pattern = None →
         pattern ∈ rest) →
      Emit (applySubs order word selected) (Z.of_nat (size selected))
      ∈ emitted (generateSubsets order minSubstitute maxSubstitute word rest currentSubs)) ∧
  (∀ currentSubs,
      selected ⊆ currentSubs → currentSubs ≠ selected →
      (∀ pattern, is_Some (currentSubs !! pattern) → selected !! pattern = None →
         pattern ∈ rest) →
      Emit (applySubs order word selected) (Z.of_nat (size selected))
      ∈ emitted (removeEach order minSubstitute maxSubstitute word currentSubs rest)).
Proof.
  intros Hbounds.
  assert (Hbody : ∀ rest,
    (∀ currentSubs,
      selected ⊆ currentSubs → currentSubs ≠ selected →
      (∀ pattern, is_Some (currentSubs !! pattern) → selected !! pattern = None →
         pattern ∈ rest) →
      Emit (applySubs order word selected) (Z.of_nat (size selected))
      ∈ emitted (removeEach order minSubstitute maxSubstitute word currentSubs rest)) →
    ∀ currentSubs,
      selected ⊆ currentSubs →
      (∀ pattern, is_Some (currentSubs !! pattern) → selected !! pattern = None →
         pattern ∈ rest) →
      Emit (applySubs order word selected) (Z.of_nat (size selected))
      ∈ emitted (generateSubsets order minSubstitute maxSubstitute word rest currentSubs)).
  { intros l Hloop currentSubs Hsub Hopen. rewrite generateSubsets_unfold. cbv zeta.
    destruct (decide (currentSubs = selected)) as [->|Hne].
    - rewrite bool_decide_false by lia. apply elem_of_emitted_bind_l.
      rewrite bool_decide_true by lia. simpl. by apply list_elem_of_singleton.
    - assert (size selected < size currentSubs)%nat.
      { apply map_subset_size. split; [done|]. intros Hsup. apply Hne.
        by apply (anti_symm (⊆)). }
      rewrite bool_decide_false by lia.
      apply (elem_of_emitted_bind_r _ _ tt);
        [by case_bool_decide|].
      rewrite bool_decide_false by lia. by apply Hloop. }
  induction rest as [|pattern rest [IHgen IHloop]].
  - assert (Hloop : ∀ currentSubs,
      selected ⊆ currentSubs → currentSubs ≠ selected →
      (∀ pattern, is_Some (currentSubs !! pattern) → selected !! pattern = None →
         pattern ∈ []) →
      Emit (applySubs order word selected) (Z.of_nat (size selected))
      ∈ emitted (removeEach order minSubstitute maxSubstitute word currentSubs [])).
    { intros currentSubs Hsub Hne Hopen. destruct Hne. apply (anti_symm (⊆)); [|done].
      apply map_subseteq_spec. intros key value Hkey.
      destruct (selected !! key) as [value'|] eqn:E.
      - by rewrite (lookup_weaken _ _ _ _ E Hsub) in Hkey.
      - by pose proof (Hopen key (mk_is_Some _ _ Hkey) E) as []%elem_of_nil. }
    auto.
  - assert (Hloop : ∀ currentSubs,
      selected ⊆ currentSubs → currentSubs ≠ selected →
      (∀ pattern', is_Some (currentSubs !! pattern') → selected !! pattern' = None →
         pattern' ∈ pattern :: rest) →
      Emit (applySubs order word selected) (Z.of_nat (size selected))
      ∈ emitted (removeEach order minSubstitute maxSubstitute word currentSubs
                            (pattern :: rest))).
    { intros currentSubs Hsub Hne Hopen. cbn [removeEach].
      destruct (decide (is_Some (currentSubs !! pattern) ∧ selected !! pattern = None))
        as [[Hcur Hsel]|Hkeep].
      - apply elem_of_emitted_bind_l. rewrite bool_decide_true by done.
        apply IHgen.
        + apply map_subseteq_spec. intros key value Hkey.
          rewrite lookup_delete_ne by (intros ->; congruence).
          by apply (lookup_weaken _ _ _ _ Hkey Hsub).
        + intros key Hkey Hnone.
          destruct (decide (pattern = key)) as [->|Hother].
          { rewrite lookup_delete_eq in Hkey. by destruct Hkey. }
          rewrite lookup_delete_ne in Hkey by done.
          pose proof (Hopen key Hkey Hnone) as [->|?]%elem_of_cons; done.
      - assert (returns (if bool_decide (is_Some (currentSubs !! pattern))
                         then generateSubsets order minSubstitute maxSubstitute word rest
                                              (delete pattern currentSubs)
                         else mret tt)) as [[] Hret].
        { case_bool_decide; [apply generateSubsets_returns|apply returns_ret]. }
        apply (elem_of_emitted_bind_r _ _ tt); [done|].
        apply IHloop; [done|done|].
        intros key Hkey Hnone.
        pose proof (Hopen key Hkey Hnone) as [->|?]%elem_of_cons; [|done].
        destruct Hkeep. done. }
    auto.
Qed.

(** The variants of [processWordSubstituteAllReverse]. *)
Lemma processWordSubstituteAllReverse_variants
    (order : RangeOrder) (subMap : gmap string (list string))
    (minSubstitute maxSubstitute : Z) (word : string) (e : emission) :
  e ∈ emitted (processWordSubstituteAllReverse order subMap minSubstitute maxSubstitute
                                               word) ↔
  ∃ selected : gmap string string,
    (∀ pattern replacement, selected !! pattern = Some replacement →
       pattern ∈ sortedPatterns subMap word ∧
       ∃ others, subMap !! pattern = Some (replacement :: others)) ∧
    minSubstitute ≤ Z.of_nat (size selected) ≤ maxSubstitute ∧
    e = Emit (applyInOrder word (order selected)) (Z.of_nat (size selected)).
Proof.
  unfold processWordSubstituteAllReverse. cbv zeta. split.
  - intros He. case_bool_decide; [by apply elem_of_nil in He|].
    pose proof (proj1 (generateSubsets_subsets order minSubstitute maxSubstitute word
                  (sortedPatterns subMap word))
                  (firstSubs subMap (sortedPatterns subMap word))) as Hsel.
    pose proof (proj1 (generateSubsets_bounds order minSubstitute maxSubstitute word
                  (sortedPatterns subMap word))
                  (firstSubs subMap (sortedPatterns subMap word))) as Hbounds.
    unfold emits in Hsel, Hbounds. rewrite Forall_forall in Hsel, Hbounds.
    destruct (Hsel e He) as (selected & Hsub & [Hcount Hvariant]).
    specialize (Hbounds e He). unfold withinBounds in Hbounds.
    exists selected. split_and!.
    + intros pattern replacement Hpattern. apply firstSubs_lookup.
      by apply (lookup_weaken _ _ _ _ Hpattern Hsub).
    + lia.
    + lia.
    + destruct e. simpl in *. by subst.
  - intros (selected & Hsel & Hbounds & ->).
    assert (Hsub : selected ⊆ firstSubs subMap (sortedPatterns subMap word)).
    { apply map_subseteq_spec. intros pattern replacement Hpattern.
      apply firstSubs_lookup. by apply Hsel. }
    assert (Hdom : ∀ pattern,
      is_Some (firstSubs subMap (sortedPatterns subMap word) !! pattern) →
      pattern ∈ sortedPatterns subMap word).
    { intros pattern [replacement H]. by apply firstSubs_lookup in H as [? _]. }
    assert (size (firstSubs subMap (sortedPatterns subMap word))
            ≤ length (sortedPatterns subMap word))%nat.
    { rewrite <- size_dom, <- (size_list_to_set (C:=gset string))
        by apply NoDup_sortedPatterns.
      apply subseteq_size. intros pattern Hpattern%elem_of_dom.
      apply elem_of_list_to_set. by apply Hdom. }
    pose proof (map_subseteq_size _ _ Hsub).
    rewrite bool_decide_false by lia.
    apply generateSubsets_complete; auto.
Qed.

(** X11. [processWordSubstituteAllReverse] emits exactly the selections that
    bind patterns occurring in the word, each to the FIRST of its replacement
    options, and whose number of patterns lies within [[min, max]]: later
    options of a pattern are never used, and every such selection is
    emitted. *)
Theorem processWordSubstituteAllReverse_selections
    (order : RangeOrder) (subMap : gmap string (list string))
    (minSubstitute maxSubstitute : Z) (word : string) (e : emission) :
  e ∈ emitted (processWordSubstituteAllReverse order subMap minSubstitute maxSubstitute
                                               word) ↔
  ∃ selected : gmap string string,
    (∀ pattern replacement, selected !! pattern = Some replacement →
       pattern ∈ sortedPatterns subMap word ∧
       ∃ others, subMap !! pattern = Some (replacement :: others)) ∧
    minSubstitute ≤ Z.of_nat (size selected) ≤ maxSubstitute ∧
    e = Emit (applyInOrder word (order selected)) (Z.of_nat (size selected)).
Proof. exact (processWordSubstituteAllReverse_variants order subMap minSubstitute maxSubstitute word e). Qed.

(** ** The number and the order of the combinations *)

Lemma binomial_above (n k : nat) : (n < k)%nat → binomial n k = 0%nat.
Proof.
  revert k. induction n as [|n IH]; intros [|k] Hlt; try lia; simpl; [done|].
  rewrite !IH by lia. done.
Qed.

(** The sum the loop [for i := n-1; i >= k-1; i--] accumulates. *)
Lemma binomial_column {A} (f : Z → list A) (k : nat) :
  (∀ i, 0 ≤ i → length (f i) = binomial (Z.to_nat i) k) →
  ∀ m : nat,
    length (reverse (seqZ (Z.of_nat k) (Z.of_nat m)) ≫= f) = binomial (k + m) (S k).
Proof.
  intros Hf. induction m as [|m IH].
  - rewrite Nat.add_0_r, binomial_above by lia. done.
  - rewrite seqZ_S, reverse_snoc, bind_cons, length_app, IH, Hf by lia.
    replace (Z.to_nat (Z.of_nat k + Z.of_nat m)) with (k + m)%nat by lia.
    replace (k + S m)%nat with (S (k + m)) by lia. done.
Qed.

Lemma generateCombinations_listing (k : nat) :
  ∀ fuel n, (k < fuel)%nat →
    ∃ combos,
      generateCombinations fuel n (Z.of_nat k) = ([], Done combos) ∧
      length combos = binomial (Z.to_nat n) k ∧
      StronglySorted lexGt combos.
Proof.
  induction k as [|k IH]; intros [|fuel] n Hfuel; try lia;
    rewrite generateCombinations_unfold by (unfold minInt64; lia).
  - exists [[]]. split; [done|]. split; [by destruct (Z.to_nat n)|].
    repeat constructor.
  - case_bool_decide; [lia|]. case_bool_decide as Hn.
    + exists []. split; [done|]. split; [|constructor].
      rewrite binomial_above by lia. done.
    + replace (Z.of_nat (S k) - 1) with (Z.of_nat k) by lia.
      set (c := λ i, match result (generateCombinations fuel i (Z.of_nat k)) with
                     | Done combos => combos | _ => [] end).
      assert (Hc : ∀ i, generateCombinations fuel i (Z.of_nat k) = ([], Done (c i)) ∧
                        length (c i) = binomial (Z.to_nat i) k ∧
                        StronglySorted lexGt (c i)).
      { intros i. destruct (IH fuel i) as (combos & E & ?); [lia|].
        unfold c. rewrite E. done. }
      rewrite (foldM_collect _ (λ i subCombos, (λ sub, i :: sub) <$> subCombos) c);
        [|intros; apply Hc].
      eexists. split; [done|]. simpl. split.
      * replace (n - 1 - Z.of_nat k + 1) with (Z.of_nat (Z.to_nat n - k)) by lia.
        rewrite binomial_column.
        -- f_equal. lia.
        -- intros i _. rewrite length_fmap. apply Hc.
      * apply (StronglySorted_bind (flip Z.lt)).
        -- apply StronglySorted_flip_reverse, StronglySorted_seqZ.
        -- intros i _. destruct (Hc i) as (_ & _ & Hsorted).
           induction Hsorted as [|sub subCombos _ IHsorted Hsub]; [constructor|].
           csimpl. constructor; [done|].
           apply Forall_fmap. eapply Forall_impl; [done|]. simpl. auto.
        -- intros x y a b Hxy (sub1 & -> & _)%list_elem_of_fmap
             (sub2 & -> & _)%list_elem_of_fmap.
           unfold flip in Hxy. simpl. lia.
Qed.

(** X12. For [k >= 0], [generateCombinations(n, k)] returns [n] choose [k]
    combinations (none for a negative [n] unless [k = 0]), listed in strictly
    decreasing lexicographic order: the combinations with the largest first
    index come first. *)
Theorem generateCombinations_count_and_order (n k : Z) (fuel : nat) :
  0 ≤ k → (Z.to_nat k < fuel)%nat →
  ∃ combos : list (list Z),
    generateCombinations fuel n k = ([], Done combos) ∧
    length combos = binomial (Z.to_nat n) (Z.to_nat k) ∧
    StronglySorted lexGt combos.
Proof.
  intros Hk Hfuel.
  destruct (generateCombinations_listing (Z.to_nat k) fuel n Hfuel) as (combos & E & H).
  rewrite Z2Nat.id in E by done. by exists combos.
Qed.

Lemma generateCombinations_count_and_order_witness :
  0 ≤ 2 ∧ (Z.to_nat 2 < 3)%nat ∧
  ∃ combos : list (list Z),
    generateCombinations 3 4 2 = ([], Done combos) ∧
    length combos = binomial (Z.to_nat 4) (Z.to_nat 2) ∧
    StronglySorted lexGt combos.
Proof.
  split; [lia|]. split; [simpl; lia|].
  apply (generateCombinations_count_and_order 4 2 3); [lia|simpl; lia].
Defined.

(** ** The reverse occurrence algorithm on length-preserving tables *)

Lemma substring_append_l (s1 s2 : string) :
  ∀ n m, (n + m ≤ String.length s1)%nat →
    String.substring n m (s1 +:+ s2) = String.substring n m s1.
Proof.
  induction s1 as [|c s1 IH]; intros n m Hle.
  - simpl in Hle. assert (n = 0%nat) as -> by lia. assert (m = 0%nat) as -> by lia.
    by destruct s2.
  - change (String c s1 +:+ s2) with (String c (s1 +:+ s2)).
    destruct n as [|n]; simpl in *.
    + destruct m as [|m]; [done|]. by rewrite IH by lia.
    + apply IH. lia.
Qed.

Lemma substring_append_r (s1 s2 : string) (n m : nat) :
  String.substring (String.length s1 + n) m (s1 +:+ s2) = String.substring n m s2.
Proof.
  induction s1 as [|c s1 IH]; [done|].
  change (String c s1 +:+ s2) with (String c (s1 +:+ s2)). simpl. by rewrite IH.
Qed.

Lemma substring_split (s : string) :
  ∀ n m1 m2,
    String.substring n (m1 + m2) s
    = String.substring n m1 s +:+ String.substring (n + m1) m2 s.
Proof.
  induction s as [|c s IH]; intros n m1 m2.
  - by destruct n, m1, m2.
  - destruct n as [|n]; [|apply IH].
    destruct m1 as [|m1]; [done|]. simpl.
    change (String c ?p +:+ ?q) with (String c (p +:+ q)).
    f_equal. apply (IH 0%nat).
Qed.

Lemma substring_of_prefix (s : string) :
  ∀ n m k, (n + m ≤ k)%nat →
    String.substring n m (String.substring 0 k s) = String.substring n m s.
Proof.
  induction s as [|c s IH]; intros n m k Hle.
  - by destruct k.
  - destruct k as [|k].
    { assert (n = 0%nat) as -> by lia. assert (m = 0%nat) as -> by lia. done. }
    simpl. destruct n as [|n].
    + destruct m as [|m]; [done|]. f_equal. apply IH. lia.
    + apply IH. lia.
Qed.

Lemma substring_all (s : string) : String.substring 0 (String.length s) s = s.
Proof. induction s as [|c s IH]; simpl; [done|]. by rewrite IH. Qed.

Lemma sub_app_l (s1 s2 : string) (lo hi : Z) :
  0 ≤ lo → lo ≤ hi → hi ≤ len s1 → sub (s1 +:+ s2) lo hi = sub s1 lo hi.
Proof. unfold sub, len. intros. apply substring_append_l. lia. Qed.

Lemma sub_join (w : string) (a b c : Z) :
  0 ≤ a → a ≤ b → b ≤ c → sub w a b +:+ sub w b c = sub w a c.
Proof.
  unfold sub. intros.
  replace (Z.to_nat (c - a)) with (Z.to_nat (b - a) + Z.to_nat (c - b))%nat by lia.
  rewrite substring_split. do 2 f_equal. lia.
Qed.

Lemma sub_of_prefix (w : string) (lo hi k : Z) :
  0 ≤ lo → lo ≤ hi → hi ≤ k → sub (sub w 0 k) lo hi = sub w lo hi.
Proof.
  unfold sub. intros. rewrite Z.sub_0_r. change (Z.to_nat 0) with 0%nat.
  apply substring_of_prefix. lia.
Qed.

Lemma sub_all (w : string) : sub w 0 (len w) = w.
Proof.
  unfold sub, len. rewrite Z.sub_0_r, Nat2Z.id. apply substring_all.
Qed.

Lemma sub_app_tail (s1 s2 : string) (lo : Z) :
  0 ≤ lo → lo ≤ len s1 →
  sub (s1 +:+ s2) lo (len (s1 +:+ s2)) = sub s1 lo (len s1) +:+ s2.
Proof.
  intros. rewrite len_app.
  assert (0 ≤ len s2) by (unfold len; lia).
  rewrite <-(sub_join _ lo (len s1)) by lia.
  rewrite sub_app_l by lia. f_equal.
  unfold sub, len.
  replace (Z.to_nat (Z.of_nat (String.length s1)))
    with (String.length s1 + 0)%nat by lia.
  rewrite substring_append_r.
  replace (Z.to_nat _) with (String.length s2) by lia.
  apply substring_all.
Qed.

(** Replacing the rightmost span first does not disturb what lies to its
    left. *)
Lemma replaceSpans_spec_snoc (w : string) (p : position) (sub0 : string)
    (others : list string) :
  0 ≤ start p → 0 ≤ keyLength p → start p + keyLength p ≤ len w →
  subs p = sub0 :: others →
  ∀ l c,
    0 ≤ c →
    StronglySorted (λ q q', start q + keyLength q ≤ start q') l →
    Forall (λ q, c ≤ start q ∧ 0 ≤ keyLength q ∧ start q + keyLength q ≤ start p) l →
    c ≤ start p →
    replaceSpans_spec
      (sub w 0 (start p) +:+ sub0 +:+ sub w (start p + keyLength p) (len w)) c l
    = replaceSpans_spec w c (l ++ [p]).
Proof.
  intros Hs Hk Hend Hsubs.
  assert (Hpre : len (sub w 0 (start p)) = start p) by (rewrite len_sub; lia).
  induction l as [|q l IH]; intros c Hc Hsorted Hall Hcp.
  - simpl. rewrite Hsubs. simpl.
    rewrite sub_app_tail by lia. rewrite Hpre.
    rewrite sub_of_prefix by lia. done.
  - apply Forall_cons in Hall as [(Hq1 & Hq2 & Hq3) Hall].
    inversion Hsorted as [|?? Hsorted' Hhead]; subst.
    cbn [replaceSpans_spec app].
    rewrite sub_app_l by lia. rewrite sub_of_prefix by lia.
    rewrite IH; [done|lia|done| |lia].
    rewrite Forall_forall in Hall, Hhead. apply Forall_forall.
    intros q' Hq'. specialize (Hall q' Hq'). specialize (Hhead q' Hq'). simpl in Hhead. lia.
Qed.

(** The loop [for _, idx := range combo] on occurrences taken from right to
    left, when each replacement has the length of what it replaces: [offset]
    stays [0], and every span is replaced where it stands. *)
Lemma applyAt_fold (positions : list position) :
  ∀ combo selected,
    Forall2 (λ idx pos, 0 ≤ idx ∧ positions !! Z.to_nat idx = Some pos) combo selected →
    StronglySorted (λ p q, start q + keyLength q ≤ start p) selected →
    ∀ w,
      Forall (λ p, 0 ≤ start p ∧ 0 ≤ keyLength p ∧ start p + keyLength p ≤ len w ∧
                   ∃ sub0 others, subs p = sub0 :: others ∧ len sub0 = keyLength p)
             selected →
      foldM (applyAt positions) (w, 0) combo
      = mret (replaceSpans_spec w 0 (reverse selected), 0).
Proof.
  induction 1 as [|idx p combo selected [Hidx Hp] _ IH]; intros Hsorted w Hall.
  - simpl. by rewrite sub_all.
  - apply Forall_cons in Hall as [(Hs & Hk & Hend & sub0 & others & Hsubs & Hlen) Hall].
    inversion Hsorted as [|?? Hsorted' Hhead]; subst.
    set (w1 := sub w 0 (start p) +:+ sub0 +:+ sub w (start p + keyLength p) (len w)).
    assert (Hw1 : len w1 = len w).
    { unfold w1. rewrite !len_app, !len_sub by lia. lia. }
    assert (Hstep : applyAt positions (w, 0) idx = mret (w1, 0)).
    { unfold applyAt. rewrite (index_lookup positions idx p) by done.
      rewrite (bind_done (mret p) _ p) by done.
      rewrite Hsubs. change (index (sub0 :: others) 0) with (mret (M:=M) sub0).
      rewrite (bind_done (mret sub0) _ sub0) by done.
      rewrite Z.add_0_r.
      rewrite (slice_inRange w 0 (start p)) by lia.
      rewrite (bind_done (mret _) _ (sub w 0 (start p))) by done.
      rewrite (slice_inRange w (start p + keyLength p) (len w)) by lia.
      rewrite (bind_done (mret _) _ (sub w (start p + keyLength p) (len w))) by done.
      rewrite Hlen. by replace (0 + (keyLength p - keyLength p)) with 0 by lia. }
    cbn [foldM]. rewrite (bind_done _ _ (w1, 0) Hstep).
    rewrite IH; [|done|].
    + rewrite reverse_cons. unfold w1.
      rewrite (replaceSpans_spec_snoc w p sub0 others); [done|done..|lia| | |lia].
      * apply (StronglySorted_flip_reverse _ _ Hsorted').
      * apply Forall_reverse. rewrite Forall_forall in Hall, Hhead. apply Forall_forall.
        intros q Hq. specialize (Hhead q Hq). simpl in Hhead.
        destruct (Hall q Hq) as (? & ? & ? & _). lia.
    + rewrite Hw1. done.
Qed.

Lemma StronglySorted_weaken {A} (R1 R2 : relation A) (l : list A) :
  (∀ x y, R1 x y → R2 x y) → StronglySorted R1 l → StronglySorted R2 l.
Proof.
  intros HR. induction 1 as [|x l _ IH Hx]; constructor; [done|].
  eapply Forall_impl; [done|]. auto.
Qed.

Lemma StronglySorted_lookup_lt {A} (R : relation A) (l : list A) :
  StronglySorted R l →
  ∀ i j x y, l !! i = Some x → l !! j = Some y → (i < j)%nat → R x y.
Proof.
  induction 1 as [|z l _ IH Hz]; intros i j x y Hi Hj Hlt; [done|].
  destruct j as [|j]; [lia|]. destruct i as [|i]; simpl in *.
  - injection Hi as ->. rewrite Forall_forall in Hz. apply Hz.
    by eapply list_elem_of_lookup_2.
  - apply (IH i j); (done || lia).
Qed.

(** [validSubstitutionPositions] on the occurrences a combination selects. *)
Lemma validSubstitutionPositions_selected positions combo selected :
  Forall2 (λ idx pos, 0 ≤ idx ∧ positions !! Z.to_nat idx = Some pos) combo selected →
  validSubstitutionPositions combo positions
  = mret (disjointSorted (sortByStart (intervalOf <$> selected))).
Proof.
  intros Hsel. unfold validSubstitutionPositions.
  assert (Hfold : ∀ acc,
    foldM (λ intervals idx,
             pos ← index positions idx;
             mret (intervals ++ [(start pos, start pos + keyLength pos - 1)]))
          acc combo
    = mret (acc ++ (intervalOf <$> selected))).
  { induction Hsel as [|idx pos combo selected [Hidx Hpos] _ IH]; intros acc.
    - simpl. by rewrite app_nil_r.
    - cbn [foldM]. rewrite (index_lookup positions idx pos) by done.
      rewrite (bind_done (mret pos ≫= _) _ (acc ++ [intervalOf pos])).
      + rewrite IH. csimpl. by rewrite <-(assoc_L (++)).
      + by rewrite (bind_done (mret pos) _ pos). }
  rewrite Hfold. by rewrite (bind_done (mret _) _ _ eq_refl).
Qed.

Lemma disjointSorted_sortByStart (intervals : list (Z * Z)) :
  Forall (λ a, a.1 ≤ a.2) intervals →
  disjointSorted (sortByStart intervals) = true ↔ pairwiseApart intervals.
Proof.
  intros Hne. unfold sortByStart. rewrite disjointSorted_pairwiseApart.
  - split; apply pairwiseApart_Permutation; [|symmetry]; apply merge_sort_Permutation.
  - apply StronglySorted_merge_sort; apply _.
  - by rewrite merge_sort_Permutation.
Qed.

Lemma select_exists {A} (positions : list A) (combo : list Z) :
  Forall (λ idx, 0 ≤ idx < Z.of_nat (length positions)) combo →
  ∃ selected,
    Forall2 (λ idx pos, 0 ≤ idx ∧ positions !! Z.to_nat idx = Some pos) combo selected.
Proof.
  induction 1 as [|idx combo Hidx _ [selected Hsel]]; [by exists []|].
  destruct (lookup_lt_is_Some_2 positions (Z.to_nat idx)) as [pos Hpos]; [lia|].
  exists (pos :: selected). constructor; [split; [lia|done]|done].
Qed.

(** A descending combination selects occurrences from right to left. *)
Lemma selected_right_to_left (positions : list position) combo selected :
  StronglySorted positionLt positions →
  Forall2 (λ idx pos, 0 ≤ idx ∧ positions !! Z.to_nat idx = Some pos) combo selected →
  descending combo →
  StronglySorted (flip positionLt) selected.
Proof.
  intros Hpositions Hsel. induction Hsel as [|idx pos combo selected [Hidx Hpos] Hsel IH];
    intros Hdesc; [constructor|].
  inversion Hdesc as [|?? Hdesc' Hhead]; subst. constructor; [by apply IH|].
  apply Forall_forall. intros q Hq.
  apply list_elem_of_lookup in Hq as [i Hi].
  destruct (Forall2_lookup_r _ _ _ _ _ Hsel Hi) as (idx' & Hidx' & Hidx'0 & Hq).
  rewrite Forall_forall in Hhead.
  pose proof (Hhead idx' (list_elem_of_lookup_2 _ _ _ Hidx')).
  unfold flip. apply (StronglySorted_lookup_lt _ _ Hpositions _ _ _ _ Hq Hpos). lia.
Qed.

Lemma apart_right_to_left (selected : list position) :
  StronglySorted (flip positionLt) selected →
  Forall (λ p, 1 ≤ keyLength p) selected →
  pairwiseApart (intervalOf <$> selected) →
  StronglySorted (λ p q, start q + keyLength q ≤ start p) selected.
Proof.
  induction 1 as [|p selected _ IH Hp]; intros Hkeys Hapart; [constructor|].
  apply Forall_cons in Hkeys as [Hk Hkeys]. destruct Hapart as [Hhead Hapart].
  constructor; [by apply IH|].
  rewrite Forall_fmap in Hhead. rewrite Forall_forall in Hp, Hkeys, Hhead.
  apply Forall_forall. intros q Hq.
  specialize (Hp q Hq). specialize (Hkeys q Hq). specialize (Hhead q Hq).
  unfold flip, positionLt in Hp. unfold apart, intervalOf in Hhead. simpl in Hhead. lia.
Qed.

(** The indices, in [positions], of occurrences listed from left to right. *)
Lemma indices_exist (positions selected : list position) :
  StronglySorted positionLt positions →
  StronglySorted positionLt selected →
  Forall (λ pos, pos ∈ positions) selected →
  ∃ combo,
    Forall2 (λ idx pos, 0 ≤ idx ∧ positions !! Z.to_nat idx = Some pos) combo selected ∧
    StronglySorted Z.lt combo ∧
    Forall (λ idx, 0 ≤ idx < Z.of_nat (length positions)) combo.
Proof.
  intros Hpositions. induction 1 as [|p selected _ IH Hp]; intros Hin.
  - exists []. repeat constructor.
  - apply Forall_cons in Hin as [Hpin Hin].
    destruct (IH Hin) as (combo & Hsel & Hsorted & Hrange).
    apply list_elem_of_lookup in Hpin as [i Hi].
    exists (Z.of_nat i :: combo). split_and!.
    + constructor; [|done]. split; [lia|]. by rewrite Nat2Z.id.
    + constructor; [done|]. apply Forall_forall. intros idx Hidx.
      apply list_elem_of_lookup in Hidx as [j Hj].
      destruct (Forall2_lookup_l _ _ _ _ _ Hsel Hj) as (q & Hq & Hidx0 & Hlook).
      rewrite Forall_forall in Hp.
      pose proof (Hp q (list_elem_of_lookup_2 _ _ _ Hq)) as Hpq.
      destruct (decide (Z.of_nat i < idx)) as [|Hge]; [done|].
      destruct (decide (Z.to_nat idx = i)) as [Heq|Hne].
      * rewrite Heq, Hi in Hlook. injection Hlook as ->.
        unfold positionLt in Hpq. lia.
      * assert (positionLt q p) as Hqp.
        { apply (StronglySorted_lookup_lt _ _ Hpositions _ _ _ _ Hlook Hi). lia. }
        unfold positionLt in Hpq, Hqp. lia.
    + constructor; [|done]. apply lookup_lt_Some in Hi. lia.
Qed.

(** What [processWordReverse] does with one combination. *)
Lemma combination_run subMap word (positions : list position) combo selected :
  firstOptionKeepsLength subMap →
  (∀ pos, pos ∈ positions → occursIn subMap word pos) →
  Forall2 (λ idx pos, 0 ≤ idx ∧ positions !! Z.to_nat idx = Some pos) combo selected →
  StronglySorted (flip positionLt) selected →
  ∃ valid : bool,
    (valid = true ↔ pairwiseApart (intervalOf <$> selected)) ∧
    (valid ← validSubstitutionPositions combo positions;
     if negb valid then mret tt
     else
       st ← foldM (applyAt positions) (word, 0) combo;
       send st.1 (Z.of_nat (length combo)))
    = (if valid
       then [Emit (replaceSpans_spec word 0 (reverse selected)) (Z.of_nat (length combo))]
       else [], Done tt).
Proof.
  intros Hfit Hoccurs Hsel Hdesc.
  assert (Hall : Forall (occursIn subMap word) selected).
  { apply Forall_forall. intros pos Hpos.
    apply list_elem_of_lookup in Hpos as [i Hi].
    destruct (Forall2_lookup_r _ _ _ _ _ Hsel Hi) as (idx & _ & _ & Hlook).
    apply Hoccurs. by eapply list_elem_of_lookup_2. }
  exists (disjointSorted (sortByStart (intervalOf <$> selected))). split.
  - apply disjointSorted_sortByStart. apply Forall_fmap.
    eapply Forall_impl; [exact Hall|]. intros pos (? & ? & ? & _). simpl. lia.
  - rewrite (validSubstitutionPositions_selected _ _ _ Hsel).
    rewrite (bind_done (mret _) _ _ eq_refl).
    destruct (disjointSorted _) eqn:Hvalid; [|done]. simpl.
    rewrite (applyAt_fold positions combo selected Hsel).
    + by rewrite (bind_done (mret _) _ _ eq_refl).
    + apply apart_right_to_left; [done| |].
      * eapply Forall_impl; [exact Hall|]. by intros pos (? & ? & _).
      * apply disjointSorted_sortByStart in Hvalid; [done|]. apply Forall_fmap.
        eapply Forall_impl; [exact Hall|]. intros pos (? & ? & ? & _). simpl. lia.
    + eapply Forall_impl; [exact Hall|]. intros pos (? & ? & ? & Hkey).
      split_and!; [lia..|].
      destruct (Hfit _ _ Hkey) as (sub0 & others & -> & Hlen).
      exists sub0, others. split; [done|]. rewrite Hlen, len_sub; lia.
Qed.

Lemma returns_unit (m : M unit) : returns m → result m = Done tt.
Proof. by intros [[] ?]. Qed.

(** The variants of [processWordReverse] on a table whose first options keep
    the length of their keys. *)
Lemma processWordReverse_variants
    (subMap : gmap string (list string)) (minSubstitute maxSubstitute : Z)
    (word : string) :
  0 ≤ minSubstitute → firstOptionKeepsLength subMap →
  result (processWordReverse subMap minSubstitute maxSubstitute word) = Done tt ∧
  ∀ e, e ∈ emitted (processWordReverse subMap minSubstitute maxSubstitute word) ↔
    ∃ selected : list position,
      StronglySorted positionLt selected ∧
      Forall (occursIn subMap word) selected ∧
      pairwiseApart (intervalOf <$> selected) ∧
      minSubstitute ≤ Z.of_nat (length selected) ≤ maxSubstitute ∧
      e = Emit (replaceSpans_spec word 0 selected) (Z.of_nat (length selected)).
Proof.
  intros Hmin Hfit.
  unfold processWordReverse. rewrite findPositions_occurrences.
  rewrite (bind_done (mret _) _ _ eq_refl).
  set (positions := seqZ 0 (len word) ≫= occurrencesAt subMap word).
  assert (Hsorted : StronglySorted positionLt positions) by apply occurrences_sorted.
  assert (Hoccurs : ∀ pos, pos ∈ positions ↔ occursIn subMap word pos)
    by apply elem_of_occurrences.
  assert (Hlength : ∀ selected,
    StronglySorted positionLt selected → Forall (occursIn subMap word) selected →
    (length selected ≤ length positions)%nat).
  { intros selected Hs Hall.
    apply submseteq_length, NoDup_submseteq; [by apply positionLt_NoDup|].
    intros pos Hpos. apply Hoccurs. rewrite Forall_forall in Hall. auto. }
  unfold processWordReverseFrom.
  case_bool_decide as Htotal.
  { split; [done|]. intros e. split; [by intros ?%elem_of_nil|].
    intros (selected & Hs & Hall & _ & Hb & _). specialize (Hlength selected Hs Hall). lia. }
  set (actualMax := if bool_decide (maxSubstitute > Z.of_nat (length positions))
                    then Z.of_nat (length positions) else maxSubstitute).
  assert (HactualMax : ∀ k, k ≤ actualMax ↔
            k ≤ maxSubstitute ∧ k ≤ Z.of_nat (length positions))
    by (unfold actualMax; case_bool_decide; lia).
  assert (Hcombos : ∀ subCount, minSubstitute ≤ subCount ≤ actualMax →
    ∃ combos,
      generateCombinations (S (length positions)) (Z.of_nat (length positions)) subCount
      = ([], Done combos) ∧
      ∀ l, l ∈ combos ↔
           descending l ∧ Z.of_nat (length l) = subCount ∧
           Forall (λ x, 0 ≤ x < Z.of_nat (length positions)) l).
  { intros subCount [H1 H2]. apply HactualMax in H2 as [_ H2].
    destruct (generateCombinations_lists (Z.to_nat subCount) (S (length positions))
                (Z.of_nat (length positions))) as (combos & E & _ & Hmem); [lia|].
    rewrite Z2Nat.id in E by lia. exists combos. split; [done|].
    intros l. rewrite Hmem. intuition lia. }
  assert (Hcombo : ∀ combo,
    descending combo → Forall (λ x, 0 ≤ x < Z.of_nat (length positions)) combo →
    ∃ selected valid,
      Forall2 (λ idx pos, 0 ≤ idx ∧ positions !! Z.to_nat idx = Some pos) combo selected ∧
      StronglySorted (flip positionLt) selected ∧
      (valid = true ↔ pairwiseApart (intervalOf <$> selected)) ∧
      (valid ← validSubstitutionPositions combo positions;
       if negb valid then mret tt
       else
         st ← foldM (applyAt positions) (word, 0) combo;
         send st.1 (Z.of_nat (length combo)))
      = (if valid
         then [Emit (replaceSpans_spec word 0 (reverse selected))
                    (Z.of_nat (length combo))]
         else [], Done tt)).
  { intros combo Hdesc Hrange.
    destruct (select_exists positions combo Hrange) as [selected Hsel].
    pose proof (selected_right_to_left _ _ _ Hsorted Hsel Hdesc) as Hrtl.
    destruct (combination_run subMap word positions combo selected Hfit)
      as (valid & Hvalid & Hrun); [by intros; apply Hoccurs|done|done|].
    by exists selected, valid. }
  assert (Hreturns_combo : ∀ (combos : list (list Z)) (subCount : Z),
    (∀ l, l ∈ combos ↔
          descending l ∧ Z.of_nat (length l) = subCount ∧
          Forall (λ x, 0 ≤ x < Z.of_nat (length positions)) l) →
    ∀ combo, combo ∈ combos →
      returns (valid ← validSubstitutionPositions combo positions;
               if negb valid then mret tt
               else
                 st ← foldM (applyAt positions) (word, 0) combo;
                 send st.1 (Z.of_nat (length combo)))).
  { intros combos subCount Hmem combo (Hdesc & _ & Hrange)%Hmem.
    destruct (Hcombo combo Hdesc Hrange) as (selected & valid & _ & _ & _ & Hrun).
    unfold returns. rewrite Hrun. by exists tt. }
  assert (Hreturns : ∀ subCount,
    subCount ∈ reverse (seqZ minSubstitute (actualMax - minSubstitute + 1)) →
    returns (combinations ← generateCombinations (S (length positions))
                               (Z.of_nat (length positions)) subCount;
             forEach combinations (λ combo,
               valid ← validSubstitutionPositions combo positions;
               if negb valid then mret tt
               else
                 st ← foldM (applyAt positions) (word, 0) combo;
                 send st.1 (Z.of_nat (length combo))))).
  { intros subCount [? ?]%elem_of_reverse%elem_of_seqZ.
    destruct (Hcombos subCount) as (combos & E & Hmem); [lia|].
    rewrite (bind_done _ _ _ E). apply returns_forEach. by eapply Hreturns_combo. }
  split; [|intros e; split].
  - apply returns_unit, returns_forEach, Hreturns.
  - revert e. apply Forall_forall. apply emits_forEach.
    intros subCount [? ?]%elem_of_reverse%elem_of_seqZ.
    destruct (Hcombos subCount) as (combos & E & Hmem); [lia|].
    rewrite (bind_done _ _ _ E). apply emits_forEach.
    intros combo (Hdesc & Hlen & Hrange)%Hmem.
    destruct (Hcombo combo Hdesc Hrange) as (selected & valid & Hsel & Hrtl & Hiff & Hrun).
    unfold emits. rewrite Hrun. destruct valid; [|constructor].
    constructor; [|constructor]. exists (reverse selected).
    assert (length selected = length combo) by (symmetry; by eapply Forall2_length).
    assert (subCount ≤ maxSubstitute) by (apply HactualMax; lia).
    split_and!.
    + apply (StronglySorted_flip_reverse _ _ Hrtl).
    + apply Forall_reverse, Forall_forall. intros pos Hpos.
      apply list_elem_of_lookup in Hpos as [i Hi].
      destruct (Forall2_lookup_r _ _ _ _ _ Hsel Hi) as (idx & _ & _ & Hlook).
      apply Hoccurs. by eapply list_elem_of_lookup_2.
    + rewrite fmap_reverse.
      apply (pairwiseApart_Permutation (intervalOf <$> selected));
        [by rewrite reverse_Permutation|].
      by apply Hiff.
    + rewrite length_reverse. lia.
    + rewrite length_reverse. lia.
    + rewrite length_reverse. by do 2 f_equal.
  - intros (selected & Hs & Hall & Hapart & Hb & ->).
    destruct (indices_exist positions selected Hsorted Hs)
      as (ascending & Hsel & Hascending & Hrange).
    { eapply Forall_impl; [exact Hall|]. intros pos. apply Hoccurs. }
    pose proof (Hlength selected Hs Hall).
    assert (Hcount : minSubstitute ≤ Z.of_nat (length selected) ≤ actualMax).
    { split; [lia|]. apply HactualMax. lia. }
    apply (elem_of_emitted_forEach _ _ (Z.of_nat (length selected))); [|done|].
    { apply elem_of_reverse, elem_of_seqZ. lia. }
    destruct (Hcombos _ Hcount) as (combos & E & Hmem).
    rewrite (bind_done _ _ _ E).
    apply (elem_of_emitted_forEach _ _ (reverse ascending));
      [|by eapply Hreturns_combo|].
    { apply Hmem. split_and!.
      - apply (StronglySorted_weaken (flip Z.lt)); [unfold flip; intros; lia|].
        by apply StronglySorted_flip_reverse.
      - rewrite length_reverse. f_equal. by eapply Forall2_length.
      - by apply Forall_reverse. }
    destruct (combination_run subMap word positions (reverse ascending)
                (reverse selected) Hfit) as (valid & Hvalid & Hrun).
    { intros. by apply Hoccurs. }
    { by apply Forall2_reverse. }
    { by apply StronglySorted_flip_reverse. }
    rewrite Hrun. destruct valid.
    + rewrite reverse_involutive, length_reverse.
      rewrite (Forall2_length _ _ _ Hsel). by apply list_elem_of_singleton.
    + assert (false = true) as [=]. apply Hvalid. rewrite fmap_reverse.
      apply (pairwiseApart_Permutation (intervalOf <$> selected)); [|done].
      by rewrite reverse_Permutation.
Qed.

(** X13. On a table whose keys each have a first replacement option of the
    key's own length, and with a minimum that is not negative,
    [processWordReverse] returns without a panic and composes every variant
    correctly: it emits one variant for every set of occurrences of keys in
    the word, no two sharing a byte, whose size lies in [[min, max]], namely
    the word with each chosen occurrence replaced, where it stands, by the
    first option of its key; and it emits nothing else. *)
Theorem processWordReverse_keeping_length
    (subMap : gmap string (list string)) (minSubstitute maxSubstitute : Z)
    (word : string) :
  0 ≤ minSubstitute → firstOptionKeepsLength subMap →
  result (processWordReverse subMap minSubstitute maxSubstitute word) = Done tt ∧
  ∀ e, e ∈ emitted (processWordReverse subMap minSubstitute maxSubstitute word) ↔
    ∃ selected : list position,
      StronglySorted positionLt selected ∧
      Forall (occursIn subMap word) selected ∧
      pairwiseApart (intervalOf <$> selected) ∧
      minSubstitute ≤ Z.of_nat (length selected) ≤ maxSubstitute ∧
      e = Emit (replaceSpans_spec word 0 selected) (Z.of_nat (length selected)).
Proof. exact (processWordReverse_variants subMap minSubstitute maxSubstitute word). Qed.

Lemma processWordReverse_keeping_length_witness :
  result (processWordReverse leetO 1 2 "foo") = Done tt ∧
  ∀ e, e ∈ emitted (processWordReverse leetO 1 2 "foo") ↔
    ∃ selected : list position,
      StronglySorted positionLt selected ∧
      Forall (occursIn leetO "foo") selected ∧
      pairwiseApart (intervalOf <$> selected) ∧
      1 ≤ Z.of_nat (length selected) ≤ 2 ∧
      e = Emit (replaceSpans_spec "foo" 0 selected) (Z.of_nat (length selected)).
Proof.
  apply (processWordReverse_keeping_length leetO 1 2 "foo"); [lia|].
  intros key subs Hkey. unfold leetO in Hkey.
  apply lookup_singleton_Some in Hkey as [<- <-]. by exists "0", [].
Defined.

(** ** The variants of the forward occurrence algorithm *)

Lemma substring_of_suffix (s : string) :
  ∀ k n m, (k ≤ String.length s)%nat →
    String.substring n m (String.substring k (String.length s - k) s)
    = String.substring (k + n) m s.
Proof.
  induction s as [|c s IH]; intros k n m Hk.
  - simpl in Hk. by assert (k = 0%nat) as -> by lia.
  - destruct k as [|k].
    + rewrite Nat.sub_0_r, substring_all. done.
    + simpl in Hk. change (String.length (String c s) - S k)%nat
        with (String.length s - k)%nat. simpl. apply IH. lia.
Qed.

Lemma sub_of_suffix (w : string) (c lo hi : Z) :
  0 ≤ c → c ≤ len w → 0 ≤ lo → lo ≤ hi →
  sub (sub w c (len w)) lo hi = sub w (c + lo) (c + hi).
Proof.
  unfold sub, len. intros.
  replace (Z.to_nat (Z.of_nat (String.length w) - c))
    with (String.length w - Z.to_nat c)%nat by lia.
  rewrite substring_of_suffix by lia. f_equal; lia.
Qed.

Lemma sub_app_r (s1 s2 : string) (lo hi : Z) :
  0 ≤ lo → sub (s1 +:+ s2) (len s1 + lo) (len s1 + hi) = sub s2 lo hi.
Proof.
  unfold sub, len. intros.
  replace (Z.to_nat (Z.of_nat (String.length s1) + lo))
    with (String.length s1 + Z.to_nat lo)%nat by lia.
  rewrite substring_append_r. f_equal. lia.
Qed.

Lemma sub_app_head (s1 s2 : string) (hi : Z) :
  0 ≤ hi → sub (s1 +:+ s2) 0 (len s1 + hi) = s1 +:+ sub s2 0 hi.
Proof.
  intros. assert (0 ≤ len s1) by (unfold len; lia).
  rewrite <-(sub_join _ 0 (len s1)) by lia.
  rewrite sub_app_l, sub_all by lia. f_equal.
  rewrite <-(sub_app_r s1 s2 0 hi) by lia. by rewrite Z.add_0_r.
Qed.

Lemma append_assoc (s1 s2 s3 : string) : (s1 +:+ s2) +:+ s3 = s1 +:+ (s2 +:+ s3).
Proof.
  induction s1 as [|c s1 IH]; [done|].
  change (String c s1 +:+ s2) with (String c (s1 +:+ s2)).
  change (String c ?p +:+ ?q) with (String c (p +:+ q)). by rewrite IH.
Qed.

(** The body of [generate], once the slices are known to be in range. *)
Lemma generate_unfold subMap maxSubstitute fuel minSub currentWord currentSubCount start :
  0 ≤ start →
  generate subMap maxSubstitute (S fuel) minSub currentWord currentSubCount start =
  forEach (seqZ start (len currentWord - start)) (λ i,
    forEach (reverse (seqZ 1 (len currentWord - i))) (λ keyLength,
      forEach (default [] (subMap !! sub currentWord i (i + keyLength))) (λ replacement,
        if bool_decide (currentSubCount + 1 > maxSubstitute) then mret tt
        else
          (if bool_decide (currentSubCount + 1 >= minSub)
           then send (sub currentWord 0 i +:+ replacement
                        +:+ sub currentWord (i + keyLength) (len currentWord))
                     (currentSubCount + 1)
           else mret tt);;
          generate subMap maxSubstitute fuel minSub
            (sub currentWord 0 i +:+ replacement
               +:+ sub currentWord (i + keyLength) (len currentWord))
            (currentSubCount + 1) (i + len replacement)))).
Proof.
  intros Hstart. simpl. apply forEach_ext. intros i [Hi1 Hi2]%elem_of_seqZ.
  apply forEach_ext. intros keyLength [Hk1 Hk2]%elem_of_reverse%elem_of_seqZ.
  rewrite bool_decide_false by lia.
  rewrite (slice_inRange currentWord i (i + keyLength)) by lia.
  rewrite (bind_done (mret (sub currentWord i (i + keyLength))) _ _ eq_refl).
  destruct (subMap !! _) as [subs|]; [|done]. simpl.
  apply forEach_ext. intros replacement _.
  rewrite (slice_inRange currentWord 0 i),
    (slice_inRange currentWord (i + keyLength) (len currentWord)) by lia.
  rewrite (bind_done (mret (sub currentWord 0 i)) _ _ eq_refl).
  by rewrite (bind_done (mret (sub currentWord (i + keyLength) (len currentWord))) _ _ eq_refl).
Qed.

(** What a loop that ends normally has sent is what its iterations sent. *)
Lemma elem_of_emitted_forEach_iff {A} (l : list A) (body : A → M unit) (e : emission) :
  result (forEach l body) = Done tt →
  e ∈ emitted (forEach l body) ↔
  ∃ x, x ∈ l ∧ e ∈ emitted (body x) ∧ result (body x) = Done tt.
Proof.
  intros Hdone. pose proof (forEach_done _ _ Hdone) as Hbody. split.
  - clear Hdone. induction l as [|y l IH]; [by intros ?%elem_of_nil|].
    cbn [forEach]. rewrite emitted_bind, (Hbody y) by left.
    intros [He|He]%elem_of_app.
    + exists y. split; [left|]. split; [done|]. apply Hbody. left.
    + destruct IH as (x & Hx & ?); [intros; apply Hbody; by right|done|].
      exists x. split; [by right|done].
  - intros (x & Hx & He & _).
    apply (elem_of_emitted_forEach _ _ x); [done| |done].
    intros y Hy. exists tt. by apply Hbody.
Qed.

(** [generate] on a word whose scanned part [word[cursor:]] is still that of
    the original word: what it sends are the ways of editing that part. *)
Lemma generate_edits subMap maxSubstitute minSub word fuel :
  ∀ pre cursor count,
    0 ≤ cursor ≤ len word → len word - cursor < Z.of_nat fuel →
    ∀ e,
      e ∈ emitted (generate subMap maxSubstitute fuel minSub
                     (pre +:+ sub word cursor (len word)) count (len pre)) ↔
      ∃ edits,
        edits ≠ [] ∧ validEdits subMap word cursor edits ∧
        minSub ≤ count + Z.of_nat (length edits) ≤ maxSubstitute ∧
        e = Emit (pre +:+ applyEdits word cursor edits) (count + Z.of_nat (length edits)).
Proof.
  induction fuel as [|fuel IH]; intros pre cursor count Hcursor Hfuel e; [lia|].
  set (cw := pre +:+ sub word cursor (len word)).
  assert (Hlen : len cw = len pre + (len word - cursor))
    by (unfold cw; rewrite len_app, len_sub; lia).
  assert (Hpre : 0 ≤ len pre) by (unfold len; lia).
  assert (Hdone : result (generate subMap maxSubstitute (S fuel) minSub cw count (len pre))
                  = Done tt).
  { apply returns_unit, generate_returns; lia. }
  rewrite generate_unfold in Hdone |- * by done.
  assert (Hkey : ∀ lo hi, len pre ≤ lo → lo ≤ hi → hi ≤ len cw →
            sub cw lo hi = sub word (lo - len pre + cursor) (hi - len pre + cursor)).
  { intros lo hi ???. unfold cw.
    replace lo with (len pre + (lo - len pre)) at 1 by lia.
    replace hi with (len pre + (hi - len pre)) at 1 by lia.
    rewrite sub_app_r, sub_of_suffix by lia. f_equal; lia. }
  assert (Hhead : ∀ hi, len pre ≤ hi → hi ≤ len cw →
            sub cw 0 hi = pre +:+ sub word cursor (hi - len pre + cursor)).
  { intros hi ??. unfold cw.
    replace hi with (len pre + (hi - len pre)) at 1 by lia.
    rewrite sub_app_head, sub_of_suffix by lia. do 2 f_equal; lia. }
  assert (Hnew : ∀ i keyLength replacement,
            cursor ≤ i → 1 ≤ keyLength → i + keyLength ≤ len word →
            sub cw 0 (i - cursor + len pre) +:+ replacement
              +:+ sub cw (i - cursor + len pre + keyLength) (len cw)
            = (pre +:+ sub word cursor i +:+ replacement)
                +:+ sub word (i + keyLength) (len word)).
  { intros i keyLength replacement ???.
    rewrite Hhead, Hkey by lia. rewrite !append_assoc.
    replace (i - cursor + len pre - len pre + cursor) with i by lia.
    replace (i - cursor + len pre + keyLength - len pre + cursor)
      with (i + keyLength) by lia.
    by replace (len cw - len pre + cursor) with (len word) by lia. }
  assert (Hstart : ∀ i replacement, cursor ≤ i → i ≤ len word →
            i - cursor + len pre + len replacement
            = len (pre +:+ sub word cursor i +:+ replacement)).
  { intros i replacement ??. rewrite !len_app, len_sub by lia. lia. }
  split.
  - intros He.
    apply (elem_of_emitted_forEach_iff _ _ _ Hdone) in He
      as (i' & [Hi1 Hi2]%elem_of_seqZ & He & Hdone1).
    apply (elem_of_emitted_forEach_iff _ _ _ Hdone1) in He
      as (keyLength & [Hk1 Hk2]%elem_of_reverse%elem_of_seqZ & He & Hdone2).
    apply (elem_of_emitted_forEach_iff _ _ _ Hdone2) in He
      as (replacement & Hoption & He & _).
    set (i := i' - len pre + cursor).
    replace i' with (i - cursor + len pre) in He, Hoption by (unfold i; lia).
    rewrite Hkey in Hoption by (unfold i; lia).
    replace (i - cursor + len pre - len pre + cursor) with i in Hoption by lia.
    replace (i - cursor + len pre + keyLength - len pre + cursor)
      with (i + keyLength) in Hoption by lia.
    destruct (subMap !! sub word i (i + keyLength)) as [subs|] eqn:Hsubs;
      [|by apply elem_of_nil in Hoption].
    simpl in Hoption.
    assert (Hbegin : cursor ≤ i) by (unfold i; lia).
    assert (Hend : i + keyLength ≤ len word) by (unfold i; lia).
    assert (Hvalid : validEdits subMap word cursor [Edit i keyLength replacement]).
    { simpl. split_and!; [lia..| |done]. by exists subs. }
    rewrite Hnew, Hstart in He by lia.
    destruct (decide (count + 1 > maxSubstitute)) as [Hmax|Hmax];
      [rewrite bool_decide_true in He by done; by apply elem_of_nil in He|].
    rewrite bool_decide_false in He by done.
    rewrite emitted_bind in He. apply elem_of_app in He as [He|He].
    + destruct (decide (count + 1 >= minSub)) as [Hmin|Hmin];
        [rewrite bool_decide_true in He by done
        |rewrite bool_decide_false in He by done; by apply elem_of_nil in He].
      apply list_elem_of_singleton in He as ->.
      exists [Edit i keyLength replacement]. split; [done|]. split; [done|].
      split; [simpl; lia|]. simpl. by rewrite !append_assoc.
    + assert (He' : e ∈ emitted (generate subMap maxSubstitute fuel minSub
                      ((pre +:+ sub word cursor i +:+ replacement)
                         +:+ sub word (i + keyLength) (len word))
                      (count + 1) (len (pre +:+ sub word cursor i +:+ replacement)))).
      { by destruct (bool_decide (count + 1 >= minSub)). }
      apply IH in He' as (edits & Hne & Hedits & Hbounds & ->); [|lia..].
      exists (Edit i keyLength replacement :: edits). split; [done|]. split.
      { destruct Hvalid as (? & ? & ? & ? & _). simpl. done. }
      split; [simpl length; lia|].
      cbn [applyEdits editStart editLength editText length].
      rewrite !append_assoc. f_equal. lia.
  - intros (edits & Hne & Hedits & Hbounds & ->).
    destruct edits as [|[i keyLength replacement] rest]; [done|]. clear Hne.
    destruct Hedits as (Hbegin & Hk & Hend & (subs & Hsubs & Hoption) & Hrest).
    simpl in Hbegin, Hk, Hend, Hsubs, Hoption, Hrest.
    assert (Hi : i - cursor + len pre ∈ seqZ (len pre) (len cw - len pre))
      by (apply elem_of_seqZ; lia).
    pose proof (forEach_done _ _ Hdone _ Hi) as Hdone1. cbv beta in Hdone1.
    apply (elem_of_emitted_forEach_iff _ _ _ Hdone).
    exists (i - cursor + len pre). split; [done|]. split; [|done].
    assert (Hkl : keyLength ∈ reverse (seqZ 1 (len cw - (i - cursor + len pre))))
      by (apply elem_of_reverse, elem_of_seqZ; lia).
    pose proof (forEach_done _ _ Hdone1 _ Hkl) as Hdone2. cbv beta in Hdone2.
    apply (elem_of_emitted_forEach_iff _ _ _ Hdone1).
    exists keyLength. split; [done|]. split; [|done].
    assert (Hr : replacement ∈ default [] (subMap !! sub cw (i - cursor + len pre)
                                             (i - cursor + len pre + keyLength))).
    { rewrite Hkey by lia.
      replace (i - cursor + len pre - len pre + cursor) with i by lia.
      replace (i - cursor + len pre + keyLength - len pre + cursor)
        with (i + keyLength) by lia.
      by rewrite Hsubs. }
    pose proof (forEach_done _ _ Hdone2 _ Hr) as Hdone3. cbv beta in Hdone3.
    apply (elem_of_emitted_forEach_iff _ _ _ Hdone2).
    exists replacement. split; [done|]. split; [|done].
    simpl length in Hbounds.
    rewrite bool_decide_false by lia.
    rewrite Hnew, Hstart by lia.
    rewrite emitted_bind. apply elem_of_app. destruct rest as [|ed rest].
    + left. rewrite bool_decide_true by (simpl in Hbounds; lia).
      apply list_elem_of_singleton. simpl. by rewrite !append_assoc.
    + right.
      assert (result (if bool_decide (count + 1 >= minSub)
                      then send ((pre +:+ sub word cursor i +:+ replacement)
                                   +:+ sub word (i + keyLength) (len word)) (count + 1)
                      else mret tt) = Done tt) as ->.
      { destruct (bool_decide (count + 1 >= minSub)); reflexivity. }
      apply IH; [lia..|].
      exists (ed :: rest). split; [done|]. split; [done|].
      split; [simpl length in *; lia|].
      cbn [applyEdits editStart editLength editText length].
      rewrite !append_assoc. f_equal. lia.
Qed.

(** The variants of [processWord]. *)
Lemma processWord_variants
    (subMap : gmap string (list string)) (minSubstitute maxSubstitute : Z)
    (word : string) (e : emission) :
  e ∈ emitted (processWord subMap minSubstitute maxSubstitute word) ↔
  ∃ edits : list edit,
    validEdits subMap word 0 edits ∧
    1 ≤ Z.of_nat (length edits) ∧
    minSubstitute ≤ Z.of_nat (length edits) ≤ maxSubstitute ∧
    e = Emit (applyEdits word 0 edits) (Z.of_nat (length edits)).
Proof.
  unfold processWord.
  pose proof (generate_edits subMap maxSubstitute
                (if bool_decide (minSubstitute = 0) then minSubstitute + 1
                 else minSubstitute)
                word (S (String.length word)) "" 0 0) as H.
  rewrite sub_all in H. change (len "") with 0 in H. change ("" +:+ word) with word in H.
  rewrite H by (unfold len; lia). clear H.
  split; intros (edits & H1 & H2 & H3 & ->); exists edits.
  - split; [done|]. destruct edits; [done|]. simpl length in *.
    split; [lia|]. split; [case_bool_decide; lia|]. done.
  - split; [by destruct edits; [simpl in H2; lia|]|]. split; [done|].
    split; [case_bool_decide; lia|]. done.
Qed.

(** X14. [processWord] emits exactly the ways of editing the word from left
    to right: a variant is emitted if and only if it results from replacing
    occurrences of keys that do not overlap, each of at least one byte and
    each by one of the options of its key, and the number of replacements is
    at least one and within [[min, max]]. Replacements are never rescanned:
    the occurrences are those of the original word. *)
Theorem processWord_edits
    (subMap : gmap string (list string)) (minSubstitute maxSubstitute : Z)
    (word : string) (e : emission) :
  e ∈ emitted (processWord subMap minSubstitute maxSubstitute word) ↔
  ∃ edits : list edit,
    validEdits subMap word 0 edits ∧
    1 ≤ Z.of_nat (length edits) ∧
    minSubstitute ≤ Z.of_nat (length edits) ≤ maxSubstitute ∧
    e = Emit (applyEdits word 0 edits) (Z.of_nat (length edits)).
Proof. exact (processWord_variants subMap minSubstitute maxSubstitute word e). Qed.

(** ** The rune-level version of the forward algorithm *)

Lemma rune_generate_unfold stringOf subMap minSubstitute maxSubstitute fuel
    currentWord currentSubCount start :
  0 ≤ start →
  RuneVersion.generate stringOf subMap minSubstitute maxSubstitute (S fuel)
    currentWord currentSubCount start =
  forEach (seqZ start (Z.of_nat (length currentWord) - start)) (λ i,
    forEach (default [] (r ← currentWord !! Z.to_nat i; subMap !! r)) (λ replacement,
      if bool_decide (currentSubCount + 1 > maxSubstitute) then mret tt
      else
        (if bool_decide (currentSubCount + 1 > minSubstitute)
         then send (stringOf (<[Z.to_nat i := replacement]> currentWord))
                   (currentSubCount + 1)
         else mret tt);;
        RuneVersion.generate stringOf subMap minSubstitute maxSubstitute fuel
          (<[Z.to_nat i := replacement]> currentWord) (currentSubCount + 1) (i + 1))).
Proof.
  intros Hstart. simpl. apply forEach_ext. intros i [Hi1 Hi2]%elem_of_seqZ.
  destruct (lookup_lt_is_Some_2 currentWord (Z.to_nat i)) as [r Hr]; [lia|].
  rewrite (index_lookup currentWord i r) by (lia || done).
  rewrite (bind_done (mret r) _ _ eq_refl). rewrite Hr. simpl.
  destruct (subMap !! r) as [subs|]; [|done]. simpl.
  apply forEach_ext. intros replacement _.
  unfold RuneVersion.assign.
  rewrite (bool_decide_true (0 ≤ i < Z.of_nat (length currentWord))) by lia.
  by rewrite (bind_done (mret _) _ _ eq_refl).
Qed.

Lemma rune_generate_returns stringOf subMap minSubstitute maxSubstitute fuel :
  ∀ currentWord currentSubCount start,
    0 ≤ start ≤ Z.of_nat (length currentWord) →
    Z.of_nat (length currentWord) - start < Z.of_nat fuel →
    returns (RuneVersion.generate stringOf subMap minSubstitute maxSubstitute fuel
               currentWord currentSubCount start).
Proof.
  induction fuel as [|fuel IH]; intros currentWord currentSubCount start Hstart Hfuel;
    [lia|].
  rewrite rune_generate_unfold by lia.
  apply returns_forEach. intros i [Hi1 Hi2]%elem_of_seqZ.
  apply returns_forEach. intros replacement _.
  case_bool_decide; [apply returns_ret|].
  apply returns_bind; [case_bool_decide; [apply returns_send|apply returns_ret]|].
  intros _ _. apply IH; rewrite length_insert; lia.
Qed.

Lemma validChoices_insert subMap runes i x :
  ∀ choices cursor,
    0 ≤ i < cursor →
    validChoices subMap (<[Z.to_nat i := x]> runes) cursor choices
    ↔ validChoices subMap runes cursor choices.
Proof.
  induction choices as [|choice rest IH]; intros cursor Hlt; [done|].
  simpl. split; intros (Hcursor & H & Hrest); (split; [done|]); split.
  - rewrite list_lookup_insert_ne in H by lia. done.
  - apply IH in Hrest; [done|lia].
  - rewrite list_lookup_insert_ne by lia. done.
  - apply IH; [lia|done].
Qed.

(** What [generate] sends are the ways of choosing runes from [start] on. *)
Lemma rune_generate_choices stringOf subMap minSubstitute maxSubstitute fuel :
  ∀ currentWord count start,
    0 ≤ start ≤ Z.of_nat (length currentWord) →
    Z.of_nat (length currentWord) - start < Z.of_nat fuel →
    ∀ e,
      e ∈ emitted (RuneVersion.generate stringOf subMap minSubstitute maxSubstitute fuel
                     currentWord count start) ↔
      ∃ choices,
        choices ≠ [] ∧ validChoices subMap currentWord start choices ∧
        minSubstitute < count + Z.of_nat (length choices) ∧
        count + Z.of_nat (length choices) ≤ maxSubstitute ∧
        e = Emit (stringOf (applyChoices currentWord choices))
                 (count + Z.of_nat (length choices)).
Proof.
  induction fuel as [|fuel IH]; intros currentWord count start Hstart Hfuel e; [lia|].
  assert (Hdone : result (RuneVersion.generate stringOf subMap minSubstitute
                            maxSubstitute (S fuel) currentWord count start) = Done tt).
  { apply returns_unit, rune_generate_returns; lia. }
  rewrite rune_generate_unfold in Hdone |- * by lia.
  split.
  - intros He.
    apply (elem_of_emitted_forEach_iff _ _ _ Hdone) in He
      as (i & [Hi1 Hi2]%elem_of_seqZ & He & Hdone1).
    apply (elem_of_emitted_forEach_iff _ _ _ Hdone1) in He
      as (replacement & Hoption & He & _).
    destruct (currentWord !! Z.to_nat i) as [r|] eqn:Hr;
      [|by apply elem_of_nil in Hoption].
    simpl in Hoption.
    destruct (subMap !! r) as [subs|] eqn:Hsubs; [|by apply elem_of_nil in Hoption].
    simpl in Hoption.
    assert (Hvalid : validChoices subMap currentWord start [(i, replacement)]).
    { simpl. split; [lia|]. split; [|done]. by exists r, subs. }
    destruct (decide (count + 1 > maxSubstitute)) as [Hmax|Hmax];
      [rewrite bool_decide_true in He by done; by apply elem_of_nil in He|].
    rewrite bool_decide_false in He by done.
    rewrite emitted_bind in He. apply elem_of_app in He as [He|He].
    + destruct (decide (count + 1 > minSubstitute)) as [Hmin|Hmin];
        [rewrite bool_decide_true in He by done
        |rewrite bool_decide_false in He by done; by apply elem_of_nil in He].
      apply list_elem_of_singleton in He as ->.
      exists [(i, replacement)]. split; [done|]. split; [done|]. simpl. split_and!; (lia || done).
    + assert (He' : e ∈ emitted (RuneVersion.generate stringOf subMap minSubstitute
                      maxSubstitute fuel (<[Z.to_nat i := replacement]> currentWord)
                      (count + 1) (i + 1))).
      { by destruct (bool_decide (count + 1 > minSubstitute)). }
      apply IH in He' as (choices & Hne & Hchoices & Hlower & Hupper & ->);
        [|rewrite length_insert; lia..].
      apply validChoices_insert in Hchoices; [|lia].
      exists ((i, replacement) :: choices). split; [done|]. split.
      { destruct Hvalid as (? & ? & _). simpl. done. }
      simpl length. split_and!; [lia..|]. simpl. f_equal. lia.
  - intros (choices & Hne & Hchoices & Hlower & Hupper & ->).
    destruct choices as [|[i replacement] rest]; [done|]. clear Hne.
    destruct Hchoices as (Hcursor & (r & subs & Hr & Hsubs & Hoption) & Hrest).
    simpl in Hcursor, Hr, Hoption, Hrest. simpl length in Hlower, Hupper.
    pose proof (lookup_lt_Some _ _ _ Hr) as Hlt.
    assert (Hi : i ∈ seqZ start (Z.of_nat (length currentWord) - start))
      by (apply elem_of_seqZ; lia).
    pose proof (forEach_done _ _ Hdone _ Hi) as Hdone1. cbv beta in Hdone1.
    apply (elem_of_emitted_forEach_iff _ _ _ Hdone).
    exists i. split; [done|]. split; [|done].
    assert (Hin : replacement ∈ default [] (r ← currentWord !! Z.to_nat i; subMap !! r)).
    { rewrite Hr. simpl. by rewrite Hsubs. }
    pose proof (forEach_done _ _ Hdone1 _ Hin) as Hdone2. cbv beta in Hdone2.
    apply (elem_of_emitted_forEach_iff _ _ _ Hdone1).
    exists replacement. split; [done|]. split; [|done].
    rewrite bool_decide_false by lia.
    rewrite emitted_bind. apply elem_of_app. destruct rest as [|choice rest].
    + left. rewrite bool_decide_true by (simpl in *; lia).
      apply list_elem_of_singleton. done.
    + right.
      assert (result (if bool_decide (count + 1 > minSubstitute)
                      then send (stringOf (<[Z.to_nat i := replacement]> currentWord))
                                (count + 1)
                      else mret tt) = Done tt) as ->.
      { destruct (bool_decide (count + 1 > minSubstitute)); reflexivity. }
      apply IH; [rewrite length_insert; lia..|].
      exists (choice :: rest). split; [done|]. split.
      { apply validChoices_insert; [lia|done]. }
      simpl length in *. split_and!; [lia..|]. simpl. f_equal. lia.
Qed.

(** X15. The rune-level [processWord] of the first version returns without
    a panic and emits exactly the ways of choosing runes from left to right:
    a variant is emitted if and only if it results from putting, at some
    set of indices, one of the options the table has for the rune of the word
    at that index, where the number of replacements is GREATER than [min] and
    at most [max]. A variant with exactly [min] replacements is never
    emitted. *)
Theorem rune_processWord_choices
    (runesOf : string → list Z) (stringOf : list Z → string)
    (subMap : gmap Z (list Z)) (minSubstitute maxSubstitute : Z) (word : string) :
  result (RuneVersion.processWord runesOf stringOf subMap minSubstitute maxSubstitute word)
  = Done tt ∧
  ∀ e,
    e ∈ emitted (RuneVersion.processWord runesOf stringOf subMap minSubstitute
                   maxSubstitute word) ↔
    ∃ choices : list (Z * Z),
      validChoices subMap (runesOf word) 0 choices ∧
      1 ≤ Z.of_nat (length choices) ∧
      minSubstitute < Z.of_nat (length choices) ≤ maxSubstitute ∧
      e = Emit (stringOf (applyChoices (runesOf word) choices))
               (Z.of_nat (length choices)).
Proof.
  unfold RuneVersion.processWord. cbv zeta. split.
  - apply returns_unit, rune_generate_returns; lia.
  - intros e. rewrite rune_generate_choices by lia. split.
    + intros (choices & Hne & Hvalid & Hlower & Hupper & ->). exists choices.
      split; [done|]. destruct choices; [done|]. simpl length in *.
      split; [lia|]. split; [lia|]. done.
    + intros (choices & Hvalid & Hone & [Hlower Hupper] & ->). exists choices.
      split; [by destruct choices; [simpl in Hone; lia|]|].
      split; [done|]. split; [lia|]. split; [lia|]. done.
Qed.

(** ** The forward and the reverse occurrence algorithm compared *)

Lemma apart_left_to_right (selected : list position) :
  StronglySorted positionLt selected →
  Forall (λ p, 1 ≤ keyLength p) selected →
  pairwiseApart (intervalOf <$> selected) →
  StronglySorted (λ p q, start p + keyLength p ≤ start q) selected.
Proof.
  induction 1 as [|p selected _ IH Hp]; intros Hkeys Hapart; [constructor|].
  apply Forall_cons in Hkeys as [Hk Hkeys]. destruct Hapart as [Hhead Hapart].
  constructor; [by apply IH|].
  rewrite Forall_fmap in Hhead. rewrite Forall_forall in Hp, Hkeys, Hhead.
  apply Forall_forall. intros q Hq.
  specialize (Hp q Hq). specialize (Hkeys q Hq). specialize (Hhead q Hq).
  unfold positionLt in Hp. unfold apart, intervalOf in Hhead. simpl in Hhead. lia.
Qed.

Lemma left_to_right_apart (selected : list position) :
  StronglySorted (λ p q, start p + keyLength p ≤ start q) selected →
  Forall (λ p, 1 ≤ keyLength p) selected →
  StronglySorted positionLt selected ∧ pairwiseApart (intervalOf <$> selected).
Proof.
  induction 1 as [|p selected _ IH Hp]; intros Hkeys; [by split; [constructor|]|].
  apply Forall_cons in Hkeys as [Hk Hkeys]. destruct (IH Hkeys) as [Hsorted Hapart].
  rewrite Forall_forall in Hp. split.
  - constructor; [done|]. apply Forall_forall. intros q Hq.
    specialize (Hp q Hq). unfold positionLt. simpl in Hp. lia.
  - split; [|done]. apply Forall_fmap, Forall_forall. intros q Hq.
    specialize (Hp q Hq). unfold apart, intervalOf. simpl in *. lia.
Qed.

(** Occurrences taken from left to right, each with its first option, are
    edits of the word. *)
Lemma spans_as_edits subMap word (selected : list position) :
  StronglySorted (λ p q, start p + keyLength p ≤ start q) selected →
  ∀ cursor,
    Forall (λ p, cursor ≤ start p ∧ occursIn subMap word p ∧ subs p ≠ []) selected →
    validEdits subMap word cursor
      ((λ p, Edit (start p) (keyLength p) (hd "" (subs p))) <$> selected) ∧
    applyEdits word cursor
      ((λ p, Edit (start p) (keyLength p) (hd "" (subs p))) <$> selected)
    = replaceSpans_spec word cursor selected.
Proof.
  induction 1 as [|p selected _ IH Hp]; intros cursor Hall; [done|].
  apply Forall_cons in Hall as [(Hcursor & Hoccurs & Hsubs) Hall].
  destruct Hoccurs as (Hs & Hk & Hend & Hkey).
  destruct (IH (start p + keyLength p)) as [Hvalid Happly].
  { rewrite Forall_forall in Hall, Hp. apply Forall_forall. intros q Hq.
    destruct (Hall q Hq) as (_ & ? & ?). specialize (Hp q Hq). simpl in Hp. done. }
  csimpl. split.
  - split_and!; [done..| |done]. exists (subs p). split; [done|].
    destruct (subs p); [done|]. left.
  - by rewrite Happly.
Qed.

(** On a table with one option for every key, edits are occurrences taken
    from left to right. *)
Lemma edits_as_spans subMap word :
  (∀ key subs, subMap !! key = Some subs → length subs = 1%nat) →
  ∀ edits cursor,
    0 ≤ cursor →
    validEdits subMap word cursor edits →
    StronglySorted (λ p q, start p + keyLength p ≤ start q)
      ((λ ed, Position (editStart ed) (editLength ed) [editText ed]) <$> edits) ∧
    Forall (λ p, cursor ≤ start p ∧ occursIn subMap word p)
      ((λ ed, Position (editStart ed) (editLength ed) [editText ed]) <$> edits) ∧
    replaceSpans_spec word cursor
      ((λ ed, Position (editStart ed) (editLength ed) [editText ed]) <$> edits)
    = applyEdits word cursor edits.
Proof.
  intros Hsingle. induction edits as [|ed edits IH]; intros cursor Hcursor Hvalid.
  - split; [constructor|]. split; [constructor|done].
  - destruct Hvalid as (Hbegin & Hk & Hend & (options & Hkey & Hoption) & Hvalid).
    destruct (IH (editStart ed + editLength ed)) as (Hsorted & Hall & Happly);
      [lia|done|].
    assert (options = [editText ed]) as ->.
    { pose proof (Hsingle _ _ Hkey) as Hone.
      destruct options as [|option [|??]]; try done.
      by apply list_elem_of_singleton in Hoption as ->. }
    csimpl. split_and!.
    + constructor; [done|]. eapply Forall_impl; [exact Hall|]. simpl. by intros q [? _].
    + constructor.
      * simpl. split; [done|]. unfold occursIn. simpl. split_and!; (lia || done).
      * eapply Forall_impl; [exact Hall|]. simpl. intros q [? ?]. split; [lia|done].
    + by rewrite Happly.
Qed.

(** X16. On a table whose keys each have a first option of the key's own
    length, and with a minimum that is not negative, every variant
    [processWordReverse] emits with at least one replacement is also emitted,
    with the same count, by [processWord]; when every key has exactly one
    option the two algorithms emit the same variants with at least one
    replacement. *)
Theorem processWordReverse_within_processWord
    (subMap : gmap string (list string)) (minSubstitute maxSubstitute : Z)
    (word : string) :
  0 ≤ minSubstitute → firstOptionKeepsLength subMap →
  (∀ e, e ∈ emitted (processWordReverse subMap minSubstitute maxSubstitute word) →
        1 ≤ subCount e →
        e ∈ emitted (processWord subMap minSubstitute maxSubstitute word)) ∧
  ((∀ key subs, subMap !! key = Some subs → length subs = 1%nat) →
   ∀ e, e ∈ emitted (processWord subMap minSubstitute maxSubstitute word) →
        e ∈ emitted (processWordReverse subMap minSubstitute maxSubstitute word)).
Proof.
  intros Hmin Hfit.
  destruct (processWordReverse_variants subMap minSubstitute maxSubstitute word Hmin Hfit)
    as [_ Hreverse].
  split.
  - intros e (selected & Hsorted & Hall & Hapart & Hbounds & ->)%Hreverse Hone.
    simpl in Hone. apply processWord_variants.
    destruct (spans_as_edits subMap word selected) with (cursor := 0)
      as [Hvalid Happly].
    { apply apart_left_to_right; [done| |done].
      eapply Forall_impl; [exact Hall|]. by intros p (? & ? & _). }
    { eapply Forall_impl; [exact Hall|]. intros p Hp.
      split; [by destruct Hp|]. split; [done|].
      destruct Hp as (_ & _ & _ & Hkey).
      destruct (Hfit _ _ Hkey) as (sub0 & others & -> & _). done. }
    eexists. split; [exact Hvalid|]. rewrite length_fmap, Happly. done.
  - intros Hsingle e (edits & Hvalid & Hone & Hbounds & ->)%processWord_variants.
    apply Hreverse.
    destruct (edits_as_spans subMap word Hsingle edits 0) as (Hchain & Hall & Happly);
      [done..|].
    destruct (left_to_right_apart _ Hchain) as [Hsorted Hapart].
    { eapply Forall_impl; [exact Hall|]. by intros p (_ & _ & ? & _). }
    eexists. split; [exact Hsorted|]. split.
    { eapply Forall_impl; [exact Hall|]. by intros p [_ ?]. }
    split; [exact Hapart|]. rewrite length_fmap, Happly. done.
Qed.

Lemma processWordReverse_within_processWord_witness :
  (∀ e, e ∈ emitted (processWordReverse leetO 0 2 "foo") →
        1 ≤ subCount e →
        e ∈ emitted (processWord leetO 0 2 "foo")) ∧
  ((∀ key subs, leetO !! key = Some subs → length subs = 1%nat) →
   ∀ e, e ∈ emitted (processWord leetO 0 2 "foo") →
        e ∈ emitted (processWordReverse leetO 0 2 "foo")).
Proof.
  apply (processWordReverse_within_processWord leetO 0 2 "foo"); [lia|].
  intros key subs Hkey. unfold leetO in Hkey.
  apply lookup_singleton_Some in Hkey as [<- <-]. by exists "0", [].
Defined.

(** ** The two pattern-level algorithms compared *)

(** X17. Two runs, each with its own orders of [range]: every selection of
    patterns that [processWordSubstituteAllReverse] emits is also emitted,
    with the same count, by [processWordSubstituteAll], each run applying the
    selection in its own order (so the two variants are the same string when
    the two runs visit the selection in the same order, and may differ
    otherwise); when every key of the table has exactly one option, the
    selections the forward algorithm emits are emitted by the reverse one as
    well. *)
Theorem processWordSubstituteAllReverse_within_forward
    (orderReverse orderForward : RangeOrder) (subMap : gmap string (list string))
    (minSubstitute maxSubstitute : Z) (word : string) :
  (∀ e, e ∈ emitted (processWordSubstituteAllReverse orderReverse subMap minSubstitute
                       maxSubstitute word) →
     ∃ selected : gmap string string,
       e = Emit (applyInOrder word (orderReverse selected)) (Z.of_nat (size selected)) ∧
       Emit (applyInOrder word (orderForward selected)) (Z.of_nat (size selected))
       ∈ emitted (processWordSubstituteAll orderForward subMap minSubstitute
                    maxSubstitute word)) ∧
  ((∀ key subs, subMap !! key = Some subs → length subs = 1%nat) →
   ∀ e, e ∈ emitted (processWordSubstituteAll orderForward subMap minSubstitute
                       maxSubstitute word) →
     ∃ selected : gmap string string,
       e = Emit (applyInOrder word (orderForward selected)) (Z.of_nat (size selected)) ∧
       Emit (applyInOrder word (orderReverse selected)) (Z.of_nat (size selected))
       ∈ emitted (processWordSubstituteAllReverse orderReverse subMap minSubstitute
                    maxSubstitute word)).
Proof.
  split.
  - intros e (selected & Hsel & Hbounds & ->)%processWordSubstituteAllReverse_variants.
    exists selected. split; [done|].
    apply processWordSubstituteAll_variants. exists selected.
    split; [|done]. intros pattern replacement Hpattern.
    destruct (Hsel _ _ Hpattern) as (Hin & others & Hkey).
    split; [done|]. exists (replacement :: others). split; [done|]. left.
  - intros Hsingle e (selected & Hsel & Hbounds & ->)%processWordSubstituteAll_variants.
    exists selected. split; [done|].
    apply processWordSubstituteAllReverse_variants. exists selected.
    split; [|done]. intros pattern replacement Hpattern.
    destruct (Hsel _ _ Hpattern) as (Hin & subs & Hkey & Hoption).
    split; [done|]. exists []. pose proof (Hsingle _ _ Hkey) as Hone.
    destruct subs as [|option [|??]]; try done.
    by apply list_elem_of_singleton in Hoption as ->.
Qed.

(** ** Runs that do not depend on the order of a [range] *)

(** A map with at most one entry can be visited in one order only. *)
Lemma rangeOver_small (order1 order2 : RangeOrder) (m : gmap string string) :
  (size m ≤ 1)%nat → order1 m = order2 m.
Proof.
  intros Hsize.
  pose proof (rangeOver_perm order1 m) as H1.
  pose proof (rangeOver_perm order2 m) as H2.
  rewrite <-length_map_to_list in Hsize.
  destruct (map_to_list m) as [|entry [|??]]; [| |simpl in Hsize; lia].
  - apply Permutation_nil_r in H1, H2. congruence.
  - apply Permutation_singleton_r in H1, H2. congruence.
Qed.

Lemma generatePatterns_any_order (order1 order2 : RangeOrder) subMap
    minSubstitute maxSubstitute word rest :
  maxSubstitute ≤ 1 →
  ∀ currentSubs,
    generatePatterns order1 subMap minSubstitute maxSubstitute word rest currentSubs
    = generatePatterns order2 subMap minSubstitute maxSubstitute word rest currentSubs.
Proof.
  intros Hmax. induction rest as [|currentPattern rest IH]; intros currentSubs; simpl.
  - unfold emitLeaf, applySubs.
    destruct (decide (Z.of_nat (size currentSubs) > maxSubstitute)) as [Hgt|Hle].
    + rewrite (bool_decide_true (_ > _)) by done. by rewrite !orb_true_r.
    + rewrite (rangeOver_small order1 order2) by lia. done.
  - rewrite IH. f_equal. apply forEach_ext. intros replacement _. apply IH.
Qed.

Lemma generateSubsets_any_order (order1 order2 : RangeOrder)
    minSubstitute maxSubstitute word rest :
  maxSubstitute ≤ 1 →
  (∀ currentSubs,
      generateSubsets order1 minSubstitute maxSubstitute word rest currentSubs
      = generateSubsets order2 minSubstitute maxSubstitute word rest currentSubs) ∧
  (∀ currentSubs,
      removeEach order1 minSubstitute maxSubstitute word currentSubs rest
      = removeEach order2 minSubstitute maxSubstitute word currentSubs rest).
Proof.
  intros Hmax.
  assert (Hbody : ∀ rest,
    (∀ currentSubs,
        removeEach order1 minSubstitute maxSubstitute word currentSubs rest
        = removeEach order2 minSubstitute maxSubstitute word currentSubs rest) →
    ∀ currentSubs,
        generateSubsets order1 minSubstitute maxSubstitute word rest currentSubs
        = generateSubsets order2 minSubstitute maxSubstitute word rest currentSubs).
  { intros l Hloop currentSubs. rewrite !generateSubsets_unfold. cbv zeta.
    rewrite Hloop. unfold applySubs.
    destruct (decide (Z.of_nat (size currentSubs) ≤ maxSubstitute)) as [Hle|Hgt].
    - rewrite (rangeOver_small order1 order2) by lia. done.
    - rewrite !(bool_decide_false (_ ≤ maxSubstitute)) by done. done. }
  induction rest as [|pattern rest [IHgen IHloop]].
  - assert (∀ currentSubs,
        removeEach order1 minSubstitute maxSubstitute word currentSubs []
        = removeEach order2 minSubstitute maxSubstitute word currentSubs []) by done.
    auto.
  - assert (∀ currentSubs,
        removeEach order1 minSubstitute maxSubstitute word currentSubs (pattern :: rest)
        = removeEach order2 minSubstitute maxSubstitute word currentSubs (pattern :: rest)).
    { intros currentSubs. cbn [removeEach]. by rewrite IHgen, IHloop. }
    auto.
Qed.

(** X18. With a maximum of at most one substitution, the order in which Go
    visits the entries of [currentSubs] has no influence: two runs of
    [processWordSubstituteAll], or of [processWordSubstituteAllReverse], emit
    the same variants in the same sequence. *)
Theorem substituteAll_order_immaterial
    (order1 order2 : RangeOrder) (subMap : gmap string (list string))
    (minSubstitute maxSubstitute : Z) (word : string) :
  maxSubstitute ≤ 1 →
  processWordSubstituteAll order1 subMap minSubstitute maxSubstitute word
  = processWordSubstituteAll order2 subMap minSubstitute maxSubstitute word ∧
  processWordSubstituteAllReverse order1 subMap minSubstitute maxSubstitute word
  = processWordSubstituteAllReverse order2 subMap minSubstitute maxSubstitute word.
Proof.
  intros Hmax. split.
  - by apply generatePatterns_any_order.
  - unfold processWordSubstituteAllReverse. cbv zeta.
    case_bool_decide; [done|]. by apply generateSubsets_any_order.
Qed.

Lemma substituteAll_order_immaterial_witness :
  processWordSubstituteAll listOrder chained 0 1 "ab"
  = processWordSubstituteAll reverseOrder chained 0 1 "ab" ∧
  processWordSubstituteAllReverse listOrder chained 0 1 "ab"
  = processWordSubstituteAllReverse reverseOrder chained 0 1 "ab".
Proof. apply (substituteAll_order_immaterial listOrder reverseOrder chained 0 1 "ab"). lia. Defined.

(** ** Runs of the reverse occurrence algorithm that cannot panic *)

Lemma foldM_returns {A S} (I : S → Prop) (body : S → A → M S) (l : list A) :
  ∀ acc,
    I acc →
    (∀ acc x, x ∈ l → I acc → ∃ acc', result (body acc x) = Done acc' ∧ I acc') →
    returns (foldM body acc l).
Proof.
  induction l as [|x l IH]; intros acc Hacc Hstep; simpl; [apply returns_ret|].
  destruct (Hstep acc x) as (acc' & Hbody & Hacc'); [left|done|].
  apply returns_bind; [by exists acc'|]. intros acc'' Hbody'.
  assert (acc'' = acc') as -> by congruence.
  apply IH; [done|]. intros acc0 y Hy. apply Hstep. by right.
Qed.

(** One replacement when the running [offset] is not negative: both slices
    are in range, and [result] stays [offset] bytes longer than the word. *)
Lemma applyAt_in_range subMap word (positions : list position) (st : string * Z)
    (idx : Z) (pos : position) :
  firstOptionNotShorter subMap →
  0 ≤ idx → positions !! Z.to_nat idx = Some pos → occursIn subMap word pos →
  0 ≤ st.2 → len st.1 = len word + st.2 →
  ∃ st', result (applyAt positions st idx) = Done st' ∧
         0 ≤ st'.2 ∧ len st'.1 = len word + st'.2.
Proof.
  intros Hfit Hidx Hpos (Hs & Hk & Hend & Hkey) Hoffset Hlen.
  destruct st as [current offset]. simpl in Hoffset, Hlen.
  destruct (Hfit _ _ Hkey) as (sub0 & others & Hsubs & Hsub0).
  rewrite len_sub in Hsub0 by lia.
  unfold applyAt. rewrite (index_lookup positions idx pos) by done.
  rewrite (bind_done (mret pos) _ pos) by done.
  rewrite Hsubs. change (index (sub0 :: others) 0) with (mret (M:=M) sub0).
  rewrite (bind_done (mret sub0) _ sub0) by done.
  rewrite (slice_inRange current 0 (start pos + offset)) by lia.
  rewrite (bind_done (mret _) _ (sub current 0 (start pos + offset))) by done.
  rewrite (slice_inRange current (start pos + offset + keyLength pos) (len current))
    by lia.
  rewrite (bind_done (mret _) _
             (sub current (start pos + offset + keyLength pos) (len current))) by done.
  eexists. split; [done|]. simpl. split; [lia|].
  rewrite !len_app, !len_sub by lia. lia.
Qed.

(** X19. On a table whose keys each have a first replacement option that is
    not shorter than the key, and with a minimum that is not negative,
    [processWordReverse] returns: no index and no slice is out of range. (The
    panics of this algorithm need an empty list of options or a first option
    shorter than its key.) *)
Theorem processWordReverse_returns_unless_shrinking
    (subMap : gmap string (list string)) (minSubstitute maxSubstitute : Z)
    (word : string) :
  0 ≤ minSubstitute → firstOptionNotShorter subMap →
  result (processWordReverse subMap minSubstitute maxSubstitute word) = Done tt.
Proof.
  intros Hmin Hfit.
  unfold processWordReverse. rewrite findPositions_occurrences.
  rewrite (bind_done (mret _) _ _ eq_refl).
  set (positions := seqZ 0 (len word) ≫= occurrencesAt subMap word).
  assert (Hoccurs : ∀ pos, pos ∈ positions → occursIn subMap word pos)
    by (intros pos; apply elem_of_occurrences).
  unfold processWordReverseFrom. case_bool_decide as Htotal; [done|].
  set (actualMax := if bool_decide (maxSubstitute > Z.of_nat (length positions))
                    then Z.of_nat (length positions) else maxSubstitute).
  assert (actualMax ≤ Z.of_nat (length positions))
    by (unfold actualMax; case_bool_decide; lia).
  apply returns_unit, returns_forEach.
  intros subCount [? ?]%elem_of_reverse%elem_of_seqZ.
  destruct (generateCombinations_lists (Z.to_nat subCount) (S (length positions))
              (Z.of_nat (length positions))) as (combos & E & _ & Hmem); [lia|].
  rewrite Z2Nat.id in E by lia. rewrite (bind_done _ _ _ E).
  apply returns_forEach. intros combo (_ & _ & Hrange)%Hmem.
  destruct (select_exists positions combo Hrange) as [selected Hsel].
  rewrite (validSubstitutionPositions_selected _ _ _ Hsel).
  rewrite (bind_done (mret _) _ _ eq_refl).
  destruct (disjointSorted _); [|apply returns_ret]. simpl.
  apply returns_bind; [|intros; apply returns_send].
  apply (foldM_returns (λ st, 0 ≤ st.2 ∧ len st.1 = len word + st.2)).
  { simpl. lia. }
  intros st idx Hidx [Hoffset Hlen].
  rewrite Forall_forall in Hrange. specialize (Hrange idx Hidx).
  destruct (lookup_lt_is_Some_2 positions (Z.to_nat idx)) as [pos Hpos]; [lia|].
  apply (applyAt_in_range subMap word positions st idx pos); try done; [lia|].
  apply Hoccurs. by eapply list_elem_of_lookup_2.
Qed.

Lemma processWordReverse_returns_unless_shrinking_witness :
  result (processWordReverse widening 0 2 "ab") = Done tt.
Proof.
  apply (processWordReverse_returns_unless_shrinking widening 0 2 "ab"); [lia|].
  intros key subs Hkey. unfold widening in Hkey.
  apply lookup_insert_Some in Hkey as [[<- <-]|[_ Hkey]].
  - exists "12", []. split; [done|]. by vm_compute.
  - apply lookup_singleton_Some in Hkey as [<- <-].
    exists "34", []. split; [done|]. by vm_compute.
Defined.

(** ** What [strings.ReplaceAll] replaces *)









(** ** The pattern-level forward algorithm: what a selection replaces *)




(** ** The substitution count of a variant and what was replaced in it *)




